(** * Cassabon: rollup accumulation, flush engine, read worker and path resolver

    A shallow embedding of [datastore/storemanager.go] (the store manager:
    [resetRollupData], [getExpression], [accumulate], [flush], [queryGET]) and
    of the path resolver ([query], [getMax], [noWild], [simpleWild],
    [complexWild], [processQueryResults]), with the properties the
    specification states about them, and further properties of these
    functions, of the PEERCHANGE case of [run], of the time to live computed
    by [populateSchema], of the listener's [MetricHandler] and of
    [fetchConfiguration] as [main] calls it.

    Conventions of the embedding:
    - [time.Time] is the instant, as the number of nanoseconds since the
      Unix epoch, and [time.Duration] the signed 64-bit nanosecond count,
      both in [Z]; the seconds of a Go [Time] are an [int64] counted from
      January 1 of year 1, which [time.Unix] wraps into;
    - [float64] is Rocq's primitive binary64 [float];
    - [uint64] is a [Z] in [0, 2^64) with the wrap-around written out;
    - a Go map is a [gmap]; the order in which [range] visits it is a
      parameter ([range_order]), constrained only to enumerate the map;
    - a [*rollup] is an index into a store of rollup objects ([sm_heap]), so
      that [byPath] and the run lists share objects as the Go maps do;
    - a run-time panic (index out of range, nil dereference) is [None]. *)

From Stdlib Require Import ZArith Lia Strings.Ascii Strings.String.
From Stdlib Require Import Floats.PrimFloat Floats.SpecFloat Floats.FloatOps.
From Stdlib Require Import Numbers.Cyclic.Int63.Uint63.
From stdpp Require Import gmap strings list fin_maps pretty.

Local Open Scope Z_scope.

(** ** Machine integers and floating point conversions *)

Module gonum.

Definition uint64_modulus : Z := 2 ^ 64.

(** The wrap-around of [int64] arithmetic: the value in [-2^63, 2^63)
    that is congruent to [z] modulo [2^64]. *)
Definition int64_wrap (z : Z) : Z := (z + 2 ^ 63) mod 2 ^ 64 - 2 ^ 63.

(** [c + d] on [uint64]. *)
Definition uint64_add (c d : Z) : Z := (c + d) mod uint64_modulus.

(** [float64(c)] for [c : uint64]: exact below [2^63]; above, the halving
    with a sticky low bit rounds to nearest even as the hardware conversion
    does. *)
Definition float64_of_uint64 (c : Z) : float :=
  if c <? 2 ^ 63 then PrimFloat.of_uint63 (Uint63.of_Z c)
  else PrimFloat.mul
         (PrimFloat.of_uint63 (Uint63.of_Z (Z.lor (Z.shiftr c 1) (Z.land c 1))))
         2%float.

(** [float64(n)] for [n : int64] of magnitude below [2^63]. *)
Definition float64_of_int64 (n : Z) : float :=
  if n <? 0 then PrimFloat.opp (PrimFloat.of_uint63 (Uint63.of_Z (- n)))
  else PrimFloat.of_uint63 (Uint63.of_Z n).

(** [int(f)] for [f : float64]: the fraction is discarded.  Values that do
    not fit [int] (and NaN) are implementation-dependent in Go; the amd64
    result, the smallest [int64], is used. *)
Definition int_of_float64 (f : float) : Z :=
  match Prim2SF f with
  | S754_zero _ => 0
  | S754_finite s m e =>
      let a := if 0 <=? e then Z.shiftl (Z.pos m) e else Z.shiftr (Z.pos m) (- e) in
      let z := if s then - a else a in
      if (- 2 ^ 63 <=? z) && (z <? 2 ^ 63) then z else - 2 ^ 63
  | _ => - 2 ^ 63
  end.

End gonum.

(** ** The subset of Go's [time] package that the code uses *)

Module time.

Abbreviation Time := Z.
Abbreviation Duration := Z.

Definition Nanosecond : Duration := 1.
Definition Millisecond : Duration := 1000000.
Definition Second : Duration := 1000000000.
Definition Minute : Duration := 60 * Second.

Definition minDuration : Duration := - 2 ^ 63.
Definition maxDuration : Duration := 2 ^ 63 - 1.

(** [t.Before(u)] and [t.After(u)]. *)
Definition Before (t u : Time) : bool := t <? u.
Definition After (t u : Time) : bool := u <? t.

(** [t.Add(d)]. *)
Definition Add (t : Time) (d : Duration) : Time := t + d.

(** [t.Sub(u)]: the difference, saturated to the range of [Duration]. *)
Definition Sub (t u : Time) : Duration :=
  let d := t - u in
  if d <? minDuration then minDuration
  else if maxDuration <? d then maxDuration
  else d.

(** The seconds from January 1 of year 1, where the seconds field of a
    [Time] starts, to the Unix epoch. *)
Definition unixToInternal : Z := 62135596800.

(** [time.Unix(sec, nsec)].  An [nsec] outside [0, 1e9) is brought into
    that range, carrying into [sec]; the seconds field of the result is
    [sec + unixToInternal] in [int64], which wraps around: a [sec] above
    [2^63 - 1 - unixToInternal] gives an instant some 292 billion years
    before the epoch. *)
Definition Unix (sec nsec : Z) : Time :=
  let '(sec, nsec) :=
    if (nsec <? 0) || (1000000000 <=? nsec) then
      let n := Z.quot nsec 1000000000 in
      let sec := gonum.int64_wrap (sec + n) in
      let nsec := nsec - n * 1000000000 in
      if nsec <? 0 then (gonum.int64_wrap (sec - 1), nsec + 1000000000)
      else (sec, nsec)
    else (sec, nsec) in
  (gonum.int64_wrap (sec + unixToInternal) - unixToInternal) * Second + nsec.

(** [d.Nanoseconds()]. *)
Definition Nanoseconds (d : Duration) : Z := d.

(** [d.Seconds()]: [float64(d / Second) + float64(d % Second) / 1e9]. *)
Definition Seconds (d : Duration) : float :=
  PrimFloat.add
    (gonum.float64_of_int64 (Z.quot d Second))
    (PrimFloat.div (gonum.float64_of_int64 (Z.rem d Second)) 1e9%float).

End time.

(** ** The subset of Go's [strings] and [strconv] packages that the code uses *)

Module gostrings.

(** [strings.Join(elems, sep)]. *)
Fixpoint Join (elems : list string) (sep : string) : string :=
  match elems with
  | [] => ""
  | [e] => e
  | e :: rest => e +:+ sep +:+ Join rest sep
  end.

(** Scanning for [strings.Split]: [cur] holds, reversed, the bytes of the
    piece being read. *)
Fixpoint Split_go (sep : Ascii.ascii) (cur : string) (s : string) : list string :=
  match s with
  | EmptyString => [String.rev cur]
  | String c s' =>
      if Ascii.eqb c sep then String.rev cur :: Split_go sep EmptyString s'
      else Split_go sep (String c cur) s'
  end.

(** [strings.Split(s, sep)] for a one-byte separator: the pieces between
    the separators, [len = 1 + number of separators]. *)
Definition Split (s : string) (sep : Ascii.ascii) : list string :=
  Split_go sep EmptyString s.

(** [strconv.ParseBool(s)], with the error dropped as the caller does:
    an unparseable string gives [false]. *)
Definition ParseBool (s : string) : bool :=
  if String.eqb s "1" then true
  else if String.eqb s "t" then true
  else if String.eqb s "T" then true
  else if String.eqb s "TRUE" then true
  else if String.eqb s "true" then true
  else if String.eqb s "True" then true
  else false.

End gostrings.

(** ** Types of package [config] *)

Module config.

(** Modelled from the spec: the declarations of package [config] are not
    part of the sources at hand.  An aggregation method is one of AVERAGE,
    MAX, MIN, SUM; a window is a pair (window duration, retention duration)
    with a derived table name; a rollup definition is keyed by a
    path-matching regular expression and holds a method and an ordered list
    of windows.  The compiled [*regexp.Regexp] is its match predicate, [None]
    being the nil pointer. *)
Inductive RollupMethod := AVERAGE | MAX | MIN | SUM.

Record RollupWindow := {
  Window : time.Duration;
  Retention : time.Duration;
  Table : string
}.

Record RollupDef := {
  Method : RollupMethod;
  Expression : option (string → bool);
  Windows : list RollupWindow
}.

(** [CarbonMetric], as declared next to the listener. *)
Record CarbonMetric := {
  Path : string;
  Value : float;
  Timestamp : float
}.

(** Modelled from the spec: the request [{from, to, method, query[], channel}]
    carried by the [MetricRequest] channel; [from] and [to] are the [int64]
    seconds that [queryGET] hands to [time.Unix].  The state of the one-shot
    response channel is an argument of [queryGET]. *)
Record MetricQuery := {
  mq_Method : string;
  mq_From : Z;
  mq_To : Z;
  mq_Query : list string
}.

(** Modelled from the spec: the response envelope [{status, message,
    payload}]; of the status constants only the two that the store manager
    names are needed. *)
Inductive APIQueryStatus := AQS_OK | AQS_BADREQUEST.

Record APIQueryResponse := {
  aq_Status : APIQueryStatus;
  aq_Message : string;
  aq_Payload : string
}.

End config.

Export config.

#[global] Instance RollupMethod_eq_dec : EqDecision RollupMethod.
Proof. solve_decision. Defined.
#[global] Instance APIQueryStatus_eq_dec : EqDecision APIQueryStatus.
Proof. solve_decision. Defined.

(** ** The batch writer *)

Module batch.

(** A row handed to the writer: path, time, value. *)
Definition row : Type := string * Z * float.

(** Modelled from the spec: [batchWriter] is declared in a file that is not
    part of the sources at hand.  It accepts rows grouped by table:
    [Prepare] switches the active table (flushing the previous table's
    residual rows), [Append] adds a row and writes and resets the batch when
    it reaches the configured row count, [Write] flushes the residual rows,
    [Size] is the current count.  [bw_written] records the batches handed to
    the store, oldest first, each with its table. *)
Record batchWriter := {
  bw_keyspace : string;
  bw_batchSize : Z;
  bw_table : string;
  bw_batch : list row;
  bw_written : list (string * list row)
}.

Definition Init (keyspace : string) (batchSize : Z) : batchWriter :=
  {| bw_keyspace := keyspace; bw_batchSize := batchSize; bw_table := "";
     bw_batch := []; bw_written := [] |}.

Definition Size (bw : batchWriter) : Z := Z.of_nat (length (bw_batch bw)).

Definition Write (bw : batchWriter) : batchWriter :=
  {| bw_keyspace := bw_keyspace bw; bw_batchSize := bw_batchSize bw;
     bw_table := bw_table bw; bw_batch := [];
     bw_written := bw_written bw ++ [(bw_table bw, bw_batch bw)] |}.

Definition Prepare (table : string) (bw : batchWriter) : batchWriter :=
  let bw' := if 0 <? Size bw then Write bw else bw in
  {| bw_keyspace := bw_keyspace bw'; bw_batchSize := bw_batchSize bw';
     bw_table := table; bw_batch := bw_batch bw';
     bw_written := bw_written bw' |}.

Definition Append (path : string) (t : time.Time) (v : float) (bw : batchWriter)
  : batchWriter :=
  let bw' :=
    {| bw_keyspace := bw_keyspace bw; bw_batchSize := bw_batchSize bw;
       bw_table := bw_table bw; bw_batch := bw_batch bw ++ [(path, t, v)];
       bw_written := bw_written bw |} in
  if bw_batchSize bw' <=? Size bw' then Write bw' else bw'.

(** The rows of one written batch, each with the batch's table. *)
Definition tagged (b : string * list row) : list (string * row) :=
  (λ r, (b.1, r)) <$> b.2.

(** Every row written so far, with its table. *)
Definition written_rows (bw : batchWriter) : list (string * row) :=
  concat (tagged <$> bw_written bw).

(** Every row handed to the writer so far: written or still pending. *)
Definition all_rows (bw : batchWriter) : list (string * row) :=
  written_rows bw ++ tagged (bw_table bw, bw_batch bw).

End batch.

Export batch.

(** ** Small utilities of the embedding *)

(** A left fold whose step can fail: the first failure aborts the loop. *)
Fixpoint foldlM {S A : Type} (f : S → A → option S) (s : S) (l : list A)
  : option S :=
  match l with
  | [] => Some s
  | x :: l' => match f s x with
               | Some s' => foldlM f s' l'
               | None => None
               end
  end.

(** ** The store manager's data *)

(** [rollup]: the accumulated metrics data for a path. *)
Record rollup := {
  rollup_expr : string;
  rollup_count : list Z;
  rollup_value : list float
}.

(** [runlist]: the paths to be written for an expression, and when.  The
    map holds [*rollup] pointers, here indices into [sm_heap]. *)
Record runlist := {
  runlist_nextWriteTime : list Z;
  runlist_path : gmap string nat
}.

(** [MetricResponse] of the store manager. *)
Record MetricResponse := {
  mr_From : Z;
  mr_To : Z;
  mr_Step : Z;
  mr_Series : gmap string (list float)
}.

(** The fields of [StoreManager] that hold rollup configuration and data,
    and the store of the rollup objects that the two maps point into. *)
Record StoreManager := {
  sm_rollupPriority : list string;
  sm_rollup : gmap string RollupDef;
  sm_byPath : gmap string nat;
  sm_byExpr : gmap string runlist;
  sm_heap : list rollup
}.

(** The resolver's [MetricResponse], one entry of its answer. *)
Module gopher.

Record MetricResponse := {
  Path : string;
  Depth : Z;
  Tenant : string;
  Leaf : bool
}.

End gopher.

(** A [SELECT] as handed to [dbClient.Query]: the statement and the three
    values bound to its placeholders. *)
Record select := {
  sel_stmt : string;
  sel_path : string;
  sel_from : time.Time;
  sel_to : time.Time
}.

(** Modelled from the spec: [nextTimeBoundary] is declared in a file that is
    not part of the sources at hand.  [nextBoundary(now, W)] is the smallest
    instant [> now] that is an integer multiple of [W] from the epoch; there
    is none for [W <= 0], where [now] itself is returned. *)
Definition nextTimeBoundary (baseTime : time.Time) (windowSize : time.Duration)
  : time.Time :=
  if 0 <? windowSize then windowSize * (baseTime `div` windowSize + 1)
  else baseTime.

(** ** The listener's handler *)

Module listener.

(** What [MetricHandler] does with a line, besides closing the connection:
    it skips it, or gives up on a field that is not a number, or would queue
    the parsed metric; [bad] tells whether it printed the line as a bad
    metric first. *)
Inductive outcome :=
  | Skipped
  | BadValue (bad : bool) (field : string)
  | BadTimestamp (bad : bool) (field : string)
  | WouldQueue (bad : bool) (parsedMetric : CarbonMetric).

(** [MetricHandler], from the result [(line, err)] of
    [bufio.NewReader(conn).ReadString('\n')], [err] telling that the read
    failed.  [Fields] is [strings.Fields]; [ParseFloat] is
    [strconv.ParseFloat(_, 64)], returning the value and whether there was an
    error.  Every path through the body of the loop ends in [break] or in a
    panic, so the body runs at most once; an index out of range is [None]. *)
Definition MetricHandler (Fields : string → list string)
  (ParseFloat : string → float * bool) (line : string) (err : bool)
  : option outcome :=
  let metric := if err then "" else line in
  if decide (metric = "") then Some Skipped
  else
    let splitMetric := Fields metric in
    let bad := bool_decide (length splitMetric ≠ 3%nat) in
    statPath ← splitMetric !! 0%nat;
    field1 ← splitMetric !! 1%nat;
    let '(val, err1) := ParseFloat field1 in
    if err1 then Some (BadValue bad field1)
    else
      field2 ← splitMetric !! 2%nat;
      let '(ts, err2) := ParseFloat field2 in
      if err2 then Some (BadTimestamp bad field2)
      else Some (WouldQueue bad {| Path := statPath; Value := val;
                                   Timestamp := ts |}).

End listener.

(** ** The time to live of a table *)

(** Lines 133-135 and 149 of [populateSchema]: the [default_time_to_live]
    of a table that is to be created, from the table's name.  The error of
    [strconv.ParseFloat] is dropped, as the code does; indexing the pieces
    of the name out of range panics. *)
Definition populateSchema_ttl (ParseFloat : string → float * bool)
  (table : string) : option Z :=
  ttl ← gostrings.Split table "_"%char !! 1%nat;
  Some (gonum.int_of_float64
          (PrimFloat.mul (ParseFloat ttl).1 0x1.199999999999ap+0%float)).

(** ** The command line and the configuration file *)

Module main.

(** The fields of [config.G] that [main] and [fetchConfiguration] set. *)
Record Globals := {
  Logdir : string;
  Loglevel : string;
  StatsdHost : string;
  StatsdPort : Z
}.

(** What [fetchConfiguration] reads of the result of [config.ParseConfig]:
    [cnf.Logging.Logdir], [cnf.Logging.Loglevel] and [cnf.Statsd.Host]. *)
Record CassabonConfig := {
  cnf_Logdir : string;
  cnf_Loglevel : string;
  cnf_StatsdHost : string
}.

(** The options of the command line, [None] for an option that is not
    given. *)
Record options := {
  opt_conf : option string;
  opt_logdir : option string;
  opt_loglevel : option string;
  opt_statsdhost : option string;
  opt_statsdport : option Z
}.

(** Lines 40-45: [confFile] and the globals after [flag.Parse], each flag
    with its default. *)
Definition parse_flags (o : options) : string * Globals :=
  (default "" (opt_conf o),
   {| Logdir := default "" (opt_logdir o);
      Loglevel := default "debug" (opt_loglevel o);
      StatsdHost := default "" (opt_statsdhost o);
      StatsdPort := default 8125 (opt_statsdport o) |}).

(** The first string of a list that is not empty; the empty string when
    there is none. *)
Fixpoint first_nonempty (l : list string) : string :=
  match l with
  | [] => ""
  | s :: l' => if decide (s = "") then first_nonempty l' else s
  end.

(** [fetchConfiguration], with [cnf] the parsed file. *)
Definition fetchConfiguration (cnf : CassabonConfig) (g : Globals) : Globals :=
  {| Logdir := if decide (Logdir g = "") then cnf_Logdir cnf else Logdir g;
     Loglevel := if decide (Loglevel g = "") then cnf_Loglevel cnf
                 else Loglevel g;
     StatsdHost := if decide (StatsdHost g = "") then cnf_StatsdHost cnf
                   else StatsdHost g;
     StatsdPort := StatsdPort g |}.

(** Lines 48-50 and 100-102: the file is read when one was named. *)
Definition load (confFile : string) (cnf : CassabonConfig) (g : Globals)
  : Globals :=
  if decide (confFile ≠ "") then fetchConfiguration cnf g else g.

(** The globals after the startup and a series of SIGHUPs, the file
    holding [cnf] at the startup and the elements of [reloads] at the
    reloads. *)
Definition configured (o : options) (cnf : CassabonConfig)
  (reloads : list CassabonConfig) : Globals :=
  foldl (λ g cnf', load (parse_flags o).1 cnf' g)
        (load (parse_flags o).1 cnf (parse_flags o).2) reloads.

End main.

Section Cassabon.

(** *** What the code takes from its environment *)

(** [config.ROLLUP_CATCHALL], a constant of package [config]. *)
Variable ROLLUP_CATCHALL : string.

(** The method of the zero [config.RollupDef], which a lookup of an absent
    key of [sm.rollup] yields: [None] if it is none of the four constants. *)
Variable zero_Method : option RollupMethod.

(** The order in which [range] visits a map: unspecified in Go, so any
    enumeration of the map's entries. *)
Variable range_order : ∀ A : Type, gmap string A → list (string * A).
Hypothesis range_order_perm :
  ∀ (A : Type) (m : gmap string A), range_order A m ≡ₚ map_to_list m.

(** [config.G.Cassandra.Keyspace] and [config.G.Cassandra.BatchSize]. *)
Variable Keyspace : string.
Variable BatchSize : Z.

(** *** Lookups in [sm.rollup], with Go's zero value for an absent key *)

Definition rollup_Method (defs : gmap string RollupDef) (expr : string)
  : option RollupMethod :=
  match defs !! expr with
  | Some d => Some (Method d)
  | None => zero_Method
  end.

Definition rollup_Expression (defs : gmap string RollupDef) (expr : string)
  : option (string → bool) :=
  match defs !! expr with
  | Some d => Expression d
  | None => None
  end.

Definition rollup_Windows (defs : gmap string RollupDef) (expr : string)
  : list RollupWindow :=
  match defs !! expr with
  | Some d => Windows d
  | None => []
  end.

(** *** [resetRollupData] *)

(** The run list that [resetRollupData] builds for one rollup definition. *)
Definition new_runlist (baseTime : time.Time) (rollupdef : RollupDef) : runlist :=
  {| runlist_nextWriteTime :=
       (λ v, nextTimeBoundary baseTime (Window v)) <$> Windows rollupdef;
     runlist_path := ∅ |}.

(** [resetRollupData], with [baseTime] the value of [time.Now()].  The
    rollup objects of the discarded maps stay in the store as garbage. *)
Definition resetRollupData (baseTime : time.Time) (sm : StoreManager)
  : StoreManager :=
  {| sm_rollupPriority := sm_rollupPriority sm;
     sm_rollup := sm_rollup sm;
     sm_byPath := ∅;
     sm_byExpr := new_runlist baseTime <$> sm_rollup sm;
     sm_heap := sm_heap sm |}.

(** *** [getExpression] *)

(** The loop of [getExpression]: [cur] is the loop variable [expr], which
    keeps the last value assigned when the list is exhausted.  Matching
    against the nil [*regexp.Regexp] of an absent definition panics. *)
Fixpoint getExpression_loop (defs : gmap string RollupDef) (path : string)
  (prio : list string) (cur : string) : option string :=
  match prio with
  | [] => Some cur
  | e :: rest =>
      if decide (e ≠ ROLLUP_CATCHALL) then
        match rollup_Expression defs e with
        | None => None
        | Some re => if re path then Some e
                     else getExpression_loop defs path rest e
        end
      else getExpression_loop defs path rest e
  end.

Definition getExpression (sm : StoreManager) (path : string) : option string :=
  getExpression_loop (sm_rollup sm) path (sm_rollupPriority sm) "".

(** *** [accumulate] *)

(** One iteration of the method's loop over [currentRollup.value]: the new
    [value[i]] from the old [v], reading [count[i]] where the code does. *)
Definition fold_value (m : option RollupMethod) (x : float) (cnt : list Z)
  (i : nat) (v : float) : option float :=
  match m with
  | Some AVERAGE =>
      c ← cnt !! i;
      Some (PrimFloat.div
              (PrimFloat.add (PrimFloat.mul v (gonum.float64_of_uint64 c)) x)
              (gonum.float64_of_uint64 (gonum.uint64_add c 1)))
  | Some MAX => Some (if PrimFloat.ltb v x then x else v)
  | Some MIN =>
      if PrimFloat.ltb x v then Some x
      else c ← cnt !! i; Some (if c =? 0 then x else v)
  | Some SUM => Some (PrimFloat.add v x)
  | None => Some v
  end.

(** The method's loop, from index [i] on. *)
Fixpoint fold_values (m : option RollupMethod) (x : float) (cnt : list Z)
  (i : nat) (vs : list float) : option (list float) :=
  match vs with
  | [] => Some []
  | v :: vs' =>
      v' ← fold_value m x cnt i v;
      vs'' ← fold_values m x cnt (S i) vs';
      Some (v' :: vs'')
  end.

(** Lines 270-298: apply the incoming metric to each bucket, then count it
    in each bucket. *)
Definition apply_metric (m : option RollupMethod) (x : float) (r : rollup)
  : option rollup :=
  vs ← fold_values m x (rollup_count r) 0 (rollup_value r);
  Some {| rollup_expr := rollup_expr r;
          rollup_count := (λ c, gonum.uint64_add c 1) <$> rollup_count r;
          rollup_value := vs |}.

(** The rollup that [accumulate] allocates for a new path. *)
Definition new_rollup (defs : gmap string RollupDef) (expr : string) : rollup :=
  {| rollup_expr := expr;
     rollup_count := replicate (length (rollup_Windows defs expr)) 0;
     rollup_value := replicate (length (rollup_Windows defs expr)) 0%float |}.

(** Lines 255-268: locate the rollup of the metric's path, creating it and
    entering it into both maps when the path is new.  Returns the manager,
    the pointer [currentRollup] and what was sent on [IndexStore]. *)
Definition locate (sm : StoreManager) (metric : CarbonMetric)
  : option (StoreManager * nat * list CarbonMetric) :=
  match sm_byPath sm !! Path metric with
  | Some a => Some (sm, a, [])
  | None =>
      expr ← getExpression sm (Path metric);
      rl ← sm_byExpr sm !! expr;
      let a := length (sm_heap sm) in
      Some ({| sm_rollupPriority := sm_rollupPriority sm;
               sm_rollup := sm_rollup sm;
               sm_byPath := <[Path metric := a]> (sm_byPath sm);
               sm_byExpr :=
                 <[expr := {| runlist_nextWriteTime := runlist_nextWriteTime rl;
                              runlist_path := <[Path metric := a]> (runlist_path rl) |}]>
                   (sm_byExpr sm);
               sm_heap := sm_heap sm ++ [new_rollup (sm_rollup sm) expr] |},
            a, [metric])
  end.

(** [accumulate]: the manager afterwards and the metrics sent on the
    [IndexStore] channel. *)
Definition accumulate (sm : StoreManager) (metric : CarbonMetric)
  : option (StoreManager * list CarbonMetric) :=
  '(sm1, a, sent) ← locate sm metric;
  r ← sm_heap sm1 !! a;
  r' ← apply_metric (rollup_Method (sm_rollup sm1) (rollup_expr r)) (Value metric) r;
  Some ({| sm_rollupPriority := sm_rollupPriority sm1;
           sm_rollup := sm_rollup sm1;
           sm_byPath := sm_byPath sm1;
           sm_byExpr := sm_byExpr sm1;
           sm_heap := <[a := r']> (sm_heap sm1) |}, sent).

(** *** [flush] *)

(** The loop state of [flush]: the run lists, the rollup objects, the batch
    writer and the local [nextFlush]. *)
Record flushing := {
  fl_byExpr : gmap string runlist;
  fl_heap : list rollup;
  fl_bw : batchWriter;
  fl_nextFlush : Z
}.

(** [rollup.count[i] = 0; rollup.value[i] = 0]. *)
Definition clear_bucket (i : nat) (r : rollup) : rollup :=
  {| rollup_expr := rollup_expr r;
     rollup_count := <[i := 0]> (rollup_count r);
     rollup_value := <[i := 0%float]> (rollup_value r) |}.

(** Lines 337-357, one path [pa = (path, rollup)] of a window being
    processed: write the bucket if data has accumulated, then empty it.
    Indexing [count] or [value] out of range panics; the error that
    [bw.Append] may return is only logged and counted. *)
Definition flush_path (i : nat) (statTime : time.Time)
  (st : list rollup * batchWriter) (pa : string * nat)
  : option (list rollup * batchWriter) :=
  r ← st.1 !! pa.2;
  c ← rollup_count r !! i;
  v ← rollup_value r !! i;
  Some (<[pa.2 := clear_bucket i r]> st.1,
        if 0 <? c then Append pa.1 statTime v st.2 else st.2).

(** Lines 370-374: adjust the timer delay downwards if this window's
    closing time [t] is earlier than all others seen so far. *)
Definition lower_nextFlush (t : time.Time) (st : flushing) : flushing :=
  if time.After (fl_nextFlush st) t then
    {| fl_byExpr := fl_byExpr st; fl_heap := fl_heap st;
       fl_bw := fl_bw st; fl_nextFlush := t |}
  else st.

(** The test of line 326 and the time of lines 328-333, for a window that
    closes at [windowEnd]. *)
Definition window_due (terminating : bool) (baseTime windowEnd : time.Time) : bool :=
  time.Before windowEnd baseTime || terminating.

Definition window_statTime (terminating : bool) (baseTime windowEnd : time.Time)
  : time.Time :=
  if terminating then baseTime else windowEnd.

(** Lines 323-375, one window [i] of the run list of [expr]. *)
Definition flush_window (terminating : bool) (baseTime : time.Time)
  (defs : gmap string RollupDef) (expr : string) (st : flushing) (i : nat)
  : option flushing :=
  rl ← fl_byExpr st !! expr;
  windowEnd ← runlist_nextWriteTime rl !! i;
  st1 ← (if window_due terminating baseTime windowEnd then
           let statTime := window_statTime terminating baseTime windowEnd in
           w ← rollup_Windows defs expr !! i;
           hb ← foldlM (flush_path i statTime)
                  (fl_heap st, Prepare (Table w) (fl_bw st))
                  (range_order nat (runlist_path rl));
           Some {| fl_byExpr :=
                     <[expr := {| runlist_nextWriteTime :=
                                    <[i := nextTimeBoundary baseTime (Window w)]>
                                      (runlist_nextWriteTime rl);
                                  runlist_path := runlist_path rl |}]>
                       (fl_byExpr st);
                   fl_heap := hb.1;
                   fl_bw := if 0 <? Size hb.2 then Write hb.2 else hb.2;
                   fl_nextFlush := fl_nextFlush st |}
         else Some st);
  rl1 ← fl_byExpr st1 !! expr;
  t ← runlist_nextWriteTime rl1 !! i;
  Some (lower_nextFlush t st1).

(** Lines 319-376, one expression [er = (expr, runList)]. *)
Definition flush_expr (terminating : bool) (baseTime : time.Time)
  (defs : gmap string RollupDef) (st : flushing) (er : string * runlist)
  : option flushing :=
  foldlM (flush_window terminating baseTime defs er.1) st
    (seq 0 (length (runlist_nextWriteTime er.2))).

(** What [flush] does with the timer: nothing when terminating, otherwise
    a non-blocking send of [delay] on [setTimeout], which is delivered when
    the timer is receiving and dropped when it is not. *)
Inductive submission :=
  | NoSubmit
  | Delivered (delay : time.Duration)
  | Dropped (delay : time.Duration).

(** Lines 381-385: the duration to the earliest closing, sanity-checked. *)
Definition flush_delay (nextFlush baseTime : time.Time) : time.Duration :=
  let delay := time.Sub nextFlush baseTime in
  if time.Nanoseconds delay <? 0 then time.Millisecond else delay.

Record flushed := {
  fr_sm : StoreManager;
  fr_bw : batchWriter;
  fr_nextFlush : time.Time;
  fr_timer : submission
}.

(** Lines 309-316: the loop state that [flush] starts from, with the
    default [nextFlush] and a fresh batch writer. *)
Definition flush_init (baseTime : time.Time) (sm : StoreManager) : flushing :=
  {| fl_byExpr := sm_byExpr sm; fl_heap := sm_heap sm;
     fl_bw := Init Keyspace BatchSize;
     fl_nextFlush := time.Add baseTime time.Minute |}.

(** The walk over the set of expressions (lines 319-376). *)
Definition flush_walk (terminating : bool) (baseTime : time.Time)
  (sm : StoreManager) : option flushing :=
  foldlM (flush_expr terminating baseTime (sm_rollup sm))
    (flush_init baseTime sm)
    (range_order runlist (sm_byExpr sm)).

(** [flush(terminating)], with [baseTime] the value of [time.Now()] and
    [timerReady] telling whether the timer is receiving on [setTimeout].
    The log lines and statsd counters are not part of the model. *)
Definition flush (terminating : bool) (baseTime : time.Time) (timerReady : bool)
  (sm : StoreManager) : option flushed :=
  st ← flush_walk terminating baseTime sm;
  Some {| fr_sm := {| sm_rollupPriority := sm_rollupPriority sm;
                      sm_rollup := sm_rollup sm;
                      sm_byPath := sm_byPath sm;
                      sm_byExpr := fl_byExpr st;
                      sm_heap := fl_heap st |};
          fr_bw := fl_bw st;
          fr_nextFlush := fl_nextFlush st;
          fr_timer :=
            if terminating then NoSubmit
            else if timerReady
                 then Delivered (flush_delay (fl_nextFlush st) baseTime)
                 else Dropped (flush_delay (fl_nextFlush st) baseTime) |}.

(** *** [queryGET] *)

(** [config.G.Rollup], which [queryGET] reads for the windows. *)
Variable G_Rollup : gmap string RollupDef.

(** The rows that the iterator of a [SELECT] yields to [iter.Scan]. *)
Variable dbClient_Query : select → list float.

(** [json.Marshal] on the store manager's [MetricResponse]. *)
Variable json_Marshal_MetricResponse : MetricResponse → string.

(** The variables that [queryGET] declares before its loop over the paths,
    and the statements issued so far. *)
Record querying := {
  qs_table : string;
  qs_step : Z;
  qs_statList : list float;
  qs_series : gmap string (list float);
  qs_selects : list select
}.

(** Lines 437-445: the loop over the windows, which assigns [table] and
    [step] at the first window that satisfies the test and leaves them as
    they are when none does. *)
Fixpoint choose_window (timeDelta : time.Duration) (ws : list RollupWindow)
  (ts : string * Z) : string * Z :=
  match ws with
  | [] => ts
  | window :: ws' =>
      if timeDelta <? Retention window
      then (Table window, gonum.int_of_float64 (time.Seconds (Window window)))
      else choose_window timeDelta ws' ts
  end.

(** The statement text built by [fmt.Sprintf] at line 448. *)
Definition select_stmt (table : string) : string :=
  "SELECT stat FROM " +:+ Keyspace +:+ "." +:+ table
    +:+ " WHERE path = ? AND time >= ? AND time <= ?".

(** Lines 435-469, one path of the request. *)
Definition queryGET_path (sm : StoreManager) (timeDelta : time.Duration)
  (q : MetricQuery) (st : querying) (path : string) : option querying :=
  expr ← getExpression sm path;
  let ts := choose_window timeDelta (rollup_Windows G_Rollup expr)
              (qs_table st, qs_step st) in
  let sel := {| sel_stmt := select_stmt ts.1; sel_path := path;
                sel_from := time.Unix (mq_From q) 0;
                sel_to := time.Unix (mq_To q) 0 |} in
  let statList := qs_statList st ++ dbClient_Query sel in
  Some {| qs_table := ts.1; qs_step := ts.2; qs_statList := statList;
          qs_series := <[path := statList]> (qs_series st);
          qs_selects := qs_selects st ++ [sel] |}.

Definition querying_init : querying :=
  {| qs_table := ""; qs_step := 0; qs_statList := [];
     qs_series := ∅; qs_selects := [] |}.

(** Lines 431-469: the loop over the paths of the request. *)
Definition queryGET_loop (sm : StoreManager) (now : time.Time) (q : MetricQuery)
  : option querying :=
  foldlM (queryGET_path sm (time.Sub now (time.Unix (mq_From q) 0)) q)
    querying_init (mq_Query q).

(** The [MetricResponse] built at line 471. *)
Definition queryGET_response (q : MetricQuery) (st : querying) : MetricResponse :=
  {| mr_From := mq_From q; mr_To := mq_To q; mr_Step := qs_step st;
     mr_Series := qs_series st |}.

(** What a call of [queryGET] did: the statements it issued and the
    response it wrote to the request's channel, if any. *)
Record queried := {
  qr_selects : list select;
  qr_sent : option APIQueryResponse
}.

Definition no_query_specified : APIQueryResponse :=
  {| aq_Status := AQS_BADREQUEST; aq_Message := "no query specified";
     aq_Payload := "" |}.

(** The test of line 417. *)
Definition query_missing (q : MetricQuery) : Prop :=
  mq_Query q = [] ∨ head (mq_Query q) = Some "".

#[local] Instance query_missing_dec (q : MetricQuery) : Decision (query_missing q).
Proof. unfold query_missing. apply _. Defined.

(** [queryGET], with [now] the value of [time.Now()] and [chanClosed]
    telling whether the requester has closed the response channel.  The
    write of line 418 is unguarded, so on a closed channel it panics; the
    write of line 497 happens only when the probing receive would block,
    that is when the channel is still open (a close between the probe and
    the write is recovered, and writes nothing either). *)
Definition queryGET (sm : StoreManager) (now : time.Time) (chanClosed : bool)
  (q : MetricQuery) : option queried :=
  if decide (query_missing q) then
    if chanClosed then None
    else Some {| qr_selects := []; qr_sent := Some no_query_specified |}
  else
    st ← queryGET_loop sm now q;
    let resp := {| aq_Status := AQS_OK; aq_Message := "";
                   aq_Payload := json_Marshal_MetricResponse
                                   (queryGET_response q st) |} in
    Some {| qr_selects := qs_selects st;
            qr_sent := if chanClosed then None else Some resp |}.

(** *** The path resolver *)

(** [config.G.Redis.PathKeyname]. *)
Variable PathKeyname : string.

(** [ToBigEndianString], declared in a file that is not part of the sources
    at hand: the fixed-width decimal form of the node count. *)
Variable ToBigEndianString : Z → string.

(** [rc.ZRangeByLex(key, redis.ZRangeByScore{Min, Max, Offset, Count})
    .Result()]: the members and the error, [None] being nil. *)
Variable ZRangeByLex : string → string → string → Z → Z → list string * option string.

(** [regexp.Compile]: the match predicate of the compiled expression, or
    [None] when the expression does not compile. *)
Variable regexp_Compile : string → option (string → bool).

(** [json.Marshal] on the resolver's [[]MetricResponse]. *)
Variable json_Marshal_paths : list gopher.MetricResponse → string.

(** The last byte of [s] as a string, [s[len(s)-1:]]. *)
Definition last_byte (s : string) : string :=
  String.substring (String.length s - 1) 1 s.

(** [getMax]: the max range parameter for a ZRANGEBYLEX.  Slicing the empty
    string at [len(s)-1] panics.  The two literals are raw strings: one
    backslash, and the four bytes backslash, x, f, f. *)
Definition getMax (s : string) : option string :=
  if decide (s = "") then None
  else if decide (last_byte s = "." ∨ last_byte s = ":") then
    Some (gostrings.Join
            [String.substring 0 (String.length s - 1) s; "\"; last_byte s; "\xff"] "")
  else Some (gostrings.Join [s; "\xff"] "").

(** One member of the index, decoded (lines 204-206). *)
Definition decode_member (l : Z) (member : string) : option gopher.MetricResponse :=
  let decodedString := gostrings.Split member ":"%char in
  leaf ← decodedString !! 2%nat;
  p ← decodedString !! 1%nat;
  Some {| gopher.Path := p; gopher.Depth := l; gopher.Tenant := "";
          gopher.Leaf := gostrings.ParseBool leaf |}.

(** [processQueryResults]. *)
Definition processQueryResults (results : list string) (l : Z) : option string :=
  responseList ← mapM (decode_member l) results;
  Some (json_Marshal_paths responseList).

(** The test [err != nil || len(resp) == 0]. *)
Definition lookup_failed (r : list string * option string) : Prop :=
  r.2 ≠ None ∨ r.1 = [].

#[local] Instance lookup_failed_dec r : Decision (lookup_failed r).
Proof. unfold lookup_failed. apply _. Defined.

(** The range scan shared by the three resolvers: [None] is a panic,
    [Some None] the early [return nil], [Some (Some resp)] the members. *)
Definition scan (queryString : string) : option (option (list string)) :=
  queryStringMax ← getMax queryString;
  let r := ZRangeByLex PathKeyname queryString queryStringMax 0 0 in
  if decide (lookup_failed r) then Some None else Some (Some r.1).

(** [simpleWild]; the result [""] is the nil byte slice. *)
Definition simpleWild (q : string) (l : Z) : option string :=
  r ← scan (gostrings.Join ["["; ToBigEndianString l; ":"; q] "");
  match r with
  | None => Some ""
  | Some resp => processQueryResults resp l
  end.

(** [noWild]. *)
Definition noWild (q : string) (l : Z) : option string :=
  r ← scan (gostrings.Join ["["; ToBigEndianString l; ":"; q; ":"] "");
  match r with
  | None => Some ""
  | Some resp => processQueryResults resp l
  end.

(** [complexWild]. *)
Definition complexWild (splitWild : list string) (l : Z) : option string :=
  first ← splitWild !! 0%nat;
  r ← scan (gostrings.Join ["["; ToBigEndianString l; ":"; first] "");
  match r with
  | None => Some ""
  | Some resp =>
      match regexp_Compile (gostrings.Join splitWild ".*") with
      | None => Some ""
      | Some regex => processQueryResults (filter (λ m, regex m = true) resp) l
      end
  end.

(** [query]: the bytes written to the request's channel. *)
Definition query (statQuery : string) : option string :=
  let queryNodes := gostrings.Split statQuery "."%char in
  let splitWild := gostrings.Split statQuery "*"%char in
  if decide (length splitWild = 1%nat) then
    noWild statQuery (Z.of_nat (length queryNodes))
  else if decide (length splitWild = 2%nat ∧ splitWild !! 1%nat = Some "") then
    first ← splitWild !! 0%nat;
    simpleWild first (Z.of_nat (length queryNodes))
  else complexWild splitWild (Z.of_nat (length queryNodes)).

(** The lower bound [queryString] of the range that each resolver scans
    (lines 121, 141 and 162), and that of the resolver to which [query]
    hands a query. *)
Definition simpleWild_queryString (q : string) (l : Z) : string :=
  gostrings.Join ["["; ToBigEndianString l; ":"; q] "".

Definition noWild_queryString (q : string) (l : Z) : string :=
  gostrings.Join ["["; ToBigEndianString l; ":"; q; ":"] "".

Definition complexWild_queryString (splitWild : list string) (l : Z) : string :=
  gostrings.Join ["["; ToBigEndianString l; ":"; default "" (head splitWild)] "".

Definition query_queryString (statQuery : string) : string :=
  let queryNodes := gostrings.Split statQuery "."%char in
  let splitWild := gostrings.Split statQuery "*"%char in
  if decide (length splitWild = 1%nat) then
    noWild_queryString statQuery (Z.of_nat (length queryNodes))
  else if decide (length splitWild = 2%nat ∧ splitWild !! 1%nat = Some "") then
    simpleWild_queryString (default "" (head splitWild))
      (Z.of_nat (length queryNodes))
  else complexWild_queryString splitWild (Z.of_nat (length queryNodes)).

(** The one lookup of a resolve, over the range from [queryString] to
    [getMax queryString], returned an error or no member. *)
Definition lookup_of_failed (queryString : string) : Prop :=
  ∃ queryStringMax,
    getMax queryString = Some queryStringMax ∧
    lookup_failed (ZRangeByLex PathKeyname queryString queryStringMax 0 0).

(** *** The event loop's operations on the rollup data *)

(** One operation of [run] on the rollup data: a reset, an [accumulate]
    or a [flush] that returned. *)
Inductive step (sm : StoreManager) : StoreManager → Prop :=
  | step_reset baseTime :
      step sm (resetRollupData baseTime sm)
  | step_accumulate metric sm' sent :
      accumulate sm metric = Some (sm', sent) →
      step sm sm'
  | step_flush terminating baseTime timerReady res :
      flush terminating baseTime timerReady sm = Some res →
      step sm (fr_sm res).

(** The states between operations of the event loop, which starts with
    [resetRollupData] on the manager [cfg] left by [Init]. *)
Inductive reachable (cfg : StoreManager) : StoreManager → Prop :=
  | reach_start baseTime :
      reachable cfg (resetRollupData baseTime cfg)
  | reach_step sm sm' :
      reachable cfg sm → step sm sm' → reachable cfg sm'.

(** *** Invariants of the rollup data *)

(** The two-level indexing invariant: a path is in the global map exactly
    when a run list holds it, and both hold the same pointer. *)
Definition two_level (sm : StoreManager) : Prop :=
  ∀ (p : string) (a : nat),
    sm_byPath sm !! p = Some a ↔
    ∃ expr rl, sm_byExpr sm !! expr = Some rl ∧ runlist_path rl !! p = Some a.

(** The rollup configuration is usable: the priority list is not empty,
    each of its expressions has a definition, and each one except the
    catchall has a compiled regular expression. *)
Definition config_ok (sm : StoreManager) : Prop :=
  sm_rollupPriority sm ≠ [] ∧
  ∀ e, e ∈ sm_rollupPriority sm →
    ∃ d, sm_rollup sm !! e = Some d ∧
         (e ≠ ROLLUP_CATCHALL → is_Some (Expression d)).

(** There is a run list for exactly the defined expressions, with one
    write time per window. *)
Definition runlists_ok (sm : StoreManager) : Prop :=
  (∀ expr, is_Some (sm_rollup sm !! expr) ↔ is_Some (sm_byExpr sm !! expr)) ∧
  (∀ expr rl, sm_byExpr sm !! expr = Some rl →
     length (runlist_nextWriteTime rl)
     = length (rollup_Windows (sm_rollup sm) expr)).

(** Each path of a run list points to a rollup of that expression, with
    one bucket per window. *)
Definition rollups_ok (sm : StoreManager) : Prop :=
  ∀ expr rl p a,
    sm_byExpr sm !! expr = Some rl → runlist_path rl !! p = Some a →
    ∃ r, sm_heap sm !! a = Some r ∧ rollup_expr r = expr ∧
         length (rollup_count r) = length (runlist_nextWriteTime rl) ∧
         length (rollup_value r) = length (runlist_nextWriteTime rl).

(** No rollup object is shared between two paths. *)
Definition unshared (sm : StoreManager) : Prop :=
  ∀ p1 p2 a,
    sm_byPath sm !! p1 = Some a → sm_byPath sm !! p2 = Some a → p1 = p2.

Definition wf (sm : StoreManager) : Prop :=
  config_ok sm ∧ runlists_ok sm ∧ two_level sm ∧ rollups_ok sm ∧ unshared sm.

(** What the operations keep of a rollup object: its expression and the
    number of its buckets. *)
Definition same_shape (r r' : rollup) : Prop :=
  rollup_expr r' = rollup_expr r ∧
  length (rollup_count r') = length (rollup_count r) ∧
  length (rollup_value r') = length (rollup_value r).

(** Every rollup object is still there, with its shape. *)
Definition heap_evolves (h h' : list rollup) : Prop :=
  ∀ a r, h !! a = Some r → ∃ r', h' !! a = Some r' ∧ same_shape r r'.

(** What [flush] keeps of a run list: its paths and the number of its
    write times. *)
Definition same_paths (rl rl' : runlist) : Prop :=
  runlist_path rl' = runlist_path rl ∧
  length (runlist_nextWriteTime rl') = length (runlist_nextWriteTime rl).

(** The same expressions have run lists, with the same paths. *)
Definition runlists_evolve (b b' : gmap string runlist) : Prop :=
  ∀ expr, option_Forall2 same_paths (b !! expr) (b' !! expr).

(** The manager after the insertion of a new path [p] at the fresh
    pointer, under the expression [expr] whose run list is [rl]. *)
Definition with_new_path (sm : StoreManager) (p expr : string) (rl : runlist)
  (r : rollup) : StoreManager :=
  {| sm_rollupPriority := sm_rollupPriority sm;
     sm_rollup := sm_rollup sm;
     sm_byPath := <[p := length (sm_heap sm)]> (sm_byPath sm);
     sm_byExpr :=
       <[expr := {| runlist_nextWriteTime := runlist_nextWriteTime rl;
                    runlist_path := <[p := length (sm_heap sm)]> (runlist_path rl) |}]>
         (sm_byExpr sm);
     sm_heap := sm_heap sm ++ [r] |}.

(** The bucket of window [i] of the rollup object at [a]: its count and
    its value. *)
Definition bucket (h : list rollup) (a i : nat) : option (Z * float) :=
  r ← h !! a;
  c ← rollup_count r !! i;
  v ← rollup_value r !! i;
  Some (c, v).

(** The time of a row handed to the batch writer. *)
Definition row_time (tr : string * row) : time.Time := tr.2.1.2.

(** What every iteration of [flush] keeps of its loop state. *)
Definition fl_evolves (st st' : flushing) : Prop :=
  runlists_evolve (fl_byExpr st) (fl_byExpr st') ∧
  heap_evolves (fl_heap st) (fl_heap st').

(** The manager as it stands in the middle of a [flush]. *)
Definition sm_during (sm : StoreManager) (st : flushing) : StoreManager :=
  {| sm_rollupPriority := sm_rollupPriority sm; sm_rollup := sm_rollup sm;
     sm_byPath := sm_byPath sm; sm_byExpr := fl_byExpr st;
     sm_heap := fl_heap st |}.

(** The pointers of the global map designate rollup objects. *)
Definition pointers_valid (sm : StoreManager) : Prop :=
  ∀ p a, sm_byPath sm !! p = Some a → is_Some (sm_heap sm !! a).

(** Every window of every definition has a positive width. *)
Definition windows_positive (sm : StoreManager) : Prop :=
  ∀ expr d w, sm_rollup sm !! expr = Some d → w ∈ Windows d → 0 < Window w.

(** A run of the event loop without reset: samples and flushes, with the
    metrics sent on [IndexStore] collected in order. *)
Inductive op :=
  | op_accumulate (metric : CarbonMetric)
  | op_flush (terminating : bool) (baseTime : time.Time) (timerReady : bool).

Definition run_op (sm : StoreManager) (o : op)
  : option (StoreManager * list CarbonMetric) :=
  match o with
  | op_accumulate metric => accumulate sm metric
  | op_flush terminating baseTime timerReady =>
      res ← flush terminating baseTime timerReady sm; Some (fr_sm res, [])
  end.

Fixpoint run_ops (sm : StoreManager) (ops : list op)
  : option (StoreManager * list CarbonMetric) :=
  match ops with
  | [] => Some (sm, [])
  | o :: ops' =>
      r ← run_op sm o;
      r' ← run_ops r.1 ops';
      Some (r'.1, r.2 ++ r'.2)
  end.

(** *** The effect of samples on one bucket, and of the loop's cases *)

(** Lines 270-298 on one bucket [(count[i], value[i])]: the value that the
    method [m] makes of it on a sample of value [x], and the count
    incremented. *)
Definition bucket_after (m : RollupMethod) (x : float) (cv : Z * float)
  : Z * float :=
  (gonum.uint64_add cv.1 1,
   match m with
   | AVERAGE =>
       PrimFloat.div
         (PrimFloat.add (PrimFloat.mul cv.2 (gonum.float64_of_uint64 cv.1)) x)
         (gonum.float64_of_uint64 (gonum.uint64_add cv.1 1))
   | MAX => if PrimFloat.ltb cv.2 x then x else cv.2
   | MIN => if PrimFloat.ltb x cv.2 || (cv.1 =? 0) then x else cv.2
   | SUM => PrimFloat.add cv.2 x
   end).

(** The values of the samples of [ms] that are for the path [p], in the
    order of arrival. *)
Definition samples_of (p : string) (ms : list CarbonMetric) : list float :=
  Value <$> filter (λ metric, Path metric = p) ms.

(** Each known path is filed under the expression that [getExpression]
    yields for it. *)
Definition classified (sm : StoreManager) : Prop :=
  ∀ p a r, sm_byPath sm !! p = Some a → sm_heap sm !! a = Some r →
    getExpression sm p = Some (rollup_expr r).

(** The PEERCHANGE case of [run] (lines 189-193): [sm.flush(true)], then
    [sm.resetRollupData()].  The result is the manager afterwards and the
    batch writer of the flush. *)
Definition peer_change (flushTime : time.Time) (timerReady : bool)
  (resetTime : time.Time) (sm : StoreManager)
  : option (StoreManager * batchWriter) :=
  res ← flush true flushTime timerReady sm;
  Some (resetRollupData resetTime (fr_sm res), fr_bw res).

(** A bucket whose window [flush] finds due: a bucket [i] of a rollup of a
    run list whose closing time [i] passes the test of line 326. *)
Definition due_bucket (terminating : bool) (baseTime : time.Time)
  (sm : StoreManager) (a i : nat) : Prop :=
  ∃ expr rl p windowEnd,
    sm_byExpr sm !! expr = Some rl ∧ runlist_path rl !! p = Some a ∧
    runlist_nextWriteTime rl !! i = Some windowEnd ∧
    window_due terminating baseTime windowEnd = true.

(** *** Vocabulary for the resolver's strings *)

(** The number of occurrences of the byte [c] in [s]. *)
Fixpoint count_byte (c : Ascii.ascii) (s : string) : nat :=
  match s with
  | EmptyString => 0
  | String x s' => (if Ascii.eqb x c then 1 else 0) + count_byte c s'
  end.

(** [q] with each [*] replaced by [.*]. *)
Fixpoint star_to_dotstar (q : string) : string :=
  match q with
  | EmptyString => EmptyString
  | String x q' =>
      if Ascii.eqb x "*" then String "." (String "*" (star_to_dotstar q'))
      else String x (star_to_dotstar q')
  end.

(** *** The specification's words, for comparison with the code *)

(** The folding rule of the specification for one bucket holding value [v]
    and count [c], on a sample of value [x]. *)
Definition spec_fold (m : RollupMethod) (v : float) (c : Z) (x : float) : float :=
  match m with
  | AVERAGE =>
      PrimFloat.div
        (PrimFloat.add (PrimFloat.mul v (gonum.float64_of_uint64 c)) x)
        (gonum.float64_of_uint64 (gonum.uint64_add c 1))
  | MAX => if PrimFloat.ltb v x then x else v
  | MIN => if (c =? 0) || PrimFloat.ltb x v then x else v
  | SUM => PrimFloat.add v x
  end.

(** The delay of the specification: [max(nextFlush - baseTime, 1 ms)]. *)
Definition spec_delay (nextFlush baseTime : time.Time) : time.Duration :=
  Z.max (nextFlush - baseTime) time.Millisecond.

(** The window that the specification selects for a read: the first one,
    in declaration order, whose retention is at least [timeDelta]. *)
Definition spec_window (timeDelta : time.Duration) (ws : list RollupWindow)
  : option RollupWindow :=
  List.find (λ w, timeDelta <=? Retention w) ws.

(** The window that the code selects: the first one whose retention
    exceeds [timeDelta]. *)
Definition first_window (timeDelta : time.Duration) (ws : list RollupWindow)
  : option RollupWindow :=
  List.find (λ w, timeDelta <? Retention w) ws.

(** [step] of a window: its duration in seconds, as an [int]. *)
Definition window_step (w : RollupWindow) : Z :=
  gonum.int_of_float64 (time.Seconds (Window w)).

(** *** Concrete inputs for the examples *)

(** Maps enumerated in the order of [map_to_list]. *)
Definition map_order : ∀ A : Type, gmap string A → list (string * A) :=
  λ A m, map_to_list m.

(** Two rollup definitions: paths under [foo.] keep their maximum in one
    10 s window; all other paths are summed in a 10 s and a 60 s window. *)
Definition catchall : string := "default".

Definition w10s : RollupWindow :=
  {| Window := 10 * time.Second; Retention := 60 * time.Second;
     Table := "rollup_10_60" |}.

Definition w60s : RollupWindow :=
  {| Window := 60 * time.Second; Retention := 3600 * time.Second;
     Table := "rollup_60_3600" |}.

Definition foo_def : RollupDef :=
  {| Method := MAX; Expression := Some (String.prefix "foo.");
     Windows := [w10s] |}.

Definition default_def : RollupDef :=
  {| Method := SUM; Expression := Some (λ _, true); Windows := [w10s; w60s] |}.

Definition rollup_defs : gmap string RollupDef :=
  <["^foo\." := foo_def]> (<["default" := default_def]> ∅).

(** The manager as [Init] leaves it. *)
Definition cfg : StoreManager :=
  {| sm_rollupPriority := ["^foo\."; "default"]; sm_rollup := rollup_defs;
     sm_byPath := ∅; sm_byExpr := ∅; sm_heap := [] |}.

Definition sample (p : string) (v : float) : CarbonMetric :=
  {| Path := p; Value := v; Timestamp := 0%float |}.

(** The manager after the reset at time 0. *)
Definition sm_start : StoreManager := resetRollupData 0 cfg.

(** The manager after the sample [(foo.x, 5)]. *)
Definition sm_1 : StoreManager :=
  {| sm_rollupPriority := ["^foo\."; "default"]; sm_rollup := rollup_defs;
     sm_byPath := {["foo.x" := 0%nat]};
     sm_byExpr :=
       <["^foo\." := {| runlist_nextWriteTime := [10 * time.Second];
                        runlist_path := {["foo.x" := 0%nat]} |}]>
       (<["default" := {| runlist_nextWriteTime :=
                            [10 * time.Second; 60 * time.Second];
                          runlist_path := ∅ |}]> ∅);
     sm_heap := [ {| rollup_expr := "^foo\."; rollup_count := [1];
                     rollup_value := [5%float] |} ] |}.

(** The manager after the samples [(foo.x, 5)], [(bar.x, 5)], [(foo.x, 3)]:
    the maximum 5 for [foo.x], the sum 5 for [bar.x] in each window. *)
Definition sm_3 : StoreManager :=
  {| sm_rollupPriority := ["^foo\."; "default"]; sm_rollup := rollup_defs;
     sm_byPath := <["foo.x" := 0%nat]> {["bar.x" := 1%nat]};
     sm_byExpr :=
       <["^foo\." := {| runlist_nextWriteTime := [10 * time.Second];
                        runlist_path := {["foo.x" := 0%nat]} |}]>
       (<["default" := {| runlist_nextWriteTime :=
                            [10 * time.Second; 60 * time.Second];
                          runlist_path := {["bar.x" := 1%nat]} |}]> ∅);
     sm_heap := [ {| rollup_expr := "^foo\."; rollup_count := [2];
                     rollup_value := [5%float] |};
                  {| rollup_expr := "default"; rollup_count := [1; 1];
                     rollup_value := [5%float; 5%float] |} ] |}.

(** A store in which the path [a] has the stat 1 and the path [b] the stat
    2, whatever the table and the time range. *)
Definition stats_db (s : select) : list float :=
  if String.eqb (sel_path s) "a" then [1%float]
  else if String.eqb (sel_path s) "b" then [2%float]
  else [].

(** A serializer whose text is of no concern in the examples. *)
Definition json_brief (r : MetricResponse) : string :=
  if decide (mr_Series r = ∅) then "{}" else "{...}".

Definition get_query (from to : Z) (paths : list string) : MetricQuery :=
  {| mq_Method := "GET"; mq_From := from; mq_To := to; mq_Query := paths |}.

(** The double quote. *)
Definition dq : string := String (Ascii.ascii_of_nat 34) EmptyString.

(** The text of [json.Marshal] on a list of the resolver's entries whose
    strings need no escaping: [null] for the nil slice, an array of objects
    otherwise. *)
Definition json_entry (m : gopher.MetricResponse) : string :=
  "{" +:+ dq +:+ "path" +:+ dq +:+ ":" +:+ dq +:+ gopher.Path m +:+ dq
  +:+ "," +:+ dq +:+ "depth" +:+ dq +:+ ":" +:+ pretty (gopher.Depth m)
  +:+ "," +:+ dq +:+ "tenant" +:+ dq +:+ ":" +:+ dq +:+ gopher.Tenant m +:+ dq
  +:+ "," +:+ dq +:+ "leaf" +:+ dq +:+ ":"
  +:+ (if gopher.Leaf m then "true" else "false") +:+ "}".

Definition json_paths (l : list gopher.MetricResponse) : string :=
  match l with
  | [] => "null"
  | _ => "[" +:+ gostrings.Join (json_entry <$> l) "," +:+ "]"
  end.

(** The node count as a decimal string. *)
Definition depth_string (l : Z) : string := pretty l.

(** An index that cannot be reached, and an index that holds three
    members, scanned by the prefix of the lower bound. *)
Definition index_down (key lo hi : string) (offset count : Z)
  : list string * option string :=
  ([], Some "dial tcp: connection refused").

Definition index_members : list string :=
  ["5:a.b.c.d.e:true"; "5:a.b.c.d.f:true"; "4:a.b.c.d:false"].

Definition index_up (key lo hi : string) (offset count : Z)
  : list string * option string :=
  (filter (λ m, String.prefix (String.substring 1 (String.length lo) lo) m = true)
     index_members, None).

Definition no_regexp (e : string) : option (string → bool) := None.

(** A stand-in for [regexp.Compile] on the one expression of the examples,
    [a..*.c..*.e], which matches each member of the index above: the [e]
    that ends the expression is found in the leaf flag of every member.  No
    other expression compiles here. *)
Definition regexp_example (e : string) : option (string → bool) :=
  if String.eqb e "a..*.c..*.e" then Some (λ _, true) else None.

(** A manager whose priority list has the catchall first. *)
Definition cfg_catchall_first : StoreManager :=
  {| sm_rollupPriority := ["default"; "^foo\."]; sm_rollup := rollup_defs;
     sm_byPath := ∅; sm_byExpr := ∅; sm_heap := [] |}.

(** The run list of the catchall in [sm_3]. *)
Definition rl_default_3 : runlist :=
  {| runlist_nextWriteTime := [10 * time.Second; 60 * time.Second];
     runlist_path := {["bar.x" := 1%nat]} |}.

(** The rollup of [bar.x] in [sm_3]. *)
Definition rollup_bar_3 : rollup :=
  {| rollup_expr := "default"; rollup_count := [1; 1];
     rollup_value := [5%float; 5%float] |}.

(** ** Properties *)

(** *** Loops that can fail *)

Lemma foldlM_app {S A : Type} (f : S → A → option S) (s : S) (l1 l2 : list A) :
  foldlM f s (l1 ++ l2) = foldlM f s l1 ≫= λ s', foldlM f s' l2.
Proof.
  revert s. induction l1 as [|x l1 IH]; intros s; simpl; [done|].
  destruct (f s x); simpl; [apply IH | done].
Qed.

(** A property that every successful iteration carries over holds when the
    loop is done. *)
Lemma foldlM_invariant {S A : Type} (f : S → A → option S) (P : S → Prop)
  (l : list A) (s s' : S) :
  (∀ s1 x s2, x ∈ l → P s1 → f s1 x = Some s2 → P s2) →
  P s → foldlM f s l = Some s' → P s'.
Proof.
  revert s. induction l as [|x l IH]; intros s Hstep Hs Hrun; simpl in Hrun.
  - by simplify_eq.
  - destruct (f s x) as [s1|] eqn:Hf; [|done].
    apply (IH s1); [|by eapply Hstep; [left| |] |done].
    intros ???? ; apply Hstep. by right.
Qed.

(** A loop whose iterations succeed under an invariant runs to its end. *)
Lemma foldlM_total {S A : Type} (f : S → A → option S) (P : S → Prop)
  (l : list A) (s : S) :
  (∀ s1 x, x ∈ l → P s1 → ∃ s2, f s1 x = Some s2 ∧ P s2) →
  P s → ∃ s', foldlM f s l = Some s' ∧ P s'.
Proof.
  revert s. induction l as [|x l IH]; intros s Hstep Hs; simpl.
  - by exists s.
  - destruct (Hstep s x) as (s1 & -> & Hs1); [by left|done|].
    apply IH; [|done]. intros ????. apply Hstep; [by right|done].
Qed.

(** *** [getExpression] *)

Lemma getExpression_loop_returns defs path prio cur :
  (∀ e, e ∈ prio → e ≠ ROLLUP_CATCHALL → is_Some (rollup_Expression defs e)) →
  ∃ expr, getExpression_loop defs path prio cur = Some expr ∧
          (prio = [] ∧ expr = cur ∨ expr ∈ prio).
Proof.
  revert cur. induction prio as [|e rest IH]; intros cur Hok; simpl.
  - exists cur. by split; [|left].
  - assert (Hrest : ∀ e', e' ∈ rest → e' ≠ ROLLUP_CATCHALL →
                          is_Some (rollup_Expression defs e')).
    { intros e' He'. apply Hok. by right. }
    assert (Htail : ∃ expr, getExpression_loop defs path rest e = Some expr ∧
                            expr ∈ e :: rest).
    { destruct (IH e Hrest) as (expr & Hrun & [[_ ->]|Hin]).
      - exists e. split; [done|by left].
      - exists expr. split; [done|by right]. }
    destruct Htail as (expr & Hrun & Hin).
    destruct (decide (e ≠ ROLLUP_CATCHALL)) as [Hne|_].
    + destruct (Hok e) as [re ->]; [by left|done|].
      destruct (re path).
      * exists e. split; [done|]. right. by left.
      * exists expr. split; [done|by right].
    + exists expr. split; [done|by right].
Qed.

(** Under a usable configuration [getExpression] returns an expression of
    the priority list. *)
Lemma getExpression_returns sm path :
  config_ok sm →
  ∃ expr, getExpression sm path = Some expr ∧ expr ∈ sm_rollupPriority sm.
Proof.
  intros [Hne Hdefs]. unfold getExpression.
  destruct (getExpression_loop_returns (sm_rollup sm) path
              (sm_rollupPriority sm) "") as (expr & Hrun & [[Hnil _]|Hin]).
  - intros e He Hcatch. destruct (Hdefs e He) as (d & Hd & Hre).
    unfold rollup_Expression. rewrite Hd. by apply Hre.
  - done.
  - by exists expr.
Qed.

(** *** The method's loop *)

(** On a known method the code's bucket update is the specification's. *)
Lemma fold_value_spec m x cnt i v c :
  cnt !! i = Some c →
  fold_value (Some m) x cnt i v = Some (spec_fold m v c x).
Proof.
  intros Hc. destruct m; simpl; rewrite ?Hc; simpl; try done.
  destruct (PrimFloat.ltb x v), (c =? 0); done.
Qed.

Lemma fold_values_spec m x cnt vs i :
  (i + length vs ≤ length cnt)%nat →
  ∃ vs', fold_values (Some m) x cnt i vs = Some vs' ∧
         length vs' = length vs ∧
         ∀ k v, vs !! k = Some v →
           ∃ c, cnt !! (i + k)%nat = Some c ∧
                vs' !! k = Some (spec_fold m v c x).
Proof.
  revert i. induction vs as [|v vs IH]; intros i Hlen; simpl in Hlen.
  - exists []. repeat split; [done..|]. intros k v0 Hk. done.
  - destruct (lookup_lt_is_Some_2 cnt i) as [c Hc]; [lia|].
    cbn [fold_values].
    rewrite (fold_value_spec m x cnt i v c Hc). simpl.
    destruct (IH (S i)) as (vs' & -> & Hlen' & Hvs'); [lia|]. simpl.
    eexists. split; [done|]. split; [simpl; lia|].
    intros [|k] v0 Hk; simpl in Hk |- *.
    + simplify_eq. exists c. by rewrite Nat.add_0_r.
    + destruct (Hvs' k v0 Hk) as (c' & Hc' & Hv').
      exists c'. split; [|done]. by replace (i + S k)%nat with (S i + k)%nat by lia.
Qed.

(** On a rollup with as many counts as values [apply_metric] returns, each
    bucket folded by the method and each count incremented. *)
Lemma apply_metric_spec m x r :
  length (rollup_value r) = length (rollup_count r) →
  ∃ r', apply_metric (Some m) x r = Some r' ∧
        rollup_expr r' = rollup_expr r ∧
        length (rollup_count r') = length (rollup_count r) ∧
        length (rollup_value r') = length (rollup_value r) ∧
        ∀ i v c, rollup_value r !! i = Some v → rollup_count r !! i = Some c →
          rollup_value r' !! i = Some (spec_fold m v c x) ∧
          rollup_count r' !! i = Some (gonum.uint64_add c 1).
Proof.
  intros Hlen. unfold apply_metric.
  destruct (fold_values_spec m x (rollup_count r) (rollup_value r) 0)
    as (vs & -> & Hvs_len & Hvs); [simpl; lia|]. simpl.
  eexists. split; [done|]. simpl.
  split; [done|]. split; [by rewrite length_fmap|]. split; [done|].
  intros i v c Hvi Hci. split.
  - destruct (Hvs i v Hvi) as (c' & Hc' & Hv). simpl in Hc'. by simplify_eq.
  - by rewrite list_lookup_fmap, Hci.
Qed.

(** *** Shapes are kept *)

Lemma same_shape_refl r : same_shape r r.
Proof. by repeat split. Qed.

Lemma same_shape_trans r1 r2 r3 :
  same_shape r1 r2 → same_shape r2 r3 → same_shape r1 r3.
Proof. intros (?&?&?) (?&?&?). repeat split; congruence. Qed.

Lemma heap_evolves_refl h : heap_evolves h h.
Proof. intros a r Ha. exists r. split; [done|apply same_shape_refl]. Qed.

Lemma heap_evolves_trans h1 h2 h3 :
  heap_evolves h1 h2 → heap_evolves h2 h3 → heap_evolves h1 h3.
Proof.
  intros H12 H23 a r Ha.
  destruct (H12 a r Ha) as (r2 & Ha2 & Hs2).
  destruct (H23 a r2 Ha2) as (r3 & Ha3 & Hs3).
  exists r3. split; [done|by eapply same_shape_trans].
Qed.

(** Overwriting an object by one of the same shape. *)
Lemma heap_evolves_insert h a r r' :
  h !! a = Some r → same_shape r r' → heap_evolves h (<[a := r']> h).
Proof.
  intros Ha Hs b rb Hb. destruct (decide (a = b)) as [->|Hne].
  - simplify_eq. exists r'. split; [|done].
    apply list_lookup_insert_eq. by eapply lookup_lt_Some.
  - exists rb. split; [|apply same_shape_refl].
    by rewrite list_lookup_insert_ne.
Qed.

Lemma same_paths_refl rl : same_paths rl rl.
Proof. by split. Qed.

Lemma runlists_evolve_refl b : runlists_evolve b b.
Proof.
  intros expr. destruct (b !! expr); constructor. apply same_paths_refl.
Qed.

Lemma runlists_evolve_trans b1 b2 b3 :
  runlists_evolve b1 b2 → runlists_evolve b2 b3 → runlists_evolve b1 b3.
Proof.
  intros H12 H23 expr. specialize (H12 expr). specialize (H23 expr).
  destruct H12 as [rl1 rl2 [Hp Hl]|]; inversion H23 as [? rl3 [Hp' Hl'] |];
    constructor. split; congruence.
Qed.

(** Replacing the write times of a run list, keeping their number. *)
Lemma runlists_evolve_insert b expr rl nwt :
  b !! expr = Some rl →
  length nwt = length (runlist_nextWriteTime rl) →
  runlists_evolve b
    (<[expr := {| runlist_nextWriteTime := nwt;
                  runlist_path := runlist_path rl |}]> b).
Proof.
  intros Hb Hlen e. destruct (decide (expr = e)) as [->|Hne].
  - rewrite lookup_insert_eq, Hb. constructor. by split.
  - rewrite lookup_insert_ne by done. apply runlists_evolve_refl.
Qed.

(** The invariants of the rollup data only depend on the paths of the run
    lists and on the shapes of the rollup objects. *)
Lemma wf_evolves sm b' h' :
  wf sm → runlists_evolve (sm_byExpr sm) b' → heap_evolves (sm_heap sm) h' →
  wf {| sm_rollupPriority := sm_rollupPriority sm; sm_rollup := sm_rollup sm;
        sm_byPath := sm_byPath sm; sm_byExpr := b'; sm_heap := h' |}.
Proof.
  intros (Hcfg & [Hdom Hnwt] & Htwo & Hroll & Hun) Hb Hh.
  split; [done|]. split; [|split; [|split; [|done]]].
  - split; simpl.
    + intros expr. rewrite Hdom. specialize (Hb expr).
      destruct Hb; split; intros [? ?]; by eauto.
    + intros expr rl' Hrl'. specialize (Hb expr). rewrite Hrl' in Hb.
      inversion Hb as [rl ? [_ Hl] Heq|]. simplify_eq.
      rewrite Hl. apply Hnwt. done.
  - intros p a. simpl. rewrite (Htwo p a). split.
    + intros (expr & rl & Hrl & Hp). specialize (Hb expr). rewrite Hrl in Hb.
      inversion Hb as [? rl' [Hpath _] |]. simplify_eq.
      exists expr, rl'. split; [done|]. by rewrite Hpath.
    + intros (expr & rl' & Hrl' & Hp). specialize (Hb expr). rewrite Hrl' in Hb.
      inversion Hb as [rl ? [Hpath _] |]. simplify_eq.
      exists expr, rl. split; [done|]. by rewrite <- Hpath.
  - intros expr rl' p a Hrl' Hp. simpl in Hrl', Hp |- *. specialize (Hb expr).
    rewrite Hrl' in Hb. inversion Hb as [rl ? [Hpath Hl] Heq|]. simplify_eq.
    rewrite Hpath in Hp.
    destruct (Hroll expr rl p a) as (r & Hr & Hexpr & Hc & Hv); [done..|].
    destruct (Hh a r Hr) as (r' & Hr' & Hexpr' & Hc' & Hv').
    exists r'. rewrite Hl. repeat split; congruence.
Qed.

(** *** [resetRollupData] and [accumulate] keep the invariants *)

(** After a reset both views are empty. *)
Lemma two_level_resetRollupData baseTime sm :
  two_level (resetRollupData baseTime sm).
Proof.
  intros p a. simpl. rewrite lookup_empty. split; [done|].
  intros (expr & rl & Hrl & Hp). rewrite lookup_fmap in Hrl.
  destruct (sm_rollup sm !! expr); simpl in Hrl; [|done].
  injection Hrl as <-. simpl in Hp. by rewrite lookup_empty in Hp.
Qed.

Lemma wf_resetRollupData baseTime sm :
  config_ok sm → wf (resetRollupData baseTime sm).
Proof.
  intros Hcfg. split; [done|]. split; [|split; [|split]].
  - split; simpl.
    + intros expr. rewrite lookup_fmap. by rewrite fmap_is_Some.
    + intros expr rl. rewrite lookup_fmap. unfold rollup_Windows.
      destruct (sm_rollup sm !! expr) as [d|]; simpl; [|done].
      intros [= <-]. simpl. by rewrite length_fmap.
  - apply two_level_resetRollupData.
  - intros expr rl p a Hrl Hp. simpl in Hrl, Hp |- *. rewrite lookup_fmap in Hrl.
    destruct (sm_rollup sm !! expr); simpl in Hrl; [|done].
    injection Hrl as <-. simpl in Hp. by rewrite lookup_empty in Hp.
  - intros p1 p2 a Hp1. simpl in Hp1 |- *. by rewrite lookup_empty in Hp1.
Qed.

(** The rollup of a known path: it is in the store, its expression is
    defined, and it has as many counts as values. *)
Lemma wf_known_rollup sm p a :
  wf sm → sm_byPath sm !! p = Some a →
  ∃ r d, sm_heap sm !! a = Some r ∧
         sm_rollup sm !! rollup_expr r = Some d ∧
         length (rollup_value r) = length (rollup_count r).
Proof.
  intros (_ & [Hdom _] & Htwo & Hroll & _) Hp.
  apply Htwo in Hp as (expr & rl & Hrl & Hp).
  destruct (Hroll expr rl p a Hrl Hp) as (r & Hr & Hexpr & Hc & Hv).
  destruct (proj2 (Hdom expr)) as [d Hd]; [by eexists|].
  exists r, d. rewrite Hexpr. repeat split; [done..|congruence].
Qed.

Lemma new_rollup_lengths defs expr :
  length (rollup_value (new_rollup defs expr))
  = length (rollup_count (new_rollup defs expr)).
Proof. simpl. by rewrite !length_replicate. Qed.

(** [accumulate] on a path that is already in the global map. *)
Lemma accumulate_known sm metric a :
  wf sm → sm_byPath sm !! Path metric = Some a →
  ∃ r d r',
    sm_heap sm !! a = Some r ∧
    sm_rollup sm !! rollup_expr r = Some d ∧
    apply_metric (Some (Method d)) (Value metric) r = Some r' ∧
    accumulate sm metric
    = Some ({| sm_rollupPriority := sm_rollupPriority sm;
               sm_rollup := sm_rollup sm; sm_byPath := sm_byPath sm;
               sm_byExpr := sm_byExpr sm;
               sm_heap := <[a := r']> (sm_heap sm) |}, []).
Proof.
  intros Hwf Hp.
  destruct (wf_known_rollup sm (Path metric) a Hwf Hp) as (r & d & Hr & Hd & Hlen).
  destruct (apply_metric_spec (Method d) (Value metric) r Hlen) as (r' & Hr' & _).
  exists r, d, r'. repeat split; [done..|].
  unfold accumulate, locate. rewrite Hp. simpl. rewrite Hr. simpl.
  unfold rollup_Method. rewrite Hd, Hr'. done.
Qed.

(** [accumulate] on a path that is not in the global map. *)
Lemma accumulate_new sm metric :
  wf sm → sm_byPath sm !! Path metric = None →
  ∃ expr rl d r',
    getExpression sm (Path metric) = Some expr ∧
    sm_byExpr sm !! expr = Some rl ∧
    sm_rollup sm !! expr = Some d ∧
    apply_metric (Some (Method d)) (Value metric) (new_rollup (sm_rollup sm) expr)
    = Some r' ∧
    accumulate sm metric
    = Some (with_new_path sm (Path metric) expr rl r', [metric]).
Proof.
  intros (Hcfg & [Hdom _] & _) Hp.
  destruct (getExpression_returns sm (Path metric) Hcfg) as (expr & Hexpr & Hin).
  destruct Hcfg as [_ Hdefs]. destruct (Hdefs expr Hin) as (d & Hd & _).
  destruct (proj1 (Hdom expr)) as [rl Hrl]; [by eexists|].
  destruct (apply_metric_spec (Method d) (Value metric)
              (new_rollup (sm_rollup sm) expr)) as (r' & Hr' & _).
  { apply new_rollup_lengths. }
  exists expr, rl, d, r'. repeat split; [done..|].
  unfold accumulate, locate. rewrite Hp, Hexpr. simpl. rewrite Hrl. simpl.
  rewrite lookup_app_r by done. rewrite Nat.sub_diag. simpl.
  unfold rollup_Method. simpl. rewrite Hd, Hr'. simpl.
  unfold with_new_path. do 2 f_equal.
  rewrite insert_app_r_alt by done. by rewrite Nat.sub_diag.
Qed.

(** Entering a new path into both maps keeps the two views in step. *)
Lemma two_level_with_new_path sm p expr rl r :
  two_level sm → sm_byPath sm !! p = None → sm_byExpr sm !! expr = Some rl →
  two_level (with_new_path sm p expr rl r).
Proof.
  intros Htwo Hp Hrl q a. simpl. destruct (decide (p = q)) as [<-|Hne].
  - rewrite lookup_insert_eq. split.
    + intros [= <-]. eexists expr, _. rewrite lookup_insert_eq.
      split; [done|]. simpl. by rewrite lookup_insert_eq.
    + intros (e & rl' & Hrl' & Hq). destruct (decide (expr = e)) as [<-|Hne].
      * rewrite lookup_insert_eq in Hrl'. injection Hrl' as <-.
        simpl in Hq. by rewrite lookup_insert_eq in Hq.
      * rewrite lookup_insert_ne in Hrl' by done.
        assert (sm_byPath sm !! p = Some a) as Hpa by (apply Htwo; eauto).
        congruence.
  - rewrite lookup_insert_ne by done. rewrite (Htwo q a). split.
    + intros (e & rl' & Hrl' & Hq). destruct (decide (expr = e)) as [<-|Hne'].
      * eexists expr, _. rewrite lookup_insert_eq. split; [done|]. simpl.
        rewrite lookup_insert_ne by done. congruence.
      * exists e, rl'. by rewrite lookup_insert_ne.
    + intros (e & rl' & Hrl' & Hq). destruct (decide (expr = e)) as [<-|Hne'].
      * rewrite lookup_insert_eq in Hrl'. injection Hrl' as <-. simpl in Hq.
        rewrite lookup_insert_ne in Hq by done. by exists expr, rl.
      * rewrite lookup_insert_ne in Hrl' by done. by exists e, rl'.
Qed.

(** A pointer held by the global map is below the end of the store. *)
Lemma wf_pointer_valid sm p a :
  wf sm → sm_byPath sm !! p = Some a → (a < length (sm_heap sm))%nat.
Proof.
  intros Hwf Hp. destruct (wf_known_rollup sm p a Hwf Hp) as (r & _ & Hr & _).
  by eapply lookup_lt_Some.
Qed.

(** Entering a new path, with a rollup shaped for its expression, keeps
    the invariants. *)
Lemma wf_with_new_path sm p expr rl r :
  wf sm → sm_byPath sm !! p = None → sm_byExpr sm !! expr = Some rl →
  rollup_expr r = expr →
  length (rollup_count r) = length (runlist_nextWriteTime rl) →
  length (rollup_value r) = length (runlist_nextWriteTime rl) →
  wf (with_new_path sm p expr rl r).
Proof.
  intros Hwf Hp Hrl Hexpr Hc Hv.
  pose proof (wf_pointer_valid sm) as Hvalid. specialize (Hvalid).
  destruct Hwf as (Hcfg & [Hdom Hnwt] & Htwo & Hroll & Hun).
  assert (Hwf : wf sm) by done.
  split; [done|]. split; [|split; [|split]].
  - split; simpl.
    + intros e. rewrite Hdom. destruct (decide (expr = e)) as [->|Hne].
      * rewrite lookup_insert_eq, Hrl. split; by eauto.
      * by rewrite lookup_insert_ne.
    + intros e rl'. destruct (decide (expr = e)) as [->|Hne].
      * rewrite lookup_insert_eq. intros [= <-]. simpl. by apply Hnwt.
      * rewrite lookup_insert_ne by done. apply Hnwt.
  - by apply two_level_with_new_path.
  - intros e rl' q a Hrl' Hq. simpl in Hrl', Hq |- *.
    assert (Hold : ∀ e0 rl0, sm_byExpr sm !! e0 = Some rl0 →
              runlist_path rl0 !! q = Some a →
              ∃ r0, (sm_heap sm ++ [r]) !! a = Some r0 ∧ rollup_expr r0 = e0 ∧
                    length (rollup_count r0) = length (runlist_nextWriteTime rl0) ∧
                    length (rollup_value r0) = length (runlist_nextWriteTime rl0)).
    { intros e0 rl0 Hrl0 Hq0.
      destruct (Hroll e0 rl0 q a Hrl0 Hq0) as (r0 & Hr0 & ?).
      exists r0. split; [|done]. rewrite lookup_app_l; [done|].
      by eapply lookup_lt_Some. }
    destruct (decide (expr = e)) as [->|Hne].
    + rewrite lookup_insert_eq in Hrl'. injection Hrl' as <-. simpl in Hq |- *.
      destruct (decide (p = q)) as [->|Hne].
      * rewrite lookup_insert_eq in Hq. injection Hq as <-.
        exists r. split; [|done].
        rewrite lookup_app_r by done. by rewrite Nat.sub_diag.
      * rewrite lookup_insert_ne in Hq by done. by apply Hold.
    + rewrite lookup_insert_ne in Hrl' by done. by apply Hold.
  - intros p1 p2 a. simpl.
    destruct (decide (p = p1)) as [<-|Hne1], (decide (p = p2)) as [<-|Hne2];
      rewrite ?lookup_insert_eq, ?lookup_insert_ne by done; [done|..].
    + intros [= <-] Hp2. apply Hvalid in Hp2; [lia|done].
    + intros Hp1 [= <-]. apply Hvalid in Hp1; [lia|done].
    + apply Hun.
Qed.

(** [accumulate] keeps the invariants of the rollup data. *)
Lemma accumulate_wf sm metric sm' sent :
  wf sm → accumulate sm metric = Some (sm', sent) → wf sm'.
Proof.
  intros Hwf Hacc.
  destruct (sm_byPath sm !! Path metric) as [a|] eqn:Hp.
  - destruct (accumulate_known sm metric a Hwf Hp)
      as (r & d & r' & Hr & Hd & Hr' & Heq).
    rewrite Heq in Hacc. injection Hacc as <- <-.
    apply wf_evolves; [done|apply runlists_evolve_refl|].
    destruct (wf_known_rollup sm _ a Hwf Hp) as (r0 & _ & Hr0 & _ & Hlen).
    assert (r0 = r) as -> by congruence.
    destruct (apply_metric_spec (Method d) (Value metric) r Hlen)
      as (r1 & Hr1 & He & Hc & Hv & _).
    assert (r1 = r') as -> by congruence.
    by apply (heap_evolves_insert _ _ r).
  - destruct (accumulate_new sm metric Hwf Hp)
      as (expr & rl & d & r' & Hexpr & Hrl & Hd & Hr' & Heq).
    rewrite Heq in Hacc. injection Hacc as <- <-.
    destruct (apply_metric_spec (Method d) (Value metric)
                (new_rollup (sm_rollup sm) expr) (new_rollup_lengths _ _))
      as (r1 & Hr1 & He & Hc & Hv & _).
    assert (r1 = r') as -> by congruence.
    assert (length (runlist_nextWriteTime rl)
            = length (rollup_Windows (sm_rollup sm) expr)) as Hn.
    { destruct Hwf as (_ & [_ Hnwt] & _). by apply Hnwt. }
    apply wf_with_new_path; [done..| |].
    + rewrite Hc. simpl. by rewrite length_replicate.
    + rewrite Hv. simpl. by rewrite length_replicate.
Qed.

(** *** The batch writer *)

Lemma tagged_nil t : tagged (t, []) = [].
Proof. done. Qed.

Lemma all_rows_Write bw : all_rows (Write bw) = all_rows bw.
Proof.
  unfold all_rows, written_rows, Write. simpl.
  rewrite fmap_app, concat_app. simpl.
  by rewrite tagged_nil, !app_nil_r.
Qed.

Lemma bw_batch_Write bw : bw_batch (Write bw) = [].
Proof. done. Qed.

Lemma Size_0 bw : (0 <? Size bw) = false → bw_batch bw = [].
Proof.
  unfold Size. intros H%Z.ltb_ge. destruct (bw_batch bw); [done|simpl in H; lia].
Qed.

Lemma all_rows_Prepare t bw : all_rows (Prepare t bw) = all_rows bw.
Proof.
  unfold Prepare. destruct (0 <? Size bw) eqn:Hsz.
  - rewrite <- (all_rows_Write bw). unfold all_rows, written_rows. simpl.
    by rewrite !tagged_nil.
  - apply Size_0 in Hsz. unfold all_rows, written_rows. simpl.
    by rewrite Hsz, !tagged_nil.
Qed.

Lemma bw_table_Prepare t bw : bw_table (Prepare t bw) = t.
Proof. done. Qed.

Lemma bw_batch_Prepare t bw : bw_batch bw = [] → bw_batch (Prepare t bw) = [].
Proof. intros H. unfold Prepare. by destruct (0 <? Size bw). Qed.

Lemma all_rows_Append p t v bw :
  all_rows (Append p t v bw) = all_rows bw ++ [(bw_table bw, (p, t, v))].
Proof.
  unfold Append. set (bw' := Build_batchWriter _ _ _ _ _).
  assert (all_rows bw' = all_rows bw ++ [(bw_table bw, (p, t, v))]) as Hbw'.
  { unfold all_rows, written_rows, tagged. simpl.
    by rewrite fmap_app, app_assoc. }
  destruct (bw_batchSize bw' <=? Size bw'); [|done].
  by rewrite all_rows_Write.
Qed.

Lemma bw_table_Append p t v bw : bw_table (Append p t v bw) = bw_table bw.
Proof. unfold Append. by case_match. Qed.

(** The final write of a window leaves no row pending. *)
Lemma residual_written bw :
  all_rows (if 0 <? Size bw then Write bw else bw) = all_rows bw ∧
  bw_batch (if 0 <? Size bw then Write bw else bw) = [].
Proof.
  destruct (0 <? Size bw) eqn:Hsz.
  - split; [apply all_rows_Write|done].
  - split; [done|by apply Size_0].
Qed.

(** With no row pending, the rows handed over are the rows written. *)
Lemma written_all bw : bw_batch bw = [] → written_rows bw = all_rows bw.
Proof. intros H. unfold all_rows. by rewrite H, tagged_nil, app_nil_r. Qed.

(** *** One path of a window being processed *)

Lemma bucket_Some h a i c v :
  bucket h a i = Some (c, v) ↔
  ∃ r, h !! a = Some r ∧ rollup_count r !! i = Some c ∧ rollup_value r !! i = Some v.
Proof.
  unfold bucket. split.
  - destruct (h !! a) as [r|]; simpl; [|done].
    destruct (rollup_count r !! i) as [c'|] eqn:Hc; simpl; [|done].
    destruct (rollup_value r !! i) as [v'|] eqn:Hv; simpl; [|done].
    intros [= <- <-]. by exists r.
  - intros (r & -> & Hc & Hv). simpl. rewrite Hc. simpl. by rewrite Hv.
Qed.

(** A rollup object with a bucket for window [i] has that bucket. *)
Lemma bucket_is_Some h a r i :
  h !! a = Some r →
  (i < length (rollup_count r))%nat → (i < length (rollup_value r))%nat →
  ∃ c v, bucket h a i = Some (c, v).
Proof.
  intros Hr Hc Hv.
  destruct (lookup_lt_is_Some_2 _ _ Hc) as [c Hc'].
  destruct (lookup_lt_is_Some_2 _ _ Hv) as [v Hv'].
  exists c, v. apply bucket_Some. by exists r.
Qed.

(** [flush_path] succeeds exactly on a rollup that has the bucket; it
    empties the bucket and appends its row if data has accumulated. *)
Lemma flush_path_Some i statTime h bw p a c v :
  bucket h a i = Some (c, v) →
  ∃ r, h !! a = Some r ∧
    flush_path i statTime (h, bw) (p, a)
    = Some (<[a := clear_bucket i r]> h,
            if 0 <? c then Append p statTime v bw else bw).
Proof.
  intros (r & Hr & Hc & Hv)%bucket_Some. exists r. split; [done|].
  unfold flush_path. simpl. rewrite Hr. simpl. rewrite Hc. simpl.
  by rewrite Hv.
Qed.

Lemma flush_path_inv i statTime h bw p a h' bw' :
  flush_path i statTime (h, bw) (p, a) = Some (h', bw') →
  ∃ r c v, h !! a = Some r ∧ bucket h a i = Some (c, v) ∧
    h' = <[a := clear_bucket i r]> h ∧
    bw' = if 0 <? c then Append p statTime v bw else bw.
Proof.
  unfold flush_path. simpl. intros H.
  destruct (h !! a) as [r|] eqn:Hr; simpl in H; [|done].
  destruct (rollup_count r !! i) as [c|] eqn:Hc; simpl in H; [|done].
  destruct (rollup_value r !! i) as [v|] eqn:Hv; simpl in H; [|done].
  injection H as <- <-. exists r, c, v. split_and!; try done.
  apply bucket_Some. by exists r.
Qed.

Lemma same_shape_clear_bucket i r : same_shape r (clear_bucket i r).
Proof. unfold same_shape. simpl. by rewrite !length_insert. Qed.

(** The bucket that was emptied is empty. *)
Lemma bucket_cleared h a r i c v :
  h !! a = Some r → bucket h a i = Some (c, v) →
  bucket (<[a := clear_bucket i r]> h) a i = Some (0, 0%float).
Proof.
  intros Hr (r' & Hr' & Hc & Hv)%bucket_Some. apply bucket_Some.
  assert (r' = r) as -> by congruence.
  exists (clear_bucket i r). split.
  - apply list_lookup_insert_eq. by eapply lookup_lt_Some.
  - simpl. split; apply list_lookup_insert_eq; by eapply lookup_lt_Some.
Qed.

(** The other buckets are as they were. *)
Lemma bucket_frame h a r i b j :
  h !! a = Some r → ¬ (b = a ∧ j = i) →
  bucket (<[a := clear_bucket i r]> h) b j = bucket h b j.
Proof.
  intros Hr Hne. unfold bucket. destruct (decide (b = a)) as [->|Hb].
  - rewrite list_lookup_insert_eq by (by eapply lookup_lt_Some).
    rewrite Hr. simpl. assert (i ≠ j) as Hij by (intros ->; by apply Hne).
    by rewrite !list_lookup_insert_ne.
  - by rewrite list_lookup_insert_ne.
Qed.

(** *** The paths of a window being processed *)

(** The loop over the paths of a run list, at window [i], started on a
    store where each of these paths has the bucket: it runs to its end,
    empties exactly the buckets [i] of the listed rollups, and hands to the
    batch writer, for the table in use and the time [statTime], the rows of
    the buckets that hold data. *)
Lemma flush_paths_spec i statTime (L : list (string * nat)) :
  ∀ h bw,
  (∀ p a, (p, a) ∈ L → is_Some (bucket h a i)) →
  ∃ h' bw',
    foldlM (flush_path i statTime) (h, bw) L = Some (h', bw') ∧
    heap_evolves h h' ∧
    bw_table bw' = bw_table bw ∧
    (∀ b j, ¬ (b ∈ L.*2 ∧ j = i) → bucket h' b j = bucket h b j) ∧
    (∀ b, b ∈ L.*2 → bucket h' b i = Some (0, 0%float)) ∧
    all_rows bw ⊆ all_rows bw' ∧
    (∀ tr, tr ∈ all_rows bw' →
       tr ∈ all_rows bw ∨ (tr.1 = bw_table bw ∧ row_time tr = statTime)) ∧
    (NoDup L.*2 → ∀ p a c v,
       (p, a) ∈ L → bucket h a i = Some (c, v) → 0 < c →
       (bw_table bw, (p, statTime, v)) ∈ all_rows bw').
Proof.
  induction L as [|[p0 a0] L IH]; intros h bw Hb.
  - exists h, bw. split_and!; try done.
    + apply heap_evolves_refl.
    + intros b Hin. by apply elem_of_nil in Hin.
    + intros tr Htr. by left.
    + intros _ p a c v Hin. by apply elem_of_nil in Hin.
  - destruct (Hb p0 a0) as [[c0 v0] Hb0]; [by left|].
    destruct (flush_path_Some i statTime h bw p0 a0 c0 v0 Hb0) as (r0 & Hr0 & Hstep).
    set (h1 := <[a0 := clear_bucket i r0]> h) in Hstep |- *.
    set (bw1 := if 0 <? c0 then Append p0 statTime v0 bw else bw) in Hstep |- *.
    assert (Htab1 : bw_table bw1 = bw_table bw).
    { unfold bw1. destruct (0 <? c0); [apply bw_table_Append|done]. }
    assert (Hsub1 : all_rows bw ⊆ all_rows bw1).
    { unfold bw1. destruct (0 <? c0); [|done].
      rewrite all_rows_Append. intros tr Htr. apply elem_of_app. by left. }
    assert (Hframe1 : ∀ b j, ¬ (b = a0 ∧ j = i) → bucket h1 b j = bucket h b j).
    { intros b j Hne. by apply bucket_frame. }
    assert (Hclear1 : bucket h1 a0 i = Some (0, 0%float)).
    { by eapply bucket_cleared. }
    destruct (IH h1 bw1) as (h' & bw' & Hrun & Hev & Htab & Hframe & Hclear
                              & Hsub & Horig & Hemit).
    { intros p a Hin. destruct (decide (a = a0)) as [->|Hne].
      - rewrite Hclear1. by eexists.
      - rewrite Hframe1 by (by intros [? _]). apply (Hb p a). by right. }
    exists h', bw'. split_and!.
    + simpl. by rewrite Hstep.
    + eapply heap_evolves_trans; [|done].
      by apply (heap_evolves_insert _ _ r0), same_shape_clear_bucket.
    + congruence.
    + intros b j Hne. rewrite fmap_cons in Hne. simpl in Hne.
      rewrite Hframe, Hframe1; [done|..].
      * intros [-> ->]. apply Hne. split; [by left|done].
      * intros [Hin ->]. apply Hne. split; [by right|done].
    + intros b Hin. rewrite fmap_cons in Hin. simpl in Hin.
      destruct (decide (b ∈ L.*2)) as [HinL|HninL]; [by apply Hclear|].
      apply elem_of_cons in Hin as [->|?]; [|done].
      rewrite Hframe by (by intros [? _]). done.
    + by etrans.
    + intros tr Htr. destruct (Horig tr Htr) as [Hin1|[Ht Htime]].
      * unfold bw1 in Hin1. destruct (0 <? c0); [|by left].
        rewrite all_rows_Append in Hin1.
        apply elem_of_app in Hin1 as [?|Heq%list_elem_of_singleton]; [by left|].
        right. by subst tr.
      * right. split; [congruence|done].
    + intros Hnd p a c v Hin Hbk Hc. rewrite fmap_cons in Hnd. simpl in Hnd.
      apply NoDup_cons in Hnd as [Hnin Hnd].
      apply elem_of_cons in Hin as [[= -> ->]|Hin].
      * apply Hsub. unfold bw1.
        assert (c0 = c ∧ v0 = v) as [-> ->] by (split; congruence).
        assert ((0 <? c) = true) as -> by by apply Z.ltb_lt.
        rewrite all_rows_Append. apply elem_of_app. right. by left.
      * assert (a ≠ a0).
        { intros ->. apply Hnin. apply list_elem_of_fmap. by exists (p, a0). }
        rewrite <- Htab1. apply (Hemit Hnd p a c v); [done| |done].
        rewrite Hframe1; [done|]. by intros [? _].
Qed.

(** *** Enumerating a map *)

Lemma range_order_elem {A : Type} (m : gmap string A) k x :
  (k, x) ∈ range_order A m ↔ m !! k = Some x.
Proof. rewrite (range_order_perm A m). apply elem_of_map_to_list. Qed.

Lemma range_order_NoDup {A : Type} (m : gmap string A) :
  NoDup (range_order A m).
Proof. rewrite (range_order_perm A m). apply NoDup_map_to_list. Qed.

Lemma range_order_NoDup_fst {A : Type} (m : gmap string A) :
  NoDup (range_order A m).*1.
Proof. rewrite (range_order_perm A m). apply NoDup_fst_map_to_list. Qed.

(** The values of an injective map are enumerated without repetition. *)
Lemma range_order_NoDup_snd {A : Type} (m : gmap string A) :
  (∀ k1 k2 x, m !! k1 = Some x → m !! k2 = Some x → k1 = k2) →
  NoDup (range_order A m).*2.
Proof.
  intros Hinj. apply NoDup_fmap_2_strong; [|apply range_order_NoDup].
  intros [k1 x1] [k2 x2] H1%range_order_elem H2%range_order_elem Heq.
  simpl in Heq. subst x2. f_equal. by eapply Hinj.
Qed.

Lemma range_order_snd_elem {A : Type} (m : gmap string A) x :
  x ∈ (range_order A m).*2 ↔ ∃ k, m !! k = Some x.
Proof.
  rewrite list_elem_of_fmap. split.
  - intros ([k y] & -> & Hin%range_order_elem). by exists k.
  - intros (k & Hk). exists (k, x). split; [done|]. by apply range_order_elem.
Qed.

(** *** The rollup data in the middle of a [flush] *)

Lemma fl_evolves_refl st : fl_evolves st st.
Proof. split; [apply runlists_evolve_refl|apply heap_evolves_refl]. Qed.

Lemma fl_evolves_trans st1 st2 st3 :
  fl_evolves st1 st2 → fl_evolves st2 st3 → fl_evolves st1 st3.
Proof.
  intros [? ?] [? ?].
  split; [by eapply runlists_evolve_trans|by eapply heap_evolves_trans].
Qed.

Lemma wf_during baseTime sm st :
  wf sm → fl_evolves (flush_init baseTime sm) st → wf (sm_during sm st).
Proof. intros Hwf [Hb Hh]. by apply wf_evolves. Qed.

(** The paths of a run list point to distinct rollup objects. *)
Lemma wf_runlist_injective sm expr rl p1 p2 a :
  wf sm → sm_byExpr sm !! expr = Some rl →
  runlist_path rl !! p1 = Some a → runlist_path rl !! p2 = Some a → p1 = p2.
Proof.
  intros (_ & _ & Htwo & _ & Hun) Hrl Hp1 Hp2.
  apply (Hun p1 p2 a); apply Htwo; by exists expr, rl.
Qed.

(** A rollup object belongs to one expression and one path. *)
Lemma wf_owner sm e1 rl1 p1 e2 rl2 p2 a :
  wf sm →
  sm_byExpr sm !! e1 = Some rl1 → runlist_path rl1 !! p1 = Some a →
  sm_byExpr sm !! e2 = Some rl2 → runlist_path rl2 !! p2 = Some a →
  e1 = e2 ∧ p1 = p2.
Proof.
  intros (_ & _ & Htwo & Hroll & Hun) Hrl1 Hp1 Hrl2 Hp2.
  destruct (Hroll e1 rl1 p1 a Hrl1 Hp1) as (r1 & Hr1 & He1 & _).
  destruct (Hroll e2 rl2 p2 a Hrl2 Hp2) as (r2 & Hr2 & He2 & _).
  split; [congruence|].
  apply (Hun p1 p2 a); apply Htwo; eauto.
Qed.

Lemma lower_nextFlush_byExpr t st : fl_byExpr (lower_nextFlush t st) = fl_byExpr st.
Proof. unfold lower_nextFlush. by case_match. Qed.

Lemma lower_nextFlush_heap t st : fl_heap (lower_nextFlush t st) = fl_heap st.
Proof. unfold lower_nextFlush. by case_match. Qed.

Lemma lower_nextFlush_bw t st : fl_bw (lower_nextFlush t st) = fl_bw st.
Proof. unfold lower_nextFlush. by case_match. Qed.

(** [nextFlush] becomes the earlier of itself and [t]. *)
Lemma lower_nextFlush_min t st :
  fl_nextFlush (lower_nextFlush t st) = Z.min (fl_nextFlush st) t.
Proof.
  unfold lower_nextFlush, time.After.
  destruct (t <? fl_nextFlush st) eqn:Hlt; simpl.
  - apply Z.ltb_lt in Hlt. lia.
  - apply Z.ltb_ge in Hlt. lia.
Qed.

(** *** One window *)

(** What [flush] does at window [i] of the run list [rl] of [expr], whose
    closing time is [windowEnd].  The iteration returns; it keeps the shape
    of the data, leaves no row pending and only empties buckets.  If the
    window is due, it empties bucket [i] of every path of the run list,
    hands the rows of those that hold data to the batch writer, for the
    window's table, and moves the closing time to the next boundary after
    [baseTime]; if not, it changes nothing but [nextFlush]. *)
Lemma flush_window_spec terminating baseTime sm st expr rl i windowEnd :
  wf (sm_during sm st) →
  fl_byExpr st !! expr = Some rl →
  runlist_nextWriteTime rl !! i = Some windowEnd →
  bw_batch (fl_bw st) = [] →
  ∃ st' w,
    flush_window terminating baseTime (sm_rollup sm) expr st i = Some st' ∧
    rollup_Windows (sm_rollup sm) expr !! i = Some w ∧
    fl_evolves st st' ∧
    bw_batch (fl_bw st') = [] ∧
    all_rows (fl_bw st) ⊆ all_rows (fl_bw st') ∧
    (∀ b j, ¬ (j = i ∧ ∃ p, runlist_path rl !! p = Some b) →
       bucket (fl_heap st') b j = bucket (fl_heap st) b j) ∧
    (∀ b j, bucket (fl_heap st') b j = bucket (fl_heap st) b j ∨
            bucket (fl_heap st') b j = Some (0, 0%float)) ∧
    (∀ tr, tr ∈ all_rows (fl_bw st') →
       tr ∈ all_rows (fl_bw st) ∨
       row_time tr = window_statTime terminating baseTime windowEnd) ∧
    (∀ e, e ≠ expr → fl_byExpr st' !! e = fl_byExpr st !! e) ∧
    if window_due terminating baseTime windowEnd then
      fl_byExpr st' !! expr
      = Some {| runlist_nextWriteTime :=
                  <[i := nextTimeBoundary baseTime (Window w)]>
                    (runlist_nextWriteTime rl);
                runlist_path := runlist_path rl |} ∧
      fl_nextFlush st'
      = Z.min (fl_nextFlush st) (nextTimeBoundary baseTime (Window w)) ∧
      (∀ p b, runlist_path rl !! p = Some b →
         bucket (fl_heap st') b i = Some (0, 0%float)) ∧
      (∀ p b c v, runlist_path rl !! p = Some b →
         bucket (fl_heap st) b i = Some (c, v) → 0 < c →
         (Table w, (p, window_statTime terminating baseTime windowEnd, v))
         ∈ all_rows (fl_bw st'))
    else
      fl_byExpr st' = fl_byExpr st ∧ fl_heap st' = fl_heap st ∧
      fl_bw st' = fl_bw st ∧
      fl_nextFlush st' = Z.min (fl_nextFlush st) windowEnd.
Proof.
  intros Hwf Hrl Hwe Hbatch.
  assert (Hi : (i < length (runlist_nextWriteTime rl))%nat)
    by (by eapply lookup_lt_Some).
  assert (Hinj : ∀ p1 p2 a, runlist_path rl !! p1 = Some a →
                            runlist_path rl !! p2 = Some a → p1 = p2).
  { intros p1 p2 a. by apply (wf_runlist_injective (sm_during sm st) expr rl). }
  destruct Hwf as (_ & [_ Hnwt] & _ & Hroll & _).
  simpl in Hnwt, Hroll.
  destruct (lookup_lt_is_Some_2 (rollup_Windows (sm_rollup sm) expr) i)
    as [w Hw]; [by rewrite <- (Hnwt expr rl Hrl)|].
  set (L := range_order nat (runlist_path rl)).
  assert (HL : ∀ p a, (p, a) ∈ L → is_Some (bucket (fl_heap st) a i)).
  { intros p a Hin%range_order_elem.
    destruct (Hroll expr rl p a Hrl Hin) as (r & Hr & _ & Hc & Hv).
    destruct (bucket_is_Some (fl_heap st) a r i Hr) as (c & v & Hb);
      [lia..|]. by eexists. }
  unfold flush_window. rewrite Hrl. simpl. rewrite Hwe. simpl.
  destruct (window_due terminating baseTime windowEnd) eqn:Hdue.
  - rewrite Hw. simpl.
    set (statTime := window_statTime terminating baseTime windowEnd).
    destruct (flush_paths_spec i statTime L (fl_heap st)
                (Prepare (Table w) (fl_bw st)) HL)
      as (h' & bw' & Hrun & Hev & Htab & Hframe & Hclear & Hsub & Horig & Hemit).
    fold L. rewrite Hrun. simpl. rewrite lookup_insert_eq. simpl.
    rewrite list_lookup_insert_eq by done. simpl.
    rewrite all_rows_Prepare in Hsub, Horig. rewrite bw_table_Prepare in Htab.
    destruct (residual_written bw') as [Hres_rows Hres_batch].
    eexists _, w. split; [reflexivity|]. split; [done|]. unfold fl_evolves.
    rewrite lower_nextFlush_byExpr, lower_nextFlush_heap, lower_nextFlush_bw,
      lower_nextFlush_min. simpl.
    rewrite Hres_rows.
    split_and!; try done.
    + apply runlists_evolve_insert; [done|]. by rewrite length_insert.
    + intros b j Hne. apply Hframe. intros [Hin ->]. apply Hne. split; [done|].
      by apply range_order_snd_elem in Hin.
    + intros b j. destruct (decide (b ∈ L.*2 ∧ j = i)) as [[Hin ->]|Hne].
      * right. by apply Hclear.
      * left. by apply Hframe.
    + intros tr Htr. destruct (Horig tr Htr) as [?|[_ ?]]; [by left|by right].
    + intros e Hne. by rewrite lookup_insert_ne.
    + apply lookup_insert_eq.
    + intros p b Hp. apply Hclear. apply range_order_snd_elem. by exists p.
    + intros p b c v Hp Hb Hc.
      rewrite <- (bw_table_Prepare (Table w) (fl_bw st)).
      apply (Hemit (range_order_NoDup_snd _ Hinj) p b c v); [|done..].
      by apply range_order_elem.
  - simpl. rewrite Hrl. simpl. rewrite Hwe. simpl.
    eexists _, w. split; [reflexivity|]. split; [done|]. unfold fl_evolves.
    rewrite lower_nextFlush_byExpr, lower_nextFlush_heap, lower_nextFlush_bw,
      lower_nextFlush_min.
    split_and!; try done.
    + apply runlists_evolve_refl.
    + apply heap_evolves_refl.
    + by left.
    + by left.
Qed.

(** *** The windows of one expression *)

Lemma wf_during_evolves sm st st' :
  wf (sm_during sm st) → fl_evolves st st' → wf (sm_during sm st').
Proof.
  intros Hwf [Hb Hh]. by apply (wf_evolves (sm_during sm st)).
Qed.

(** A bucket that is empty stays empty under a change that only empties
    buckets. *)
Lemma only_clears_zero (h h' : list rollup) b j :
  (bucket h' b j = bucket h b j ∨ bucket h' b j = Some (0, 0%float)) →
  bucket h b j = Some (0, 0%float) → bucket h' b j = Some (0, 0%float).
Proof. intros [-> | ->]; done. Qed.

(** The loop over a list [ws] of distinct window indices of the run list
    [rl] of [expr]. *)
Lemma flush_windows_spec terminating baseTime sm expr (ws : list nat) :
  ∀ st rl,
  wf (sm_during sm st) →
  fl_byExpr st !! expr = Some rl →
  bw_batch (fl_bw st) = [] →
  NoDup ws →
  (∀ i, i ∈ ws → (i < length (runlist_nextWriteTime rl))%nat) →
  ∃ st' rl',
    foldlM (flush_window terminating baseTime (sm_rollup sm) expr) st ws
    = Some st' ∧
    fl_evolves st st' ∧
    bw_batch (fl_bw st') = [] ∧
    all_rows (fl_bw st) ⊆ all_rows (fl_bw st') ∧
    (∀ b j, ¬ (j ∈ ws ∧ ∃ p, runlist_path rl !! p = Some b) →
       bucket (fl_heap st') b j = bucket (fl_heap st) b j) ∧
    (∀ b j, bucket (fl_heap st') b j = bucket (fl_heap st) b j ∨
            bucket (fl_heap st') b j = Some (0, 0%float)) ∧
    (terminating = true → ∀ tr, tr ∈ all_rows (fl_bw st') →
       tr ∈ all_rows (fl_bw st) ∨ row_time tr = baseTime) ∧
    (∀ e, e ≠ expr → fl_byExpr st' !! e = fl_byExpr st !! e) ∧
    fl_byExpr st' !! expr = Some rl' ∧
    runlist_path rl' = runlist_path rl ∧
    (∀ i windowEnd, runlist_nextWriteTime rl !! i = Some windowEnd →
       ∃ w, rollup_Windows (sm_rollup sm) expr !! i = Some w ∧
         runlist_nextWriteTime rl' !! i
         = Some (if decide (i ∈ ws) then
                   if window_due terminating baseTime windowEnd
                   then nextTimeBoundary baseTime (Window w) else windowEnd
                 else windowEnd)) ∧
    (∀ i windowEnd w p b,
       i ∈ ws → runlist_nextWriteTime rl !! i = Some windowEnd →
       rollup_Windows (sm_rollup sm) expr !! i = Some w →
       window_due terminating baseTime windowEnd = true →
       runlist_path rl !! p = Some b →
       bucket (fl_heap st') b i = Some (0, 0%float) ∧
       ∀ c v, bucket (fl_heap st) b i = Some (c, v) → 0 < c →
         (Table w, (p, window_statTime terminating baseTime windowEnd, v))
         ∈ all_rows (fl_bw st')).
Proof.
  induction ws as [|i0 ws IH]; intros st rl Hwf Hrl Hbatch Hnd Hlt.
  - exists st, rl. simpl. split_and!; try done.
    + apply fl_evolves_refl.
    + by left.
    + intros _ tr Htr. by left.
    + intros i windowEnd Hwe.
      destruct Hwf as (_ & [_ Hnwt] & _). simpl in Hnwt.
      destruct (lookup_lt_is_Some_2 (rollup_Windows (sm_rollup sm) expr) i)
        as [w Hw].
      { rewrite <- (Hnwt expr rl Hrl). by eapply lookup_lt_Some. }
      exists w. by split.
    + intros i windowEnd w p b Hin. by apply elem_of_nil in Hin.
  - apply NoDup_cons in Hnd as [Hnin Hnd].
    destruct (lookup_lt_is_Some_2 (runlist_nextWriteTime rl) i0) as [we0 Hwe0].
    { apply Hlt. by left. }
    destruct (flush_window_spec terminating baseTime sm st expr rl i0 we0
                Hwf Hrl Hwe0 Hbatch)
      as (st1 & w0 & Hrun1 & Hw0 & Hev1 & Hbatch1 & Hsub1 & Hframe1 & Hclears1
          & Horig1 & Hothers1 & Hdue1).
    pose proof (wf_during_evolves sm st st1 Hwf Hev1) as Hwf1.
    (* the run list after the first window *)
    assert (∃ rl1, fl_byExpr st1 !! expr = Some rl1 ∧
              runlist_path rl1 = runlist_path rl ∧
              length (runlist_nextWriteTime rl1) = length (runlist_nextWriteTime rl) ∧
              runlist_nextWriteTime rl1 !! i0
              = Some (if window_due terminating baseTime we0
                      then nextTimeBoundary baseTime (Window w0) else we0) ∧
              ∀ i, i ≠ i0 →
                runlist_nextWriteTime rl1 !! i = runlist_nextWriteTime rl !! i)
      as (rl1 & Hrl1 & Hpath1 & Hlen1 & Hnwt1 & Hnwt1').
    { destruct (window_due terminating baseTime we0).
      - destruct Hdue1 as (Hrl1 & _). eexists. split; [done|]. simpl.
        split_and!; [done|by rewrite length_insert| |].
        + apply list_lookup_insert_eq. by eapply lookup_lt_Some.
        + intros i Hne. by rewrite list_lookup_insert_ne.
      - destruct Hdue1 as (Hb & _). exists rl. rewrite Hb. done. }
    destruct (IH st1 rl1 Hwf1 Hrl1 Hbatch1 Hnd)
      as (st' & rl' & Hrun & Hev & Hbatch' & Hsub & Hframe & Hclears & Horig
          & Hothers & Hrl' & Hpath' & Hnwt' & Hdue).
    { intros i Hin. rewrite Hlen1. apply Hlt. by right. }
    exists st', rl'. split_and!.
    + simpl. by rewrite Hrun1.
    + by eapply fl_evolves_trans.
    + done.
    + by etrans.
    + intros b j Hne. rewrite Hframe, Hframe1; [done|..].
      * intros [-> Hp]. apply Hne. split; [by left|done].
      * rewrite Hpath1. intros [Hin Hp]. apply Hne. split; [by right|done].
    + intros b j. destruct (Hclears b j) as [-> | ->]; [apply Hclears1|by right].
    + intros Hterm tr Htr. destruct (Horig Hterm tr Htr) as [Htr1|?]; [|by right].
      destruct (Horig1 tr Htr1) as [?|Htime]; [by left|right].
      rewrite Htime. unfold window_statTime. by rewrite Hterm.
    + intros e Hne. by rewrite Hothers, Hothers1.
    + done.
    + congruence.
    + intros i windowEnd Hwe. destruct (decide (i = i0)) as [->|Hne].
      * assert (windowEnd = we0) as -> by congruence.
        destruct (Hnwt' i0 _ Hnwt1) as (w & Hw & Hres).
        assert (w = w0) as -> by congruence.
        exists w0. split; [done|]. rewrite Hres.
        rewrite (decide_False (P := i0 ∈ ws)) by done.
        rewrite decide_True by (by left). done.
      * rewrite <- (Hnwt1' i Hne) in Hwe.
        destruct (Hnwt' i windowEnd Hwe) as (w & Hw & Hres).
        exists w. split; [done|]. rewrite Hres.
        destruct (decide (i ∈ ws)) as [Hin|Hnin'].
        -- rewrite decide_True by (by right). done.
        -- rewrite decide_False; [done|].
           intros [?|?]%elem_of_cons; done.
    + intros i windowEnd w p b Hin Hwe Hw Hd Hp.
      apply elem_of_cons in Hin as [->|Hin].
      * assert (windowEnd = we0) as -> by congruence.
        assert (w = w0) as -> by congruence.
        rewrite Hd in Hdue1. destruct Hdue1 as (_ & _ & Hzero1 & Hemit1).
        split.
        -- eapply only_clears_zero; [apply Hclears|]. by eapply Hzero1.
        -- intros c v Hb Hc. apply Hsub. by eapply Hemit1.
      * assert (i ≠ i0) as Hne by (by intros ->).
        rewrite <- (Hnwt1' i Hne) in Hwe. rewrite <- Hpath1 in Hp.
        destruct (Hdue i windowEnd w p b Hin Hwe Hw Hd Hp) as [Hzero Hemit].
        split; [done|]. intros c v Hb Hc. apply (Hemit c v); [|done].
        rewrite Hframe1; [done|]. by intros [? _].
Qed.

(** *** The walk over the expressions *)

(** The loop over a list [ers] of run lists with distinct expressions, each
    the current run list of its expression. *)
Lemma flush_exprs_spec terminating baseTime sm (ers : list (string * runlist)) :
  ∀ st,
  wf (sm_during sm st) →
  bw_batch (fl_bw st) = [] →
  NoDup ers.*1 →
  (∀ e rl, (e, rl) ∈ ers → fl_byExpr st !! e = Some rl) →
  ∃ st',
    foldlM (flush_expr terminating baseTime (sm_rollup sm)) st ers = Some st' ∧
    fl_evolves st st' ∧
    bw_batch (fl_bw st') = [] ∧
    all_rows (fl_bw st) ⊆ all_rows (fl_bw st') ∧
    (∀ b j, bucket (fl_heap st') b j = bucket (fl_heap st) b j ∨
            bucket (fl_heap st') b j = Some (0, 0%float)) ∧
    (∀ b j, ¬ (∃ e rl p, (e, rl) ∈ ers ∧ runlist_path rl !! p = Some b) →
       bucket (fl_heap st') b j = bucket (fl_heap st) b j) ∧
    (terminating = true → ∀ tr, tr ∈ all_rows (fl_bw st') →
       tr ∈ all_rows (fl_bw st) ∨ row_time tr = baseTime) ∧
    (∀ e, e ∉ ers.*1 → fl_byExpr st' !! e = fl_byExpr st !! e) ∧
    (∀ e rl, (e, rl) ∈ ers →
       ∃ rl', fl_byExpr st' !! e = Some rl' ∧
         runlist_path rl' = runlist_path rl ∧
         ∀ i windowEnd, runlist_nextWriteTime rl !! i = Some windowEnd →
           ∃ w, rollup_Windows (sm_rollup sm) e !! i = Some w ∧
             runlist_nextWriteTime rl' !! i
             = Some (if window_due terminating baseTime windowEnd
                     then nextTimeBoundary baseTime (Window w) else windowEnd)) ∧
    (∀ e rl i windowEnd w p b,
       (e, rl) ∈ ers → runlist_nextWriteTime rl !! i = Some windowEnd →
       rollup_Windows (sm_rollup sm) e !! i = Some w →
       window_due terminating baseTime windowEnd = true →
       runlist_path rl !! p = Some b →
       bucket (fl_heap st') b i = Some (0, 0%float) ∧
       ∀ c v, bucket (fl_heap st) b i = Some (c, v) → 0 < c →
         (Table w, (p, window_statTime terminating baseTime windowEnd, v))
         ∈ all_rows (fl_bw st')).
Proof.
  induction ers as [|[e0 rl0] ers IH]; intros st Hwf Hbatch Hnd Hcur.
  - exists st. simpl. split_and!; try done.
    + apply fl_evolves_refl.
    + by left.
    + intros _ tr Htr. by left.
    + intros e rl Hin. by apply elem_of_nil in Hin.
    + intros e rl i windowEnd w p b Hin. by apply elem_of_nil in Hin.
  - rewrite fmap_cons in Hnd. simpl in Hnd. apply NoDup_cons in Hnd as [Hnin Hnd].
    assert (Hrl0 : fl_byExpr st !! e0 = Some rl0) by (apply Hcur; by left).
    destruct (flush_windows_spec terminating baseTime sm e0
                (seq 0 (length (runlist_nextWriteTime rl0))) st rl0
                Hwf Hrl0 Hbatch (NoDup_seq _ _))
      as (st1 & rl1 & Hrun1 & Hev1 & Hbatch1 & Hsub1 & Hframe1 & Hclears1
          & Horig1 & Hothers1 & Hrl1 & Hpath1 & Hnwt1 & Hdue1).
    { intros i Hin%elem_of_seq. lia. }
    pose proof (wf_during_evolves sm st st1 Hwf Hev1) as Hwf1.
    assert (Hne0 : ∀ e rl, (e, rl) ∈ ers → e ≠ e0).
    { intros e rl Hin ->. apply Hnin. apply list_elem_of_fmap. by exists (e0, rl). }
    destruct (IH st1 Hwf1 Hbatch1 Hnd)
      as (st' & Hrun & Hev & Hbatch' & Hsub & Hclears & Hframe & Horig
          & Hothers & Hnwt & Hdue).
    { intros e rl Hin. rewrite Hothers1 by (by eapply Hne0). apply Hcur. by right. }
    assert (Hseq : ∀ i windowEnd, runlist_nextWriteTime rl0 !! i = Some windowEnd →
                     i ∈ seq 0 (length (runlist_nextWriteTime rl0))).
    { intros i windowEnd Hwe%lookup_lt_Some. apply elem_of_seq. lia. }
    (* a rollup of a later expression is not one of [e0] *)
    assert (Hdisj : ∀ e rl p b, (e, rl) ∈ ers → runlist_path rl !! p = Some b →
                     ¬ ∃ p0, runlist_path rl0 !! p0 = Some b).
    { intros e rl p b Hin Hp [p0 Hp0].
      destruct (wf_owner (sm_during sm st) e rl p e0 rl0 p0 b) as [-> _];
        [done|by (apply Hcur; right)|done|done|done|].
      by eapply Hne0. }
    exists st'. split_and!.
    + simpl. unfold flush_expr at 1. simpl. by rewrite Hrun1.
    + by eapply fl_evolves_trans.
    + done.
    + by etrans.
    + intros b j. destruct (Hclears b j) as [-> | ->]; [apply Hclears1|by right].
    + intros b j Hne. rewrite Hframe, Hframe1; [done|..].
      * intros [_ [p Hp]]. apply Hne. exists e0, rl0, p. split; [by left|done].
      * intros (e & rl & p & Hin & Hp). apply Hne. exists e, rl, p.
        split; [by right|done].
    + intros Hterm tr Htr. destruct (Horig Hterm tr Htr) as [Htr1|?]; [|by right].
      apply (Horig1 Hterm tr Htr1).
    + intros e Hne. rewrite fmap_cons in Hne. simpl in Hne.
      apply not_elem_of_cons in Hne as [Hne Hnin'].
      by rewrite Hothers, Hothers1.
    + intros e rl [[= -> ->]|Hin]%elem_of_cons.
      * exists rl1. split; [by rewrite Hothers|]. split; [done|].
        intros i windowEnd Hwe. destruct (Hnwt1 i windowEnd Hwe) as (w & Hw & Hres).
        exists w. split; [done|]. rewrite Hres.
        by rewrite decide_True by (by eapply Hseq).
      * by apply Hnwt.
    + intros e rl i windowEnd w p b [[= -> ->]|Hin]%elem_of_cons Hwe Hw Hd Hp.
      * destruct (Hdue1 i windowEnd w p b (Hseq _ _ Hwe) Hwe Hw Hd Hp)
          as [Hzero Hemit].
        split.
        -- eapply only_clears_zero; [apply Hclears|done].
        -- intros c v Hb Hc. apply Hsub. by apply (Hemit c v).
      * destruct (Hdue e rl i windowEnd w p b Hin Hwe Hw Hd Hp) as [Hzero Hemit].
        split; [done|]. intros c v Hb Hc. apply (Hemit c v); [|done].
        rewrite Hframe1; [done|]. intros [_ Hp0]. by eapply Hdisj.
Qed.

(** *** [flush] as a whole *)

Lemma wf_flush_init baseTime sm : wf sm → wf (sm_during sm (flush_init baseTime sm)).
Proof.
  intros Hwf. apply (wf_evolves sm); [done|apply runlists_evolve_refl|].
  apply heap_evolves_refl.
Qed.

(** On well-formed rollup data the walk over the expressions returns, and
    this is what it did to the buckets, the run lists and the rows. *)
Lemma flush_walk_spec terminating baseTime sm :
  wf sm →
  ∃ st,
    flush_walk terminating baseTime sm = Some st ∧
    fl_evolves (flush_init baseTime sm) st ∧
    bw_batch (fl_bw st) = [] ∧
    (∀ b j, bucket (fl_heap st) b j = bucket (sm_heap sm) b j ∨
            bucket (fl_heap st) b j = Some (0, 0%float)) ∧
    (∀ b j, ¬ (∃ e rl p, sm_byExpr sm !! e = Some rl ∧
                         runlist_path rl !! p = Some b) →
       bucket (fl_heap st) b j = bucket (sm_heap sm) b j) ∧
    (terminating = true → ∀ tr, tr ∈ all_rows (fl_bw st) → row_time tr = baseTime) ∧
    (∀ e, sm_byExpr sm !! e = None → fl_byExpr st !! e = None) ∧
    (∀ e rl, sm_byExpr sm !! e = Some rl →
       ∃ rl', fl_byExpr st !! e = Some rl' ∧
         runlist_path rl' = runlist_path rl ∧
         ∀ i windowEnd, runlist_nextWriteTime rl !! i = Some windowEnd →
           ∃ w, rollup_Windows (sm_rollup sm) e !! i = Some w ∧
             runlist_nextWriteTime rl' !! i
             = Some (if window_due terminating baseTime windowEnd
                     then nextTimeBoundary baseTime (Window w) else windowEnd)) ∧
    (∀ e rl i windowEnd w p b,
       sm_byExpr sm !! e = Some rl →
       runlist_nextWriteTime rl !! i = Some windowEnd →
       rollup_Windows (sm_rollup sm) e !! i = Some w →
       window_due terminating baseTime windowEnd = true →
       runlist_path rl !! p = Some b →
       bucket (fl_heap st) b i = Some (0, 0%float) ∧
       ∀ c v, bucket (sm_heap sm) b i = Some (c, v) → 0 < c →
         (Table w, (p, window_statTime terminating baseTime windowEnd, v))
         ∈ all_rows (fl_bw st)).
Proof.
  intros Hwf.
  destruct (flush_exprs_spec terminating baseTime sm
              (range_order runlist (sm_byExpr sm)) (flush_init baseTime sm))
    as (st & Hrun & Hev & Hbatch & _ & Hclears & Hframe & Horig & Hothers
        & Hnwt & Hdue).
  - by apply wf_flush_init.
  - done.
  - apply range_order_NoDup_fst.
  - intros e rl Hin. simpl. by apply range_order_elem.
  - exists st. split_and!; try done.
    + intros b j Hne. apply Hframe. intros (e & rl & p & Hin%range_order_elem & Hp).
      apply Hne. by exists e, rl, p.
    + intros Hterm tr Htr. destruct (Horig Hterm tr Htr) as [Hin|?]; [|done].
      unfold all_rows, written_rows in Hin. simpl in Hin.
      by apply elem_of_nil in Hin.
    + intros e He. rewrite Hothers; [done|].
      intros ([e' rl] & -> & Hin%range_order_elem)%list_elem_of_fmap.
      simpl in He. congruence.
    + intros e rl Hrl. apply Hnwt. by apply range_order_elem.
    + intros e rl i windowEnd w p b Hrl. apply Hdue. by apply range_order_elem.
Qed.

(** On well-formed rollup data [flush] returns, and leaves well-formed
    rollup data with the same global map. *)
Lemma flush_returns terminating baseTime timerReady sm :
  wf sm →
  ∃ res, flush terminating baseTime timerReady sm = Some res ∧
         wf (fr_sm res) ∧ sm_byPath (fr_sm res) = sm_byPath sm.
Proof.
  intros Hwf.
  destruct (flush_walk_spec terminating baseTime sm Hwf) as (st & Hrun & Hev & _).
  unfold flush. rewrite Hrun. simpl. eexists. split; [done|]. simpl.
  split; [|done]. by apply (wf_during baseTime sm st).
Qed.

(** *** The accumulator *)

Lemma uint64_add_1 c : 0 ≤ c < 2 ^ 64 - 1 → gonum.uint64_add c 1 = c + 1.
Proof.
  intros Hc. unfold gonum.uint64_add, gonum.uint64_modulus.
  apply Z.mod_small. lia.
Qed.

(** C5. For every sample applied by [accumulate] to a rollup, each window
    bucket [i] is updated by the method of the rollup's expression --
    AVERAGE: [(value[i] * count[i] + sample.value) / (count[i] + 1)];
    MIN: [sample.value] if [count[i] == 0] or [sample.value < value[i]];
    MAX: the larger of [value[i]] and [sample.value]; SUM:
    [value[i] + sample.value] -- and afterwards [count[i]] is incremented by
    one, for every window index.  Here [r] is the rollup the sample is
    applied to (the one of the path, or the zeroed one created for a new
    path), [r'] the same object after the call.  The rollup data are
    well-formed ([wf]), as they are in every state that the event loop
    reaches from a usable configuration. *)
Theorem accumulate_folds_sample sm metric :
  wf sm →
  ∃ sm' sent a r d r',
    accumulate sm metric = Some (sm', sent) ∧
    sm_byPath sm' !! Path metric = Some a ∧
    match sm_byPath sm !! Path metric with
    | Some a0 => a0 = a ∧ sm_heap sm !! a = Some r
    | None => ∃ expr, getExpression sm (Path metric) = Some expr ∧
                      r = new_rollup (sm_rollup sm) expr
    end ∧
    sm_rollup sm !! rollup_expr r = Some d ∧
    sm_heap sm' !! a = Some r' ∧
    length (rollup_count r) = length (rollup_Windows (sm_rollup sm) (rollup_expr r)) ∧
    length (rollup_value r) = length (rollup_Windows (sm_rollup sm) (rollup_expr r)) ∧
    length (rollup_count r') = length (rollup_count r) ∧
    length (rollup_value r') = length (rollup_value r) ∧
    ∀ i v c, rollup_value r !! i = Some v → rollup_count r !! i = Some c →
      rollup_value r' !! i = Some (spec_fold (Method d) v c (Value metric)) ∧
      rollup_count r' !! i = Some (gonum.uint64_add c 1) ∧
      (0 ≤ c < 2 ^ 64 - 1 → gonum.uint64_add c 1 = c + 1).
Proof.
  intros Hwf. destruct (sm_byPath sm !! Path metric) as [a|] eqn:Hp.
  - destruct (accumulate_known sm metric a Hwf Hp)
      as (r & d & r' & Hr & Hd & Hr' & Heq).
    destruct (wf_known_rollup sm _ a Hwf Hp) as (r0 & _ & Hr0 & _ & Hlen).
    assert (r0 = r) as -> by congruence.
    destruct (apply_metric_spec (Method d) (Value metric) r Hlen)
      as (r1 & Hr1 & _ & Hc & Hv & Hbuckets).
    assert (r1 = r') as -> by congruence.
    assert (Hshape : length (rollup_count r)
                     = length (rollup_Windows (sm_rollup sm) (rollup_expr r))).
    { destruct Hwf as (_ & [_ Hnwt] & Htwo & Hroll & _).
      apply Htwo in Hp as (expr & rl & Hrl & Hp).
      destruct (Hroll expr rl _ a Hrl Hp) as (r2 & Hr2 & He2 & Hc2 & _).
      assert (r2 = r) as -> by congruence.
      rewrite Hc2, He2. by apply Hnwt. }
    eexists _, [], a, r, d, r'. split; [exact Heq|]. split_and!; try done.
    + simpl. apply list_lookup_insert_eq. by eapply lookup_lt_Some.
    + congruence.
    + intros i v c Hvi Hci. destruct (Hbuckets i v c Hvi Hci).
      split_and!; [done..|apply uint64_add_1].
  - destruct (accumulate_new sm metric Hwf Hp)
      as (expr & rl & d & r' & Hexpr & Hrl & Hd & Hr' & Heq).
    destruct (apply_metric_spec (Method d) (Value metric)
                (new_rollup (sm_rollup sm) expr) (new_rollup_lengths _ _))
      as (r1 & Hr1 & _ & Hc & Hv & Hbuckets).
    assert (r1 = r') as -> by congruence.
    eexists _, [metric], (length (sm_heap sm)), (new_rollup (sm_rollup sm) expr),
      d, r'.
    split; [exact Heq|]. split_and!; try done.
    + simpl. apply lookup_insert_eq.
    + by exists expr.
    + simpl. rewrite lookup_app_r by done. by rewrite Nat.sub_diag.
    + simpl. by rewrite length_replicate.
    + simpl. by rewrite length_replicate.
    + intros i v c Hvi Hci. destruct (Hbuckets i v c Hvi Hci).
      split_and!; [done..|apply uint64_add_1].
Qed.

(** What [accumulate] sends on the index-write channel, and what it does
    to the global map. *)
Lemma accumulate_sends sm metric :
  wf sm →
  ∃ sm' sent,
    accumulate sm metric = Some (sm', sent) ∧
    (sm_byPath sm !! Path metric = None → sent = [metric]) ∧
    (is_Some (sm_byPath sm !! Path metric) → sent = []) ∧
    is_Some (sm_byPath sm' !! Path metric) ∧
    (∀ q, q ≠ Path metric → sm_byPath sm' !! q = sm_byPath sm !! q) ∧
    wf sm'.
Proof.
  intros Hwf. destruct (sm_byPath sm !! Path metric) as [a|] eqn:Hp.
  - destruct (accumulate_known sm metric a Hwf Hp)
      as (r & d & r' & Hr & Hd & Hr' & Heq).
    eexists _, []. split; [exact Heq|]. split_and!; try done.
    by eapply accumulate_wf.
  - destruct (accumulate_new sm metric Hwf Hp)
      as (expr & rl & d & r' & Hexpr & Hrl & Hd & Hr' & Heq).
    eexists _, [metric]. split; [exact Heq|]. split_and!; try done.
    + simpl. rewrite lookup_insert_eq. by eexists.
    + intros q Hq. simpl. by rewrite lookup_insert_ne.
    + by eapply accumulate_wf.
Qed.

(** C8. A call [accumulate(sample)] sends the sample on the index-write
    channel exactly once if the sample's path is absent from the global path
    map at the start of the call, and sends nothing if the path is already
    present; after the call the path is present, and the other paths are as
    they were, so a path is announced at first sight only.  The rollup data
    are well-formed, as in every state that the event loop reaches. *)
Theorem accumulate_index_write sm metric :
  wf sm →
  ∃ sm' sent,
    accumulate sm metric = Some (sm', sent) ∧
    (sm_byPath sm !! Path metric = None → sent = [metric]) ∧
    (is_Some (sm_byPath sm !! Path metric) → sent = []) ∧
    is_Some (sm_byPath sm' !! Path metric) ∧
    (∀ q, q ≠ Path metric → sm_byPath sm' !! q = sm_byPath sm !! q) ∧
    wf sm'.
Proof. apply accumulate_sends. Qed.

(** *** The flusher *)

Lemma window_due_terminating baseTime windowEnd :
  window_due true baseTime windowEnd = true.
Proof. unfold window_due. apply orb_true_r. Qed.

(** C7. A call [flush(true)] processes every window of every expression
    whether or not its boundary has passed: it returns; every bucket with
    [count[i] > 0] is written as a row of the window's table stamped with
    [baseTime]; every row written is stamped with [baseTime] and none is left
    pending; and after the call every bucket of every rollup has
    [count[i] == 0] and [value[i] == 0].  This holds on well-formed rollup
    data and for every order in which [range] visits the maps. *)
Theorem flush_terminating_drains baseTime timerReady sm :
  wf sm →
  ∃ res,
    flush true baseTime timerReady sm = Some res ∧
    (∀ expr rl p a i c v,
       sm_byExpr sm !! expr = Some rl → runlist_path rl !! p = Some a →
       bucket (sm_heap sm) a i = Some (c, v) → 0 < c →
       ∃ w, rollup_Windows (sm_rollup sm) expr !! i = Some w ∧
            (Table w, (p, baseTime, v)) ∈ written_rows (fr_bw res)) ∧
    (∀ tr, tr ∈ written_rows (fr_bw res) → row_time tr = baseTime) ∧
    bw_batch (fr_bw res) = [] ∧
    (∀ expr rl p a r,
       sm_byExpr (fr_sm res) !! expr = Some rl → runlist_path rl !! p = Some a →
       sm_heap (fr_sm res) !! a = Some r →
       (∀ i c, rollup_count r !! i = Some c → c = 0) ∧
       (∀ i v, rollup_value r !! i = Some v → v = 0%float)).
Proof.
  intros Hwf.
  destruct (flush_walk_spec true baseTime sm Hwf)
    as (st & Hrun & Hev & Hbatch & Hclears & Hframe & Hstamp & Hnone & Hnwt & Hdue).
  pose proof (wf_during baseTime sm st Hwf Hev) as Hwf'.
  unfold flush. rewrite Hrun. simpl. eexists. split; [done|]. simpl.
  rewrite (written_all _ Hbatch).
  assert (Hwindow : ∀ expr rl p a i c v,
            sm_byExpr sm !! expr = Some rl → runlist_path rl !! p = Some a →
            bucket (sm_heap sm) a i = Some (c, v) →
            ∃ windowEnd w, runlist_nextWriteTime rl !! i = Some windowEnd ∧
                           rollup_Windows (sm_rollup sm) expr !! i = Some w).
  { intros expr rl p a i c v Hrl Hp (r & Hr & Hc & Hv)%bucket_Some.
    destruct Hwf as (_ & [_ Hlen] & _ & Hroll & _).
    destruct (Hroll expr rl p a Hrl Hp) as (r0 & Hr0 & _ & Hc0 & _).
    assert (r0 = r) as -> by congruence.
    apply lookup_lt_Some in Hc. rewrite Hc0 in Hc.
    destruct (lookup_lt_is_Some_2 _ _ Hc) as [windowEnd Hwe].
    rewrite (Hlen expr rl Hrl) in Hc.
    destruct (lookup_lt_is_Some_2 _ _ Hc) as [w Hw]. by exists windowEnd, w. }
  split_and!; [| by apply Hstamp | done |].
  - intros expr rl p a i c v Hrl Hp Hb Hc.
    destruct (Hwindow expr rl p a i c v Hrl Hp Hb) as (windowEnd & w & Hwe & Hw).
    exists w. split; [done|].
    destruct (Hdue expr rl i windowEnd w p a Hrl Hwe Hw
                (window_due_terminating _ _) Hp) as [_ Hemit].
    by apply (Hemit c v).
  - intros expr rl' p a r Hrl' Hp Hr.
    (* the run list that [rl'] comes from *)
    destruct (sm_byExpr sm !! expr) as [rl|] eqn:Hrl;
      [|rewrite (Hnone expr Hrl) in Hrl'; done].
    destruct (Hnwt expr rl Hrl) as (rl1 & Hrl1 & Hpath & Hwes).
    assert (rl1 = rl') as -> by congruence. rewrite Hpath in Hp.
    destruct Hwf' as (_ & _ & _ & Hroll' & _). simpl in Hroll'.
    destruct (Hroll' expr rl' p a Hrl') as (r0 & Hr0 & _ & Hc0 & Hv0);
      [by rewrite Hpath|].
    simpl in Hr0. assert (r0 = r) as -> by congruence.
    assert (Hzero : ∀ i, (i < length (runlist_nextWriteTime rl'))%nat →
              bucket (fl_heap st) a i = Some (0, 0%float)).
    { intros i Hi.
      assert (i < length (runlist_nextWriteTime rl))%nat as Hi0.
      { destruct Hev as [Hb _]. specialize (Hb expr). simpl in Hb.
        rewrite Hrl, Hrl' in Hb. inversion Hb as [? ? [_ Hl]|]. lia. }
      destruct (lookup_lt_is_Some_2 _ _ Hi0) as [windowEnd Hwe].
      destruct (Hwes i windowEnd Hwe) as (w & Hw & _).
      by destruct (Hdue expr rl i windowEnd w p a Hrl Hwe Hw
                     (window_due_terminating _ _) Hp). }
    split.
    + intros i c Hc. pose proof (lookup_lt_Some _ _ _ Hc) as Hi.
      rewrite Hc0 in Hi. apply Hzero in Hi.
      apply bucket_Some in Hi as (r1 & Hr1 & Hc1 & _). congruence.
    + intros i v Hv. pose proof (lookup_lt_Some _ _ _ Hv) as Hi.
      rewrite Hv0 in Hi. apply Hzero in Hi.
      apply bucket_Some in Hi as (r1 & Hr1 & _ & Hv1). congruence.
Qed.

(** After [flush], each closing time is the next boundary after [baseTime]
    if the window was due, and is as it was if not. *)
Lemma flush_nextWriteTime terminating baseTime timerReady sm :
  wf sm →
  ∃ res,
    flush terminating baseTime timerReady sm = Some res ∧
    ∀ expr rl i windowEnd,
      sm_byExpr sm !! expr = Some rl →
      runlist_nextWriteTime rl !! i = Some windowEnd →
      ∃ rl' w,
        sm_byExpr (fr_sm res) !! expr = Some rl' ∧
        rollup_Windows (sm_rollup sm) expr !! i = Some w ∧
        runlist_nextWriteTime rl' !! i
        = Some (if window_due terminating baseTime windowEnd
                then nextTimeBoundary baseTime (Window w) else windowEnd).
Proof.
  intros Hwf.
  destruct (flush_walk_spec terminating baseTime sm Hwf)
    as (st & Hrun & _ & _ & _ & _ & _ & _ & Hnwt & _).
  unfold flush. rewrite Hrun. simpl. eexists. split; [done|]. simpl.
  intros expr rl i windowEnd Hrl Hwe.
  destruct (Hnwt expr rl Hrl) as (rl' & Hrl' & _ & Hwes).
  destruct (Hwes i windowEnd Hwe) as (w & Hw & Hres). by exists rl', w.
Qed.

(** The next boundary after [now] is later than [now], for a window of
    positive width. *)
Lemma nextTimeBoundary_later now W : 0 < W → now < nextTimeBoundary now W.
Proof.
  intros HW. unfold nextTimeBoundary.
  assert ((0 <? W) = true) as -> by by apply Z.ltb_lt.
  pose proof (Z.mod_pos_bound now W HW). pose proof (Z.div_mod now W). lia.
Qed.

(** C9, as the code has it.  When [flush] is called with
    [terminating = false], the duration it submits to the timer is
    [nextFlush - baseTime] when that is not negative and one millisecond
    when it is, so it is never negative; the submission does not block: it is
    delivered if the timer is receiving and dropped if not, and the rollup
    data, the rows written and [nextFlush] are the same in both cases.  This
    holds on well-formed rollup data. *)
Theorem flush_submits_delay baseTime timerReady sm :
  wf sm →
  ∃ res res',
    flush false baseTime timerReady sm = Some res ∧
    flush false baseTime (negb timerReady) sm = Some res' ∧
    fr_timer res
    = (if timerReady then Delivered else Dropped)
        (flush_delay (fr_nextFlush res) baseTime) ∧
    flush_delay (fr_nextFlush res) baseTime
    = (if time.Sub (fr_nextFlush res) baseTime <? 0 then time.Millisecond
       else time.Sub (fr_nextFlush res) baseTime) ∧
    0 ≤ flush_delay (fr_nextFlush res) baseTime ∧
    fr_sm res' = fr_sm res ∧ fr_bw res' = fr_bw res ∧
    fr_nextFlush res' = fr_nextFlush res.
Proof.
  intros Hwf.
  destruct (flush_walk_spec false baseTime sm Hwf) as (st & Hrun & _).
  unfold flush. rewrite Hrun. simpl. eexists _, _.
  split; [done|]. split; [done|]. simpl. split_and!; try done.
  - by destruct timerReady.
  - unfold flush_delay, time.Nanoseconds.
    destruct (time.Sub (fl_nextFlush st) baseTime <? 0) eqn:Hneg.
    + unfold time.Millisecond. lia.
    + by apply Z.ltb_ge in Hneg.
Qed.

(** *** The two-level indexing invariant *)

(** The invariant only reads the two maps. *)
Lemma two_level_maps sm sm' :
  sm_byPath sm' = sm_byPath sm → sm_byExpr sm' = sm_byExpr sm →
  two_level sm → two_level sm'.
Proof. intros Hp He Htwo p a. rewrite Hp, He. apply Htwo. Qed.

(** It only depends on the paths of the run lists. *)
Lemma two_level_evolves sm sm' :
  sm_byPath sm' = sm_byPath sm →
  runlists_evolve (sm_byExpr sm) (sm_byExpr sm') →
  two_level sm → two_level sm'.
Proof.
  intros Hbp Hb Htwo p a. rewrite Hbp, (Htwo p a). split.
  - intros (expr & rl & Hrl & Hp). specialize (Hb expr). rewrite Hrl in Hb.
    inversion Hb as [? rl' [Hpath _] |]. simplify_eq.
    exists expr, rl'. split; [done|]. by rewrite Hpath.
  - intros (expr & rl' & Hrl' & Hp). specialize (Hb expr). rewrite Hrl' in Hb.
    inversion Hb as [rl ? [Hpath _] |]. simplify_eq.
    exists expr, rl. split; [done|]. by rewrite <- Hpath.
Qed.

(** Whenever [accumulate] returns, it has changed the two maps together,
    and the store has kept its objects and gained the new one. *)
Lemma accumulate_two_level sm metric sm' sent :
  accumulate sm metric = Some (sm', sent) →
  (two_level sm → two_level sm') ∧ (pointers_valid sm → pointers_valid sm').
Proof.
  unfold accumulate, locate. intros Hacc.
  destruct (sm_byPath sm !! Path metric) as [a|] eqn:Hp; simpl in Hacc.
  - destruct (sm_heap sm !! a) as [r|] eqn:Hr; simpl in Hacc; [|done].
    destruct (apply_metric _ _ r) as [r'|]; simpl in Hacc; [|done].
    injection Hacc as <- <-. split.
    + by apply two_level_maps.
    + intros Hval p b Hb. simpl in Hb |- *.
      apply lookup_lt_is_Some. rewrite length_insert.
      apply lookup_lt_is_Some. by eapply Hval.
  - destruct (getExpression sm (Path metric)) as [expr|]; simpl in Hacc; [|done].
    destruct (sm_byExpr sm !! expr) as [rl|] eqn:Hrl; simpl in Hacc; [|done].
    rewrite lookup_app_r in Hacc by done. rewrite Nat.sub_diag in Hacc.
    simpl in Hacc.
    destruct (apply_metric _ _ _) as [r'|]; simpl in Hacc; [|done].
    injection Hacc as <- <-. split.
    + intros Htwo.
      apply (two_level_maps (with_new_path sm (Path metric) expr rl r'));
        [done..|]. by apply two_level_with_new_path.
    + intros Hval p b. simpl. intros Hb.
      apply lookup_lt_is_Some. rewrite length_insert, length_app. simpl.
      destruct (decide (Path metric = p)) as [<-|Hne].
      * rewrite lookup_insert_eq in Hb. injection Hb as <-. lia.
      * rewrite lookup_insert_ne in Hb by done.
        apply Hval, lookup_lt_is_Some in Hb. lia.
Qed.

(** Whenever an iteration of [flush] returns, the run lists have kept
    their paths and the store its size. *)
Lemma flush_path_length i statTime st pa st' :
  flush_path i statTime st pa = Some st' → length st'.1 = length st.1.
Proof.
  destruct st as [h bw], pa as [p a], st' as [h' bw'].
  intros (r & c & v & _ & _ & -> & _)%flush_path_inv. simpl.
  apply length_insert.
Qed.

Lemma flush_paths_length i statTime L st st' :
  foldlM (flush_path i statTime) st L = Some st' → length st'.1 = length st.1.
Proof.
  revert st. induction L as [|pa L IH]; intros st Hrun; simpl in Hrun.
  - by simplify_eq.
  - destruct (flush_path i statTime st pa) as [st1|] eqn:Hstep; [|done].
    rewrite (IH st1 Hrun). by eapply flush_path_length.
Qed.

Lemma flush_window_keeps terminating baseTime defs expr st i st' :
  flush_window terminating baseTime defs expr st i = Some st' →
  runlists_evolve (fl_byExpr st) (fl_byExpr st') ∧
  length (fl_heap st') = length (fl_heap st).
Proof.
  unfold flush_window. intros Hrun.
  destruct (fl_byExpr st !! expr) as [rl|] eqn:Hrl; simpl in Hrun; [|done].
  destruct (runlist_nextWriteTime rl !! i) as [windowEnd|]; simpl in Hrun; [|done].
  destruct (window_due terminating baseTime windowEnd).
  - destruct (rollup_Windows defs expr !! i) as [w|]; simpl in Hrun; [|done].
    destruct (foldlM _ _ _) as [hb|] eqn:Hfold; simpl in Hrun; [|done].
    rewrite lookup_insert_eq in Hrun. simpl in Hrun.
    destruct (_ !! i) as [t|]; simpl in Hrun; [|done].
    injection Hrun as <-.
    rewrite lower_nextFlush_byExpr, lower_nextFlush_heap. simpl. split.
    + apply runlists_evolve_insert; [done|]. by rewrite length_insert.
    + by apply flush_paths_length in Hfold.
  - simpl in Hrun. rewrite Hrl in Hrun. simpl in Hrun.
    destruct (_ !! i) as [t|]; simpl in Hrun; [|done].
    injection Hrun as <-.
    rewrite lower_nextFlush_byExpr, lower_nextFlush_heap.
    split; [apply runlists_evolve_refl|done].
Qed.

Lemma flush_keeps terminating baseTime timerReady sm res :
  flush terminating baseTime timerReady sm = Some res →
  sm_byPath (fr_sm res) = sm_byPath sm ∧
  runlists_evolve (sm_byExpr sm) (sm_byExpr (fr_sm res)) ∧
  length (sm_heap (fr_sm res)) = length (sm_heap sm).
Proof.
  unfold flush. intros Hrun.
  destruct (flush_walk terminating baseTime sm) as [st|] eqn:Hwalk;
    simpl in Hrun; [|done].
  injection Hrun as <-. simpl. split; [done|].
  unfold flush_walk in Hwalk.
  set (P := λ s : flushing, runlists_evolve (sm_byExpr sm) (fl_byExpr s) ∧
                            length (fl_heap s) = length (sm_heap sm)).
  assert (Hwindow : ∀ expr s1 i s2, P s1 →
            flush_window terminating baseTime (sm_rollup sm) expr s1 i = Some s2 →
            P s2).
  { intros expr s1 i s2 [Hb Hl] Hwin.
    apply flush_window_keeps in Hwin as [Hb' Hl'].
    split; [by eapply runlists_evolve_trans|congruence]. }
  assert (Hexpr : ∀ s1 er s2, P s1 →
            flush_expr terminating baseTime (sm_rollup sm) s1 er = Some s2 → P s2).
  { intros s1 er s2 Hs1 Hrun. unfold flush_expr in Hrun.
    apply (foldlM_invariant _ P _ _ _ (λ s3 i s4 _, Hwindow er.1 s3 i s4) Hs1 Hrun). }
  assert (Hinit : P (flush_init baseTime sm)).
  { split; [apply runlists_evolve_refl|done]. }
  apply (foldlM_invariant _ P _ _ _ (λ s1 er s2 _, Hexpr s1 er s2) Hinit Hwalk).
Qed.

(** One operation of the event loop keeps the two views in step. *)
Lemma step_two_level sm sm' :
  step sm sm' →
  (two_level sm → two_level sm') ∧ (pointers_valid sm → pointers_valid sm').
Proof.
  intros [baseTime|metric sm1 sent Hacc|terminating baseTime timerReady res Hfl].
  - split; intros _.
    + apply two_level_resetRollupData.
    + intros p a Hp. simpl in Hp. by rewrite lookup_empty in Hp.
  - by eapply accumulate_two_level.
  - destruct (flush_keeps _ _ _ _ _ Hfl) as (Hbp & Hb & Hl). split.
    + by apply two_level_evolves.
    + intros Hval p a Hp. rewrite Hbp in Hp.
      apply lookup_lt_is_Some. rewrite Hl. apply lookup_lt_is_Some. by eapply Hval.
Qed.

(** C6. At every point between operations of the store manager's event
    loop (after the reset, after each [accumulate], after each [flush]), a
    path [p] is a key of the global [byPath] map if and only if some
    expression's run list holds [p], and both maps hold the same pointer,
    which designates a rollup object of the store: what is written through
    one view is what is read through the other. *)
Theorem two_level_invariant cfg sm :
  reachable cfg sm → two_level sm ∧ pointers_valid sm.
Proof.
  induction 1 as [baseTime|sm sm' _ [IHtwo IHval] Hstep].
  - split; [apply two_level_resetRollupData|].
    intros p a Hp. simpl in Hp. by rewrite lookup_empty in Hp.
  - destruct (step_two_level sm sm' Hstep) as [Htwo Hval]. auto.
Qed.

(** With a usable configuration, every operation of the event loop keeps
    all the invariants of the rollup data. *)
Lemma step_wf sm sm' : wf sm → step sm sm' → wf sm'.
Proof.
  intros Hwf [baseTime|metric sm1 sent Hacc|terminating baseTime timerReady res Hfl].
  - apply wf_resetRollupData. by destruct Hwf.
  - by eapply accumulate_wf.
  - destruct (flush_returns terminating baseTime timerReady sm Hwf)
      as (res' & Hfl' & Hwf' & _).
    by assert (res' = res) as <- by congruence.
Qed.

Lemma reachable_wf cfg sm : config_ok cfg → reachable cfg sm → wf sm.
Proof.
  intros Hcfg. induction 1 as [baseTime|sm sm' _ IH Hstep].
  - by apply wf_resetRollupData.
  - by eapply step_wf.
Qed.

(** *** The read worker *)

(** [int64] arithmetic is exact on results that fit, and is off by [2^64]
    on the results just above. *)
Lemma int64_wrap_fits z : - 2 ^ 63 ≤ z < 2 ^ 63 → gonum.int64_wrap z = z.
Proof.
  intros Hz. unfold gonum.int64_wrap. rewrite Z.mod_small by lia. lia.
Qed.

Lemma int64_wrap_above z :
  2 ^ 63 ≤ z < 2 ^ 64 + 2 ^ 63 → gonum.int64_wrap z = z - 2 ^ 64.
Proof.
  intros Hz. unfold gonum.int64_wrap.
  rewrite <- (Z.mod_unique (z + 2 ^ 63) (2 ^ 64) 1 (z - 2 ^ 63)); lia.
Qed.

Lemma Unix_0 sec :
  time.Unix sec 0
  = (gonum.int64_wrap (sec + time.unixToInternal) - time.unixToInternal)
    * time.Second.
Proof.
  change (time.Unix sec 0)
    with ((gonum.int64_wrap (sec + time.unixToInternal) - time.unixToInternal)
          * time.Second + 0).
  lia.
Qed.

(** [time.Unix(sec, 0)] is [sec] seconds after the epoch as long as
    [sec + unixToInternal] fits [int64]. *)
Lemma Unix_seconds sec :
  - 2 ^ 63 ≤ sec + time.unixToInternal < 2 ^ 63 →
  time.Unix sec 0 = sec * time.Second.
Proof.
  intros Hsec. rewrite Unix_0, int64_wrap_fits by done. lia.
Qed.

(** Above that, the seconds wrap around: the instant is [2^64] seconds
    earlier. *)
Lemma Unix_wrapped sec :
  2 ^ 63 - time.unixToInternal ≤ sec < 2 ^ 63 →
  time.Unix sec 0 = (sec - 2 ^ 64) * time.Second.
Proof.
  intros Hsec. rewrite Unix_0, int64_wrap_above; [lia|].
  unfold time.unixToInternal in Hsec |- *. lia.
Qed.

(** [timeDelta], the value of [time.Since(time.Unix(q.From, 0))] at line
    432, is [now - from] when [from] does not wrap and the difference fits
    a [Duration]. *)
Lemma timeDelta_exact now from :
  - 2 ^ 63 ≤ from + time.unixToInternal < 2 ^ 63 →
  time.minDuration ≤ now - from * time.Second ≤ time.maxDuration →
  time.Sub now (time.Unix from 0) = now - from * time.Second.
Proof.
  intros Hfrom Hfit. rewrite (Unix_seconds _ Hfrom). unfold time.Sub.
  destruct (Z.ltb_spec (now - from * time.Second) time.minDuration); [lia|].
  destruct (Z.ltb_spec time.maxDuration (now - from * time.Second)); lia.
Qed.

(** For a [from] that wraps, [timeDelta] is the largest [Duration] at any
    time after the epoch. *)
Lemma timeDelta_wrapped now from :
  0 ≤ now → 2 ^ 63 - time.unixToInternal ≤ from < 2 ^ 63 →
  time.Sub now (time.Unix from 0) = time.maxDuration.
Proof.
  intros Hnow Hfrom. rewrite (Unix_wrapped _ Hfrom).
  unfold time.Sub, time.minDuration, time.maxDuration, time.Second.
  unfold time.unixToInternal in Hfrom.
  destruct (Z.ltb_spec (now - (from - 2 ^ 64) * 1000000000) (- 2 ^ 63)); [lia|].
  destruct (Z.ltb_spec (2 ^ 63 - 1) (now - (from - 2 ^ 64) * 1000000000)); lia.
Qed.

(** No window has a retention above the largest [Duration]. *)
Lemma first_window_maxDuration ws :
  Forall (λ w, Retention w ≤ time.maxDuration) ws →
  first_window time.maxDuration ws = None.
Proof.
  unfold first_window. induction 1 as [|w ws Hw _ IH]; simpl; [done|].
  destruct (Z.ltb_spec time.maxDuration (Retention w)); [lia|done].
Qed.

(** So a request whose [from] wraps selects no window, at any time after
    the epoch. *)
Lemma first_window_wrapped_from now from ws :
  0 ≤ now → 2 ^ 63 - time.unixToInternal ≤ from < 2 ^ 63 →
  Forall (λ w, Retention w ≤ time.maxDuration) ws →
  first_window (time.Sub now (time.Unix from 0)) ws = None.
Proof.
  intros Hnow Hfrom Hws. rewrite (timeDelta_wrapped _ _ Hnow Hfrom).
  by apply first_window_maxDuration.
Qed.

Lemma choose_window_first timeDelta ws ts w :
  first_window timeDelta ws = Some w →
  choose_window timeDelta ws ts = (Table w, window_step w).
Proof.
  unfold first_window. induction ws as [|w0 ws IH]; simpl; [done|].
  destruct (timeDelta <? Retention w0); [by intros [= ->]|done].
Qed.

Lemma choose_window_none timeDelta ws ts :
  first_window timeDelta ws = None → choose_window timeDelta ws ts = ts.
Proof.
  unfold first_window. induction ws as [|w0 ws IH]; simpl; [done|].
  by destruct (timeDelta <? Retention w0).
Qed.

(** The window that the code selects is the first one, in declaration
    order, whose retention exceeds [timeDelta]. *)
Lemma first_window_spec timeDelta ws w :
  first_window timeDelta ws = Some w ↔
  ∃ ws1 ws2, ws = ws1 ++ w :: ws2 ∧ timeDelta < Retention w ∧
             Forall (λ w', Retention w' ≤ timeDelta) ws1.
Proof.
  unfold first_window. split.
  - induction ws as [|w0 ws IH]; simpl; [done|].
    destruct (timeDelta <? Retention w0) eqn:Hlt.
    + intros [= ->]. exists [], ws. split; [done|]. split; [|done].
      by apply Z.ltb_lt.
    + intros (ws1 & ws2 & -> & Hw & Hws1)%IH. exists (w0 :: ws1), ws2.
      split; [done|]. split; [done|]. constructor; [|done]. by apply Z.ltb_ge.
  - intros (ws1 & ws2 & -> & Hw & Hws1).
    induction Hws1 as [|w0 ws1 Hw0 _ IH]; simpl.
    + by assert ((timeDelta <? Retention w) = true) as -> by by apply Z.ltb_lt.
    + by assert ((timeDelta <? Retention w0) = false) as -> by by apply Z.ltb_ge.
Qed.


Lemma queryGET_loop_returns sm now q :
  config_ok sm → ∃ st, queryGET_loop sm now q = Some st.
Proof.
  intros Hcfg. unfold queryGET_loop.
  destruct (foldlM_total
              (queryGET_path sm (time.Sub now (time.Unix (mq_From q) 0)) q)
              (λ _, True) (mq_Query q) querying_init) as (st & Hst & _);
    [|done|by exists st].
  intros st p _ _. unfold queryGET_path.
  destruct (getExpression_returns sm p Hcfg) as (expr & -> & _). simpl.
  by eexists.
Qed.

(** C2, as the code has it.  For every request and every path in it, with
    [timeDelta] the value of [time.Since(time.Unix(q.From, 0))] -- the
    difference [now - from] saturated to the range of [Duration], with the
    seconds of [from] wrapped as [time.Unix] wraps them: if some window of
    the path's classified expression has a retention strictly greater than
    [timeDelta], then the first such window in declaration order is
    selected, its table is used in the path's [SELECT], which is bound to
    [time.Unix(q.From, 0)] and [time.Unix(q.To, 0)], and [step] is set to
    its duration in seconds; for the last path of the request this is the
    [step] of the response. *)
Theorem queryGET_selects_first_window sm now q pre path post st expr w :
  mq_Query q = pre ++ path :: post →
  foldlM (queryGET_path sm (time.Sub now (time.Unix (mq_From q) 0)) q)
    querying_init pre = Some st →
  getExpression sm path = Some expr →
  first_window (time.Sub now (time.Unix (mq_From q) 0))
    (rollup_Windows G_Rollup expr) = Some w →
  ∃ st',
    queryGET_path sm (time.Sub now (time.Unix (mq_From q) 0)) q st path = Some st' ∧
    qs_table st' = Table w ∧
    qs_step st' = window_step w ∧
    qs_selects st'
    = qs_selects st ++ [{| sel_stmt := select_stmt (Table w); sel_path := path;
                           sel_from := time.Unix (mq_From q) 0;
                           sel_to := time.Unix (mq_To q) 0 |}] ∧
    (post = [] →
       queryGET_loop sm now q = Some st' ∧
       mr_Step (queryGET_response q st') = window_step w).
Proof.
  intros Hq Hpre Hexpr Hw. unfold queryGET_path. rewrite Hexpr. simpl.
  rewrite (choose_window_first _ _ _ w Hw). simpl.
  eexists. split; [done|]. simpl. split_and!; try done.
  intros ->. split; [|done]. unfold queryGET_loop. rewrite Hq, foldlM_app, Hpre.
  simpl. unfold queryGET_path. rewrite Hexpr. simpl.
  by rewrite (choose_window_first _ _ _ w Hw).
Qed.

(** What the series of a two-path request hold: the list of stats is not
    emptied between the paths, so the entry of the second path starts with
    the stats of the first. *)
Lemma queryGET_series_two_paths sm now q p1 p2 st :
  mq_Query q = [p1; p2] → p1 ≠ p2 →
  queryGET_loop sm now q = Some st →
  ∃ s1 s2, qs_selects st = [s1; s2] ∧ sel_path s1 = p1 ∧ sel_path s2 = p2 ∧
    qs_series st !! p1 = Some (dbClient_Query s1) ∧
    qs_series st !! p2 = Some (dbClient_Query s1 ++ dbClient_Query s2).
Proof.
  intros Hq Hne. unfold queryGET_loop. rewrite Hq. simpl.
  unfold queryGET_path.
  destruct (getExpression sm p1) as [e1|]; simpl; [|done].
  destruct (getExpression sm p2) as [e2|]; simpl; [|done].
  intros [= <-]. simpl. eexists _, _. split; [done|]. simpl.
  split_and!; try done.
  - rewrite lookup_insert_ne by done. by rewrite lookup_insert_eq.
  - by rewrite lookup_insert_eq.
Qed.



(** A path none of whose windows has a retention greater than [timeDelta]
    is read from the table chosen for the path before it, and leaves [step]
    as it was. *)
Lemma queryGET_keeps_previous_window sm timeDelta q st path expr :
  getExpression sm path = Some expr →
  first_window timeDelta (rollup_Windows G_Rollup expr) = None →
  ∃ st', queryGET_path sm timeDelta q st path = Some st' ∧
         qs_table st' = qs_table st ∧ qs_step st' = qs_step st.
Proof.
  intros Hexpr Hnone. unfold queryGET_path. rewrite Hexpr. simpl.
  rewrite (choose_window_none _ _ _ Hnone). by eexists.
Qed.

(** *** The resolver *)

(** [strings.Split] returns at least one piece. *)
Lemma Split_go_cons sep cur s :
  ∃ x l, gostrings.Split_go sep cur s = x :: l.
Proof.
  revert cur. induction s as [|c s IH]; intros cur; simpl.
  - by eexists _, _.
  - destruct (Ascii.eqb c sep); [by eexists _, _|apply IH].
Qed.

Lemma Split_cons s sep : ∃ x l, gostrings.Split s sep = x :: l.
Proof. apply Split_go_cons. Qed.

(** The lower bound of a scan starts with a bracket, so [getMax] can
    slice it. *)
Lemma getMax_bracket t : is_Some (getMax (String "["%char t)).
Proof.
  unfold getMax. rewrite decide_False by done. case_decide; by eexists.
Qed.

(** A scan whose own lookup fails takes the early return. *)
Lemma scan_lookup_of_failed queryString :
  lookup_of_failed queryString → scan queryString = Some None.
Proof.
  intros (queryStringMax & Hmax & Hfail). unfold scan. rewrite Hmax. simpl.
  by rewrite decide_True.
Qed.

(** C4, as the code has it.  For every resolve query -- exact, prefix or
    multi-wildcard -- if the index lookup of that query, the ZRANGEBYLEX
    over its own range, returns an error or zero members, the resolver does
    not panic and answers the nil byte slice: zero bytes, not the
    serialization of a list.  Nothing is assumed of the other lookups of the
    index. *)
Theorem query_lookup_failed statQuery :
  lookup_of_failed (query_queryString statQuery) →
  query statQuery = Some "" ∧
  (∀ q l, lookup_of_failed (noWild_queryString q l) → noWild q l = Some "") ∧
  (∀ q l, lookup_of_failed (simpleWild_queryString q l) →
          simpleWild q l = Some "") ∧
  (∀ splitWild l, splitWild ≠ [] →
     lookup_of_failed (complexWild_queryString splitWild l) →
     complexWild splitWild l = Some "").
Proof.
  intros Hfail.
  assert (Hno : ∀ q l, lookup_of_failed (noWild_queryString q l) →
                  noWild q l = Some "").
  { intros q l Hf. unfold noWild.
    change (gostrings.Join ["["; ToBigEndianString l; ":"; q; ":"] "")
      with (noWild_queryString q l).
    by rewrite (scan_lookup_of_failed _ Hf). }
  assert (Hsimple : ∀ q l, lookup_of_failed (simpleWild_queryString q l) →
                      simpleWild q l = Some "").
  { intros q l Hf. unfold simpleWild.
    change (gostrings.Join ["["; ToBigEndianString l; ":"; q] "")
      with (simpleWild_queryString q l).
    by rewrite (scan_lookup_of_failed _ Hf). }
  assert (Hcomplex : ∀ splitWild l, splitWild ≠ [] →
                       lookup_of_failed (complexWild_queryString splitWild l) →
                       complexWild splitWild l = Some "").
  { intros [|first rest] l Hne Hf; [done|].
    pose proof (scan_lookup_of_failed _ Hf) as Hscan.
    unfold complexWild_queryString in Hscan.
    change (default "" (head (first :: rest))) with first in Hscan.
    unfold complexWild. cbn -[scan gostrings.Join]. by rewrite Hscan. }
  split_and!; try done.
  revert Hfail. unfold query, query_queryString.
  destruct (Split_cons statQuery "*") as (first & rest & ->).
  cbv zeta. repeat case_decide; intros Hf.
  - by apply Hno.
  - cbn -[simpleWild]. by apply Hsimple.
  - by apply Hcomplex.
Qed.

(** *** Consequences for runs of the event loop *)

(** After [flush], with windows of positive width, no closing time is
    before [baseTime]; each one is later than [baseTime] when terminating;
    and one that equals [baseTime] is that of a window which closed exactly
    at [baseTime] and was left as it was. *)
Lemma flush_closing_times terminating baseTime timerReady sm :
  wf sm → windows_positive sm →
  ∃ res,
    flush terminating baseTime timerReady sm = Some res ∧
    ∀ expr rl' i t,
      sm_byExpr (fr_sm res) !! expr = Some rl' →
      runlist_nextWriteTime rl' !! i = Some t →
      baseTime ≤ t ∧
      (terminating = true → baseTime < t) ∧
      (t = baseTime →
         ∃ rl, sm_byExpr sm !! expr = Some rl ∧
               runlist_nextWriteTime rl !! i = Some baseTime).
Proof.
  intros Hwf Hpos.
  destruct (flush_walk_spec terminating baseTime sm Hwf)
    as (st & Hrun & [Hev _] & _ & _ & _ & _ & Hnone & Hnwt & _).
  unfold flush. rewrite Hrun. simpl. eexists. split; [done|]. simpl.
  intros expr rl' i t Hrl' Ht.
  destruct (sm_byExpr sm !! expr) as [rl|] eqn:Hrl;
    [|rewrite (Hnone expr Hrl) in Hrl'; done].
  destruct (Hnwt expr rl Hrl) as (rl1 & Hrl1 & _ & Hwes).
  assert (rl1 = rl') as -> by congruence.
  assert (length (runlist_nextWriteTime rl') = length (runlist_nextWriteTime rl))
    as Hlen.
  { specialize (Hev expr). simpl in Hev. rewrite Hrl, Hrl' in Hev.
    by inversion Hev as [? ? [_ Hl]|]. }
  destruct (lookup_lt_is_Some_2 (runlist_nextWriteTime rl) i) as [windowEnd Hwe].
  { rewrite <- Hlen. by eapply lookup_lt_Some. }
  destruct (Hwes i windowEnd Hwe) as (w & Hw & Hres).
  assert (Hwpos : 0 < Window w).
  { unfold rollup_Windows in Hw.
    destruct (sm_rollup sm !! expr) as [d|] eqn:Hd; [|done].
    apply (Hpos expr d w Hd). by eapply list_elem_of_lookup_2. }
  pose proof (nextTimeBoundary_later baseTime (Window w) Hwpos) as Hlater.
  rewrite Ht in Hres. injection Hres as ->.
  unfold window_due, time.Before.
  destruct (windowEnd <? baseTime) eqn:Hbefore; simpl.
  - split_and!; [lia|intros _; lia|lia].
  - apply Z.ltb_ge in Hbefore. destruct terminating.
    + split_and!; [lia|intros _; lia|lia].
    + split_and!; [lia|done|]. intros ->. by exists rl.
Qed.

(** Over a run of samples and flushes on well-formed rollup data, the
    index-write channel receives the samples that brought a path not seen
    before, each such path once. *)
Lemma index_write_once (ops : list op) :
  ∀ sm, wf sm →
  ∃ sm' sent,
    run_ops sm ops = Some (sm', sent) ∧
    wf sm' ∧
    NoDup (Path <$> sent) ∧
    (∀ p, p ∈ Path <$> sent → sm_byPath sm !! p = None) ∧
    (∀ p, is_Some (sm_byPath sm' !! p) ↔
          is_Some (sm_byPath sm !! p) ∨ p ∈ Path <$> sent) ∧
    (∀ metric, op_accumulate metric ∈ ops → is_Some (sm_byPath sm' !! Path metric)).
Proof.
  induction ops as [|o ops IH]; intros sm Hwf.
  - exists sm, []. simpl. split_and!; try done.
    + constructor.
    + intros p Hp. by apply elem_of_nil in Hp.
    + intros p. split; [by left|]. intros [?|Hp]; [done|].
      by apply elem_of_nil in Hp.
    + intros metric Hin. by apply elem_of_nil in Hin.
  - assert (∃ sm1 sent1,
              run_op sm o = Some (sm1, sent1) ∧ wf sm1 ∧
              (∀ q, is_Some (sm_byPath sm1 !! q) ↔
                    is_Some (sm_byPath sm !! q) ∨ q ∈ Path <$> sent1) ∧
              (∀ q, q ∈ Path <$> sent1 → sm_byPath sm !! q = None) ∧
              NoDup (Path <$> sent1) ∧
              (∀ metric, o = op_accumulate metric →
                         is_Some (sm_byPath sm1 !! Path metric)))
      as (sm1 & sent1 & Hop & Hwf1 & Hdom1 & Hnew1 & Hnd1 & Hseen1).
    { destruct o as [metric|terminating baseTime timerReady]; simpl.
      - destruct (accumulate_sends sm metric Hwf)
          as (sm1 & sent1 & Hacc & Hnew & Hknown & Hin & Hothers & Hwf1).
        exists sm1, sent1. split; [done|]. split; [done|].
        destruct (sm_byPath sm !! Path metric) as [a|] eqn:Hp.
        + rewrite Hknown by (by eexists). simpl. split_and!.
          * intros q. destruct (decide (q = Path metric)) as [->|Hne].
            -- rewrite Hp. split; [left; by eexists|done].
            -- rewrite Hothers by done. split; [by left|].
               intros [?|Hq]; [done|]. by apply elem_of_nil in Hq.
          * intros q Hq. by apply elem_of_nil in Hq.
          * constructor.
          * intros metric' Heq. injection Heq as <-. exact Hin.
        + rewrite Hnew by done. simpl. split_and!.
          * intros q. destruct (decide (q = Path metric)) as [->|Hne].
            -- split; [right; by left|done].
            -- rewrite Hothers by done. split; [by left|].
               intros [?|Hq]; [done|].
               apply list_elem_of_singleton in Hq. done.
          * intros q Hq. apply list_elem_of_singleton in Hq. by subst.
          * apply NoDup_singleton.
          * intros metric' Heq. injection Heq as <-. exact Hin.
      - destruct (flush_returns terminating baseTime timerReady sm Hwf)
          as (res & -> & Hwf1 & Hbp). simpl.
        exists (fr_sm res), []. split; [done|]. split; [done|]. simpl.
        split_and!.
        + intros q. rewrite Hbp. split; [by left|].
          intros [?|Hq]; [done|]. by apply elem_of_nil in Hq.
        + intros q Hq. by apply elem_of_nil in Hq.
        + constructor.
        + done. }
    destruct (IH sm1 Hwf1) as (sm' & sent & Hrun & Hwf' & Hnd & Hnew & Hdom & Hseen).
    exists sm', (sent1 ++ sent). simpl. rewrite Hop. simpl. rewrite Hrun. simpl.
    split; [done|]. split; [done|]. rewrite fmap_app. split_and!.
    + apply NoDup_app. split; [done|]. split; [|done].
      intros q Hq1 Hq. apply Hnew in Hq.
      assert (is_Some (sm_byPath sm1 !! q)) as [? ?] by (apply Hdom1; by right).
      congruence.
    + intros q [Hq|Hq]%elem_of_app; [by apply Hnew1|].
      apply Hnew in Hq. destruct (sm_byPath sm !! q) as [a|] eqn:Hqa; [|done].
      assert (is_Some (sm_byPath sm1 !! q)) as [? ?]
        by (apply Hdom1; left; by eexists).
      congruence.
    + intros q. rewrite Hdom, Hdom1, elem_of_app. split.
      * intros [[Hq|Hq]|Hq]; [by left|right; by left|right; by right].
      * intros [Hq|[Hq|Hq]]; [left; by left|left; by right|by right].
    + intros metric [Heq|Hin]%elem_of_cons.
      * apply Hdom. left. by apply Hseen1.
      * by apply Hseen.
Qed.

(** *** The expression of a path *)

(** The loop of [getExpression] stops at the first expression, other than
    the catchall, whose regular expression matches. *)
Lemma getExpression_loop_first_match defs path pre e post re :
  ∀ cur,
  (∀ e', e' ∈ pre → e' ≠ ROLLUP_CATCHALL →
     ∃ re', rollup_Expression defs e' = Some re' ∧ re' path = false) →
  e ≠ ROLLUP_CATCHALL → rollup_Expression defs e = Some re → re path = true →
  getExpression_loop defs path (pre ++ e :: post) cur = Some e.
Proof.
  induction pre as [|e0 pre IH]; intros cur Hpre Hne Hre Hmatch; simpl.
  - rewrite decide_True by done. by rewrite Hre, Hmatch.
  - destruct (decide (e0 ≠ ROLLUP_CATCHALL)) as [Hne0|_].
    + destruct (Hpre e0) as (re0 & -> & ->); [by left|done|].
      apply IH; [|done..]. intros e' Hin. apply Hpre. by right.
    + apply IH; [|done..]. intros e' Hin. apply Hpre. by right.
Qed.

(** X1. [getExpression] returns the first expression of the priority list,
    other than the catchall, whose regular expression matches the path:
    the expressions before it, the catchall apart, were tried and did not
    match.  A catchall that is not last is passed over and the expressions
    after it are still tried. *)
Theorem getExpression_first_match sm path pre e post re :
  sm_rollupPriority sm = pre ++ e :: post →
  (∀ e', e' ∈ pre → e' ≠ ROLLUP_CATCHALL →
     ∃ re', rollup_Expression (sm_rollup sm) e' = Some re' ∧ re' path = false) →
  e ≠ ROLLUP_CATCHALL →
  rollup_Expression (sm_rollup sm) e = Some re → re path = true →
  getExpression sm path = Some e.
Proof.
  intros Hprio Hpre Hne Hre Hmatch. unfold getExpression. rewrite Hprio.
  by eapply getExpression_loop_first_match.
Qed.

Lemma getExpression_loop_no_match defs path prio :
  ∀ cur,
  (∀ e, e ∈ prio → e ≠ ROLLUP_CATCHALL →
     ∃ re, rollup_Expression defs e = Some re ∧ re path = false) →
  getExpression_loop defs path prio cur = Some (default cur (last prio)).
Proof.
  induction prio as [|e prio IH]; intros cur Hno; simpl; [done|].
  assert (Hrest : getExpression_loop defs path prio e
                  = Some (default cur (last (e :: prio)))).
  { rewrite IH by (intros e' Hin; apply Hno; by right).
    rewrite last_cons. by destruct (last prio). }
  destruct (decide (e ≠ ROLLUP_CATCHALL)) as [Hne|_]; [|done].
  destruct (Hno e) as (re & -> & ->); [by left|done|done].
Qed.

(** X2. When no expression other than the catchall matches the path,
    [getExpression] returns the last element of the priority list, whether
    or not that element is the catchall, and the empty string when the list
    is empty. *)
Theorem getExpression_no_match sm path :
  (∀ e, e ∈ sm_rollupPriority sm → e ≠ ROLLUP_CATCHALL →
     ∃ re, rollup_Expression (sm_rollup sm) e = Some re ∧ re path = false) →
  getExpression sm path = Some (default "" (last (sm_rollupPriority sm))).
Proof. intros Hno. by apply getExpression_loop_no_match. Qed.

Lemma getExpression_loop_panics defs path prio :
  ∀ cur,
  getExpression_loop defs path prio cur = None ↔
  ∃ pre e post,
    prio = pre ++ e :: post ∧ e ≠ ROLLUP_CATCHALL ∧
    rollup_Expression defs e = None ∧
    ∀ e', e' ∈ pre → e' ≠ ROLLUP_CATCHALL →
      ∃ re', rollup_Expression defs e' = Some re' ∧ re' path = false.
Proof.
  induction prio as [|e0 prio IH]; intros cur; simpl.
  - split; [done|]. intros (pre & e & post & Heq & _). by destruct pre.
  - destruct (decide (e0 ≠ ROLLUP_CATCHALL)) as [Hne0|Heq0].
    + destruct (rollup_Expression defs e0) as [re0|] eqn:Hre0.
      * destruct (re0 path) eqn:Hm0.
        -- split; [done|]. intros (pre & e & post & Heq & Hne & Hre & Hpre).
           destruct pre as [|e1 pre]; simpl in Heq; injection Heq as <- ->.
           ++ congruence.
           ++ destruct (Hpre e0) as (re' & Hre' & Hm'); [by left|done|].
              congruence.
        -- rewrite IH. split.
           ++ intros (pre & e & post & -> & Hne & Hre & Hpre).
              exists (e0 :: pre), e, post. split_and!; [done..|].
              intros e' [->|Hin]%elem_of_cons Hne'; [by eexists|by apply Hpre].
           ++ intros (pre & e & post & Heq & Hne & Hre & Hpre).
              destruct pre as [|e1 pre]; simpl in Heq; injection Heq as <- ->.
              ** congruence.
              ** exists pre, e, post. split_and!; [done..|].
                 intros e' Hin. apply Hpre. by right.
      * split; [intros _|done]. exists [], e0, prio. split_and!; [done..|].
        intros e' Hin. by apply elem_of_nil in Hin.
    + assert (e0 = ROLLUP_CATCHALL) as Heq.
      { destruct (decide (e0 = ROLLUP_CATCHALL)); [done|by destruct Heq0]. }
      rewrite IH. split.
      * intros (pre & e & post & -> & Hne & Hre & Hpre).
        exists (e0 :: pre), e, post. split_and!; [done..|].
        intros e' [->|Hin]%elem_of_cons Hne'; [done|by apply Hpre].
      * intros (pre & e & post & Heq' & Hne & Hre & Hpre).
        destruct pre as [|e1 pre]; simpl in Heq'; injection Heq' as <- ->.
        -- done.
        -- exists pre, e, post. split_and!; [done..|].
           intros e' Hin. apply Hpre. by right.
Qed.

(** X3. [getExpression] panics exactly when the scan of the priority list
    reaches, before any match, an expression other than the catchall that
    has no compiled regular expression (no definition in [sm.rollup], or a
    nil [Expression]): matching against the nil pointer is the only way it
    fails. *)
Theorem getExpression_panics_iff sm path :
  getExpression sm path = None ↔
  ∃ pre e post,
    sm_rollupPriority sm = pre ++ e :: post ∧ e ≠ ROLLUP_CATCHALL ∧
    rollup_Expression (sm_rollup sm) e = None ∧
    ∀ e', e' ∈ pre → e' ≠ ROLLUP_CATCHALL →
      ∃ re', rollup_Expression (sm_rollup sm) e' = Some re' ∧ re' path = false.
Proof. apply getExpression_loop_panics. Qed.

(** *** Samples and buckets *)

(** The folding rule of the specification is the code's rule for one
    bucket. *)
Lemma spec_fold_bucket_after m v c x :
  spec_fold m v c x = (bucket_after m x (c, v)).2.
Proof. destruct m; simpl; try done. by rewrite orb_comm. Qed.

Lemma bucket_after_count m x cv :
  (bucket_after m x cv).1 = gonum.uint64_add cv.1 1.
Proof. done. Qed.

(** What [accumulate] does to the rollup of a known path [p]: it folds the
    sample into each bucket when the sample is for [p], and leaves the
    rollup as it is otherwise. *)
Lemma accumulate_bucket sm metric p a :
  wf sm → sm_byPath sm !! p = Some a →
  ∃ sm' sent r d r',
    accumulate sm metric = Some (sm', sent) ∧
    sm_rollupPriority sm' = sm_rollupPriority sm ∧
    sm_rollup sm' = sm_rollup sm ∧
    sm_byPath sm' !! p = Some a ∧
    sm_heap sm !! a = Some r ∧
    sm_rollup sm !! rollup_expr r = Some d ∧
    sm_heap sm' !! a = Some r' ∧ rollup_expr r' = rollup_expr r ∧
    (Path metric ≠ p → r' = r) ∧
    (Path metric = p → ∀ i cv, bucket (sm_heap sm) a i = Some cv →
       bucket (sm_heap sm') a i
       = Some (bucket_after (Method d) (Value metric) cv)).
Proof.
  intros Hwf Hp.
  destruct (wf_known_rollup sm p a Hwf Hp) as (r & d & Hr & Hd & Hlen).
  assert (Ha : (a < length (sm_heap sm))%nat) by (by eapply lookup_lt_Some).
  destruct (decide (Path metric = p)) as [Heq|Hne].
  - rewrite <- Heq in Hp.
    destruct (accumulate_known sm metric a Hwf Hp)
      as (r0 & d0 & r' & Hr0 & Hd0 & Hr' & Hacc).
    assert (r0 = r) as -> by congruence.
    assert (d0 = d) as -> by congruence.
    destruct (apply_metric_spec (Method d) (Value metric) r Hlen)
      as (r1 & Hr1 & He & Hc & Hv & Hb).
    assert (r1 = r') as -> by congruence.
    eexists _, [], r, d, r'. split; [exact Hacc|]. simpl.
    split_and!; try done.
    + by rewrite <- Heq.
    + by apply list_lookup_insert_eq.
    + intros _ i [c v] Hbk.
      apply bucket_Some in Hbk as (r2 & Hr2 & Hci & Hvi).
      assert (r2 = r) as -> by congruence.
      destruct (Hb i v c Hvi Hci) as [Hv' Hc'].
      apply bucket_Some. exists r'. split; [by apply list_lookup_insert_eq|].
      rewrite Hc', Hv', spec_fold_bucket_after. done.
  - destruct (sm_byPath sm !! Path metric) as [a0|] eqn:Hp0.
    + destruct (accumulate_known sm metric a0 Hwf Hp0)
        as (r0 & d0 & r' & Hr0 & Hd0 & Hr' & Hacc).
      assert (a0 ≠ a) as Hna.
      { intros ->. destruct Hwf as (_ & _ & _ & _ & Hun).
        apply Hne. by apply (Hun (Path metric) p a). }
      eexists _, [], r, d, r. split; [exact Hacc|]. simpl.
      split_and!; try done. by rewrite list_lookup_insert_ne.
    + destruct (accumulate_new sm metric Hwf Hp0)
        as (expr & rl & d0 & r' & Hexpr & Hrl & Hd0 & Hr' & Hacc).
      eexists _, [metric], r, d, r. split; [exact Hacc|]. simpl.
      split_and!; try done.
      * by rewrite lookup_insert_ne.
      * by rewrite lookup_app_l.
Qed.

Lemma samples_of_cons p metric ms :
  samples_of p (metric :: ms)
  = if decide (Path metric = p) then Value metric :: samples_of p ms
    else samples_of p ms.
Proof.
  unfold samples_of. rewrite filter_cons. by destruct (decide (Path metric = p)).
Qed.

(** The count of a bucket after a run of samples. *)
Lemma foldl_bucket_after_count m (xs : list float) :
  ∀ cv, 0 ≤ cv.1 < 2 ^ 64 →
  (foldl (λ cv x, bucket_after m x cv) cv xs).1
  = (cv.1 + Z.of_nat (length xs)) mod 2 ^ 64.
Proof.
  induction xs as [|x xs IH]; intros cv Hc; simpl.
  - rewrite Z.add_0_r. symmetry. by apply Z.mod_small.
  - rewrite IH.
    + rewrite bucket_after_count. unfold gonum.uint64_add, gonum.uint64_modulus.
      rewrite Zplus_mod_idemp_l. f_equal. lia.
    + rewrite bucket_after_count. unfold gonum.uint64_add, gonum.uint64_modulus.
      apply Z.mod_pos_bound. lia.
Qed.

(** X4. Over a run of samples, the bucket [i] of a known path [p] ends as
    the fold, in the order of arrival, of the method of the path's
    expression over the values of the samples that are for [p]: samples
    for other paths leave it as it is.  Its count is the count at the start
    plus the number of these samples, modulo [2^64]. *)
Theorem accumulate_samples_fold (ms : list CarbonMetric) :
  ∀ sm p a r d i cv,
  wf sm → sm_byPath sm !! p = Some a → sm_heap sm !! a = Some r →
  sm_rollup sm !! rollup_expr r = Some d →
  bucket (sm_heap sm) a i = Some cv →
  ∃ sm' sent,
    run_ops sm (op_accumulate <$> ms) = Some (sm', sent) ∧
    sm_byPath sm' !! p = Some a ∧
    bucket (sm_heap sm') a i
    = Some (foldl (λ cv x, bucket_after (Method d) x cv) cv (samples_of p ms)) ∧
    (0 ≤ cv.1 < 2 ^ 64 →
     ∃ c v, bucket (sm_heap sm') a i = Some (c, v) ∧
            c = (cv.1 + Z.of_nat (length (samples_of p ms))) mod 2 ^ 64).
Proof.
  intros sm p a r d i cv Hwf Hp Hr Hd Hb.
  cut (∃ sm' sent,
         run_ops sm (op_accumulate <$> ms) = Some (sm', sent) ∧
         sm_byPath sm' !! p = Some a ∧
         bucket (sm_heap sm') a i
         = Some (foldl (λ cv x, bucket_after (Method d) x cv) cv (samples_of p ms))).
  { intros (sm' & sent & Hrun & Hp' & Hb'). exists sm', sent.
    split_and!; [done..|]. intros Hc.
    destruct (foldl (λ cv x, bucket_after (Method d) x cv) cv (samples_of p ms))
      as [c v] eqn:Hfold.
    exists c, v. split; [done|].
    pose proof (foldl_bucket_after_count (Method d) (samples_of p ms) cv Hc) as Hn.
    rewrite Hfold in Hn. exact Hn. }
  revert sm r cv Hwf Hp Hr Hd Hb.
  induction ms as [|metric ms IH]; intros sm r cv Hwf Hp Hr Hd Hb.
  - exists sm, []. by split_and!.
  - destruct (accumulate_bucket sm metric p a Hwf Hp)
      as (sm1 & sent1 & r0 & d0 & r1 & Hacc & Hprio1 & Hdefs1 & Hp1 & Hr0 & Hd0
          & Hr1 & He1 & Hframe & Hown).
    assert (r0 = r) as -> by congruence.
    assert (d0 = d) as -> by congruence.
    pose proof (accumulate_wf sm metric sm1 sent1 Hwf Hacc) as Hwf1.
    assert (Hd1 : sm_rollup sm1 !! rollup_expr r1 = Some d) by congruence.
    rewrite samples_of_cons. rewrite fmap_cons. simpl. rewrite Hacc. simpl.
    destruct (decide (Path metric = p)) as [Heq|Hne].
    + destruct (IH sm1 r1 (bucket_after (Method d) (Value metric) cv)
                  Hwf1 Hp1 Hr1 Hd1 (Hown Heq i cv Hb))
        as (sm' & sent & Hrun & Hp' & Hb').
      exists sm', (sent1 ++ sent). rewrite Hrun. simpl. by split_and!.
    + assert (r1 = r) as -> by (by apply Hframe).
      assert (Hb1 : bucket (sm_heap sm1) a i = Some cv).
      { unfold bucket in Hb |- *. by rewrite Hr1, <- Hr. }
      destruct (IH sm1 r cv Hwf1 Hp1 Hr1 Hd1 Hb1) as (sm' & sent & Hrun & Hp' & Hb').
      exists sm', (sent1 ++ sent). rewrite Hrun. simpl. by split_and!.
Qed.

(** X5. A sample touches the rollup of its own path only: every other
    known path keeps its pointer and its rollup object, every run list
    keeps its closing times and, the sample's path apart, its paths; the
    rollup definitions and their priority are as they were. *)
Theorem accumulate_other_paths sm metric sm' sent :
  wf sm → accumulate sm metric = Some (sm', sent) →
  sm_rollupPriority sm' = sm_rollupPriority sm ∧
  sm_rollup sm' = sm_rollup sm ∧
  (∀ p a, p ≠ Path metric → sm_byPath sm !! p = Some a →
     sm_byPath sm' !! p = Some a ∧ sm_heap sm' !! a = sm_heap sm !! a) ∧
  (∀ expr rl, sm_byExpr sm !! expr = Some rl →
     ∃ rl', sm_byExpr sm' !! expr = Some rl' ∧
            runlist_nextWriteTime rl' = runlist_nextWriteTime rl ∧
            ∀ p, p ≠ Path metric → runlist_path rl' !! p = runlist_path rl !! p).
Proof.
  intros Hwf Hacc.
  assert (Hothers : ∀ p a, p ≠ Path metric → sm_byPath sm !! p = Some a →
            sm_byPath sm' !! p = Some a ∧ sm_heap sm' !! a = sm_heap sm !! a).
  { intros p a Hne Hp.
    destruct (accumulate_bucket sm metric p a Hwf Hp)
      as (sm1 & sent1 & r & d & r1 & Hacc1 & _ & _ & Hp1 & Hr & _ & Hr1 & _
          & Hframe & _).
    assert (sm1 = sm') as -> by congruence.
    split; [done|]. rewrite Hr1, Hr. f_equal. apply Hframe. congruence. }
  destruct (sm_byPath sm !! Path metric) as [a0|] eqn:Hp0.
  - destruct (accumulate_known sm metric a0 Hwf Hp0)
      as (r0 & d0 & r' & Hr0 & Hd0 & Hr' & Heq).
    rewrite Heq in Hacc. injection Hacc as <- <-. simpl.
    split_and!; [done..|]. intros expr rl Hrl. by exists rl.
  - destruct (accumulate_new sm metric Hwf Hp0)
      as (expr0 & rl0 & d0 & r' & Hexpr & Hrl0 & Hd0 & Hr' & Heq).
    rewrite Heq in Hacc. injection Hacc as <- <-. simpl.
    split_and!; [done..|]. intros expr rl Hrl.
    destruct (decide (expr0 = expr)) as [->|Hne].
    + eexists. rewrite lookup_insert_eq. split; [done|]. simpl.
      assert (rl0 = rl) as -> by congruence. split; [done|].
      intros p Hnp. by rewrite lookup_insert_ne.
    + exists rl. by rewrite lookup_insert_ne.
Qed.

(** *** The classification of the known paths *)

Lemma getExpression_config sm sm' path :
  sm_rollupPriority sm' = sm_rollupPriority sm → sm_rollup sm' = sm_rollup sm →
  getExpression sm' path = getExpression sm path.
Proof. intros Hprio Hdefs. unfold getExpression. by rewrite Hprio, Hdefs. Qed.

Lemma classified_resetRollupData baseTime sm :
  classified (resetRollupData baseTime sm).
Proof. intros p a r Hp. simpl in Hp. by rewrite lookup_empty in Hp. Qed.

Lemma accumulate_classified sm metric sm' sent :
  wf sm → classified sm → accumulate sm metric = Some (sm', sent) →
  classified sm'.
Proof.
  intros Hwf Hcl Hacc p a r1 Hp1 Hr1.
  destruct (sm_byPath sm !! p) as [a0|] eqn:Hp.
  - destruct (accumulate_bucket sm metric p a0 Hwf Hp)
      as (sm1 & sent1 & r & d & r1' & Hacc1 & Hprio & Hdefs & Hp1' & Hr & _
          & Hr1' & He & _).
    assert (sm1 = sm') as -> by congruence.
    assert (a0 = a) as -> by congruence.
    assert (r1' = r1) as -> by congruence.
    rewrite (getExpression_config sm sm') by done.
    rewrite He. by apply (Hcl p a r).
  - destruct (decide (p = Path metric)) as [->|Hne].
    + destruct (accumulate_new sm metric Hwf Hp)
        as (expr & rl & d & r' & Hexpr & Hrl & Hd & Hr' & Heq).
      rewrite Heq in Hacc. injection Hacc as <- <-.
      simpl in Hp1, Hr1. rewrite lookup_insert_eq in Hp1. injection Hp1 as <-.
      rewrite lookup_app_r in Hr1 by done. rewrite Nat.sub_diag in Hr1.
      injection Hr1 as <-.
      destruct (apply_metric_spec (Method d) (Value metric)
                  (new_rollup (sm_rollup sm) expr) (new_rollup_lengths _ _))
        as (r1 & Hr1 & He & _).
      assert (r1 = r') as -> by congruence.
      rewrite He. simpl. exact Hexpr.
    + destruct (accumulate_sends sm metric Hwf)
        as (sm1 & sent1 & Hacc1 & _ & _ & _ & Hothers & _).
      assert (sm1 = sm') as -> by congruence.
      rewrite (Hothers p Hne), Hp in Hp1. done.
Qed.

Lemma flush_classified terminating baseTime timerReady sm res :
  wf sm → classified sm → flush terminating baseTime timerReady sm = Some res →
  classified (fr_sm res).
Proof.
  intros Hwf Hcl Hfl.
  destruct (flush_walk_spec terminating baseTime sm Hwf) as (st & Hrun & [_ Hev] & _).
  unfold flush in Hfl. rewrite Hrun in Hfl. simpl in Hfl. injection Hfl as <-.
  intros p a r' Hp Hr'. simpl in Hp, Hr'.
  destruct (wf_known_rollup sm p a Hwf Hp) as (r & _ & Hr & _).
  destruct (Hev a r Hr) as (r'' & Hr'' & He & _).
  assert (r'' = r') as -> by congruence.
  rewrite He. by apply (Hcl p a r).
Qed.

Lemma reachable_wf_classified cfg sm :
  config_ok cfg → reachable cfg sm → wf sm ∧ classified sm.
Proof.
  intros Hcfg Hreach. induction Hreach as [baseTime|sm sm' _ [Hwf Hcl] Hstep].
  - split; [by apply wf_resetRollupData|apply classified_resetRollupData].
  - destruct Hstep as [baseTime|metric sm' sent Hacc
                       |terminating baseTime timerReady res Hfl].
    + destruct Hwf as [Hc _].
      split; [by apply wf_resetRollupData|apply classified_resetRollupData].
    + split; [by eapply accumulate_wf|by eapply accumulate_classified].
    + split; [|by eapply flush_classified].
      destruct (flush_returns terminating baseTime timerReady sm Hwf)
        as (res' & Hfl' & Hwf' & _).
      by assert (res' = res) as -> by congruence.
Qed.

(** X6. At every point between operations of the event loop, started on a
    usable configuration, each known path is filed under the expression
    that [getExpression] yields for it: its rollup object carries that
    expression, the run list of that expression holds the path with the
    same pointer, and the rollup has one count and one value per window of
    the expression's definition. *)
Theorem reachable_paths_classified cfg sm p a :
  config_ok cfg → reachable cfg sm → sm_byPath sm !! p = Some a →
  ∃ r expr rl d,
    sm_heap sm !! a = Some r ∧ rollup_expr r = expr ∧
    getExpression sm p = Some expr ∧
    sm_byExpr sm !! expr = Some rl ∧ runlist_path rl !! p = Some a ∧
    sm_rollup sm !! expr = Some d ∧
    length (rollup_count r) = length (Windows d) ∧
    length (rollup_value r) = length (Windows d) ∧
    length (runlist_nextWriteTime rl) = length (Windows d).
Proof.
  intros Hcfg Hreach Hp.
  destruct (reachable_wf_classified cfg sm Hcfg Hreach) as [Hwf Hcl].
  destruct (wf_known_rollup sm p a Hwf Hp) as (r & d & Hr & Hd & _).
  destruct Hwf as (_ & [_ Hnwt] & Htwo & Hroll & _).
  apply Htwo in Hp as (expr & rl & Hrl & Hp).
  destruct (Hroll expr rl p a Hrl Hp) as (r0 & Hr0 & He & Hc & Hv).
  assert (r0 = r) as -> by congruence. subst expr.
  specialize (Hnwt (rollup_expr r) rl Hrl). unfold rollup_Windows in Hnwt.
  rewrite Hd in Hnwt.
  exists r, (rollup_expr r), rl, d. split_and!; try done.
  - apply (Hcl p a r); [|done]. apply Htwo. eauto.
  - congruence.
  - congruence.
Qed.

(** *** Resets, and runs of the event loop *)

(** X7. After [resetRollupData] every path is new again: the next sample,
    whatever its path, is sent on the index-write channel, also when its
    path had been announced before the reset, and its rollup starts from
    empty buckets, each one window of the expression that [getExpression]
    yields, holding the sample alone. *)
Theorem reset_reannounces baseTime sm metric :
  config_ok sm →
  ∃ sm' expr d,
    accumulate (resetRollupData baseTime sm) metric = Some (sm', [metric]) ∧
    getExpression sm (Path metric) = Some expr ∧
    sm_rollup sm !! expr = Some d ∧
    sm_byPath sm' = {[Path metric := length (sm_heap sm)]} ∧
    ∀ i, (i < length (Windows d))%nat →
      bucket (sm_heap sm') (length (sm_heap sm)) i
      = Some (bucket_after (Method d) (Value metric) (0, 0%float)).
Proof.
  intros Hcfg.
  pose proof (wf_resetRollupData baseTime sm Hcfg) as Hwf.
  destruct (accumulate_new (resetRollupData baseTime sm) metric Hwf)
    as (expr & rl & d & r' & Hexpr & Hrl & Hd & Hr' & Hacc); [done|].
  simpl in Hd, Hr'.
  destruct (apply_metric_spec (Method d) (Value metric)
              (new_rollup (sm_rollup sm) expr) (new_rollup_lengths _ _))
    as (r1 & Hr1 & _ & _ & _ & Hb).
  assert (r1 = r') as -> by congruence.
  exists (with_new_path (resetRollupData baseTime sm) (Path metric) expr rl r'),
    expr, d.
  split; [exact Hacc|]. split; [exact Hexpr|]. split; [exact Hd|].
  split; [done|]. intros i Hi. simpl.
  assert (Hn : length (rollup_Windows (sm_rollup sm) expr) = length (Windows d)).
  { unfold rollup_Windows. by rewrite Hd. }
  destruct (Hb i 0%float 0) as [Hv Hc].
  { simpl. apply lookup_replicate_2. lia. }
  { simpl. apply lookup_replicate_2. lia. }
  apply bucket_Some. exists r'. split.
  - rewrite lookup_app_r by done. by rewrite Nat.sub_diag.
  - rewrite Hc, Hv, spec_fold_bucket_after. done.
Qed.

(** X8. The PEERCHANGE case of the event loop loses no accumulated data and
    forgets every path: each bucket that holds data is written, stamped
    with the time of the flush, before the maps are emptied; afterwards no
    path is known, every run list is empty, and the next sample of any
    path is announced on the index-write channel again. *)
Theorem peer_change_flushes_and_forgets flushTime timerReady resetTime sm :
  wf sm →
  ∃ sm' bw,
    peer_change flushTime timerReady resetTime sm = Some (sm', bw) ∧
    (∀ expr rl p a i c v,
       sm_byExpr sm !! expr = Some rl → runlist_path rl !! p = Some a →
       bucket (sm_heap sm) a i = Some (c, v) → 0 < c →
       ∃ w, rollup_Windows (sm_rollup sm) expr !! i = Some w ∧
            (Table w, (p, flushTime, v)) ∈ written_rows bw) ∧
    wf sm' ∧ sm_byPath sm' = ∅ ∧
    (∀ expr rl, sm_byExpr sm' !! expr = Some rl → runlist_path rl = ∅) ∧
    ∀ metric, ∃ sm'', accumulate sm' metric = Some (sm'', [metric]).
Proof.
  intros Hwf.
  destruct (flush_walk_spec true flushTime sm Hwf)
    as (st & Hrun & Hev & Hbatch & _ & _ & _ & _ & _ & Hdue).
  pose proof (wf_during flushTime sm st Hwf Hev) as Hwf1.
  unfold peer_change, flush. rewrite Hrun. simpl.
  eexists _, _. split; [reflexivity|].
  assert (Hcfg : config_ok sm) by (by destruct Hwf).
  pose proof (wf_resetRollupData resetTime (sm_during sm st) Hcfg) as Hwf'.
  split_and!.
  - intros expr rl p a i c v Hrl Hp Hb Hc.
    destruct (proj1 (bucket_Some _ _ _ _ _) Hb) as (r & Hr & Hci & _).
    destruct Hwf as (_ & [_ Hnwt] & _ & Hroll & _).
    destruct (Hroll expr rl p a Hrl Hp) as (r0 & Hr0 & _ & Hlc & _).
    assert (r0 = r) as -> by congruence.
    destruct (lookup_lt_is_Some_2 (runlist_nextWriteTime rl) i) as [windowEnd Hwe].
    { rewrite <- Hlc. by eapply lookup_lt_Some. }
    destruct (lookup_lt_is_Some_2 (rollup_Windows (sm_rollup sm) expr) i)
      as [w Hw].
    { rewrite <- (Hnwt expr rl Hrl). by eapply lookup_lt_Some. }
    exists w. split; [done|]. rewrite written_all by done.
    destruct (Hdue expr rl i windowEnd w p a Hrl Hwe Hw
                (window_due_terminating _ _) Hp) as [_ Hemit].
    by apply (Hemit c v).
  - exact Hwf'.
  - done.
  - intros expr rl Hrl. simpl in Hrl. rewrite lookup_fmap in Hrl.
    destruct (sm_rollup sm !! expr); simpl in Hrl; [|done]. by injection Hrl as <-.
  - intros metric.
    destruct (accumulate_sends _ metric Hwf')
      as (sm'' & sent & Hacc & Hnew & _).
    exists sm''. rewrite Hnew in Hacc by done. exact Hacc.
Qed.

(** X9. On a usable configuration the event loop never panics on the rollup
    data: in every state that it reaches, [accumulate] returns for every
    sample, [flush] returns whatever the time and the mode, and [queryGET]
    returns for every request, except for the request without a query whose
    response channel has been closed. *)
Theorem run_never_panics cfg sm :
  config_ok cfg → reachable cfg sm →
  (∀ metric, is_Some (accumulate sm metric)) ∧
  (∀ terminating baseTime timerReady,
     is_Some (flush terminating baseTime timerReady sm)) ∧
  (∀ now chanClosed q,
     queryGET sm now chanClosed q = None ↔ query_missing q ∧ chanClosed = true).
Proof.
  intros Hcfg Hreach. pose proof (reachable_wf cfg sm Hcfg Hreach) as Hwf.
  split_and!.
  - intros metric.
    destruct (accumulate_sends sm metric Hwf) as (sm' & sent & Hacc & _).
    by eexists.
  - intros terminating baseTime timerReady.
    destruct (flush_returns terminating baseTime timerReady sm Hwf)
      as (res & Hfl & _).
    by eexists.
  - intros now chanClosed q. unfold queryGET.
    destruct (decide (query_missing q)) as [Hq|Hq].
    + destruct chanClosed; [done|]. split; [done|]. by intros [_ ?].
    + destruct (queryGET_loop_returns sm now q) as [st Hst]; [by destruct Hwf|].
      rewrite Hst. simpl. split; [done|]. by intros [? _].
Qed.

(** What [accumulate] sends on the index-write channel is its sample. *)
Lemma accumulate_sent sm metric sm' sent :
  accumulate sm metric = Some (sm', sent) → sent = [] ∨ sent = [metric].
Proof.
  unfold accumulate. intros Hacc.
  destruct (locate sm metric) as [[[sm1 a] sent1]|] eqn:Hloc; simpl in Hacc;
    [|done].
  destruct (sm_heap sm1 !! a) as [r|]; simpl in Hacc; [|done].
  destruct (apply_metric _ _ r); simpl in Hacc; [|done].
  injection Hacc as <- <-.
  unfold locate in Hloc. destruct (sm_byPath sm !! Path metric) as [a0|].
  - injection Hloc as <- <- <-. by left.
  - destruct (getExpression sm (Path metric)) as [expr|]; simpl in Hloc; [|done].
    destruct (sm_byExpr sm !! expr) as [rl|]; simpl in Hloc; [|done].
    injection Hloc as <- <- <-. by right.
Qed.

(** What is sent on the index-write channel is a sample of the run. *)
Lemma run_ops_sent (ops : list op) :
  ∀ sm sm' sent,
  run_ops sm ops = Some (sm', sent) →
  ∀ metric, metric ∈ sent → op_accumulate metric ∈ ops.
Proof.
  induction ops as [|o ops IH]; intros sm sm' sent Hrun metric Hin; simpl in Hrun.
  - injection Hrun as <- <-. by apply elem_of_nil in Hin.
  - destruct (run_op sm o) as [[sm1 sent1]|] eqn:Hop; simpl in Hrun; [|done].
    destruct (run_ops sm1 ops) as [[sm2 sent2]|] eqn:Hrest; simpl in Hrun; [|done].
    injection Hrun as <- <-. apply elem_of_cons.
    apply elem_of_app in Hin as [Hin|Hin]; [left|right; by eapply IH].
    destruct o as [metric0|terminating baseTime timerReady]; simpl in Hop.
    + destruct (accumulate_sent sm metric0 sm1 sent1 Hop) as [-> | ->].
      * by apply elem_of_nil in Hin.
      * apply list_elem_of_singleton in Hin. by rewrite Hin.
    + destruct (flush terminating baseTime timerReady sm); simpl in Hop; [|done].
      injection Hop as <- <-. by apply elem_of_nil in Hin.
Qed.

(** X10. Over a run of samples and flushes, the index-write channel receives
    one sample for each path that was not known at the start and has a
    sample in the run, and nothing else: no path is announced twice, and a
    flush announces nothing. *)
Theorem index_store_once (ops : list op) sm :
  wf sm →
  ∃ sm' sent,
    run_ops sm ops = Some (sm', sent) ∧
    NoDup (Path <$> sent) ∧
    ∀ p, p ∈ Path <$> sent ↔
         sm_byPath sm !! p = None ∧
         ∃ metric, op_accumulate metric ∈ ops ∧ Path metric = p.
Proof.
  intros Hwf.
  destruct (index_write_once ops sm Hwf)
    as (sm' & sent & Hrun & _ & Hnd & Hnew & Hdom & Hseen).
  exists sm', sent. split; [done|]. split; [done|]. intros p. split.
  - intros Hp. split; [by apply Hnew|].
    apply list_elem_of_fmap in Hp as (metric & -> & Hin).
    exists metric. split; [|done]. by eapply run_ops_sent.
  - intros [Hp (metric & Hin & <-)].
    destruct (proj1 (Hdom (Path metric)) (Hseen metric Hin)) as [[a Ha]|Hs];
      [congruence|done].
Qed.

(** *** Where the rows of a flush come from *)

(** Every row that the loop over the paths hands to the batch writer is the
    bucket [i], holding data, of one of the paths. *)
Lemma flush_paths_origin i statTime (L : list (string * nat)) :
  ∀ h bw h' bw',
  foldlM (flush_path i statTime) (h, bw) L = Some (h', bw') →
  ∀ tr, tr ∈ all_rows bw' →
    tr ∈ all_rows bw ∨
    ∃ p a c v, (p, a) ∈ L ∧ bucket h a i = Some (c, v) ∧ 0 < c ∧
               tr = (bw_table bw, (p, statTime, v)).
Proof.
  induction L as [|[p0 a0] L IH]; intros h bw h' bw' Hrun tr Htr; simpl in Hrun.
  - injection Hrun as <- <-. by left.
  - destruct (flush_path i statTime (h, bw) (p0, a0)) as [[h1 bw1]|] eqn:Hstep;
      [|done].
    destruct (flush_path_inv _ _ _ _ _ _ _ _ Hstep)
      as (r0 & c0 & v0 & Hr0 & Hb0 & -> & ->).
    assert (Htab : bw_table (if 0 <? c0 then Append p0 statTime v0 bw else bw)
                   = bw_table bw).
    { destruct (0 <? c0); [apply bw_table_Append|done]. }
    destruct (IH _ _ _ _ Hrun tr Htr) as [Hin1|(p & a & c & v & Hin & Hb & Hc & ->)].
    + destruct (0 <? c0) eqn:Hc0; [|by left].
      rewrite all_rows_Append in Hin1.
      apply elem_of_app in Hin1 as [?|Heq%list_elem_of_singleton]; [by left|].
      right. exists p0, a0, c0, v0.
      split_and!; [by left|done|by apply Z.ltb_lt|done].
    + right. exists p, a, c, v.
      assert (a ≠ a0) as Hne.
      { intros ->. rewrite (bucket_cleared _ _ _ _ _ _ Hr0 Hb0) in Hb.
        injection Hb as <- <-. lia. }
      rewrite bucket_frame in Hb by (done || by intros [? _]).
      rewrite Htab. split_and!; [by right|done..].
Qed.

(** Every row that one window hands to the batch writer is the bucket,
    holding data, of a path of the run list, and the window was due. *)
Lemma flush_window_origin terminating baseTime defs expr st i st' :
  flush_window terminating baseTime defs expr st i = Some st' →
  ∀ tr, tr ∈ all_rows (fl_bw st') →
    tr ∈ all_rows (fl_bw st) ∨
    ∃ rl windowEnd w p a c v,
      fl_byExpr st !! expr = Some rl ∧
      runlist_nextWriteTime rl !! i = Some windowEnd ∧
      window_due terminating baseTime windowEnd = true ∧
      rollup_Windows defs expr !! i = Some w ∧
      runlist_path rl !! p = Some a ∧
      bucket (fl_heap st) a i = Some (c, v) ∧ 0 < c ∧
      tr = (Table w, (p, window_statTime terminating baseTime windowEnd, v)).
Proof.
  unfold flush_window. intros Hfw tr Htr.
  destruct (fl_byExpr st !! expr) as [rl|] eqn:Hrl; simpl in Hfw; [|done].
  destruct (runlist_nextWriteTime rl !! i) as [windowEnd|] eqn:Hwe;
    simpl in Hfw; [|done].
  destruct (window_due terminating baseTime windowEnd) eqn:Hdue.
  - destruct (rollup_Windows defs expr !! i) as [w|] eqn:Hw; simpl in Hfw; [|done].
    destruct (foldlM (flush_path i (window_statTime terminating baseTime windowEnd))
                (fl_heap st, Prepare (Table w) (fl_bw st))
                (range_order nat (runlist_path rl))) as [[h' bw']|] eqn:Hrun;
      simpl in Hfw; [|done].
    rewrite lookup_insert_eq in Hfw. simpl in Hfw.
    destruct (<[i:=nextTimeBoundary baseTime (Window w)]>
                (runlist_nextWriteTime rl) !! i) as [t|]; simpl in Hfw; [|done].
    injection Hfw as <-. rewrite lower_nextFlush_bw in Htr. simpl in Htr.
    rewrite (proj1 (residual_written bw')) in Htr.
    destruct (flush_paths_origin _ _ _ _ _ _ _ Hrun tr Htr)
      as [Hin|(p & a & c & v & Hin & Hb & Hc & ->)].
    + left. by rewrite all_rows_Prepare in Hin.
    + right. exists rl, windowEnd, w, p, a, c, v. rewrite bw_table_Prepare.
      split_and!; try done. by apply range_order_elem.
  - simpl in Hfw. rewrite Hrl in Hfw. simpl in Hfw. rewrite Hwe in Hfw.
    simpl in Hfw. injection Hfw as <-. rewrite lower_nextFlush_bw in Htr. by left.
Qed.

(** One window, on well-formed rollup data: the facts that the loops over
    the windows and the expressions build on. *)
Lemma flush_window_step terminating baseTime sm st expr rl i windowEnd :
  wf (sm_during sm st) →
  fl_byExpr st !! expr = Some rl →
  runlist_nextWriteTime rl !! i = Some windowEnd →
  bw_batch (fl_bw st) = [] →
  ∃ st1 rl1 x,
    flush_window terminating baseTime (sm_rollup sm) expr st i = Some st1 ∧
    wf (sm_during sm st1) ∧ bw_batch (fl_bw st1) = [] ∧
    fl_byExpr st1 !! expr = Some rl1 ∧
    runlist_path rl1 = runlist_path rl ∧
    length (runlist_nextWriteTime rl1) = length (runlist_nextWriteTime rl) ∧
    runlist_nextWriteTime rl1 !! i = Some x ∧
    (∀ j, j ≠ i → runlist_nextWriteTime rl1 !! j = runlist_nextWriteTime rl !! j) ∧
    (∀ e, e ≠ expr → fl_byExpr st1 !! e = fl_byExpr st !! e) ∧
    fl_nextFlush st1 = Z.min (fl_nextFlush st) x ∧
    (∀ b j, bucket (fl_heap st1) b j = bucket (fl_heap st) b j ∨
       bucket (fl_heap st1) b j = Some (0, 0%float) ∧ j = i ∧
       (∃ p, runlist_path rl !! p = Some b) ∧
       window_due terminating baseTime windowEnd = true).
Proof.
  intros Hwf Hrl Hwe Hbatch.
  destruct (flush_window_spec terminating baseTime sm st expr rl i windowEnd
              Hwf Hrl Hwe Hbatch)
    as (st1 & w & Hrun1 & Hw & Hev1 & Hbatch1 & _ & Hframe1 & _ & _ & Hothers1
        & Hdue1).
  pose proof (wf_during_evolves sm st st1 Hwf Hev1) as Hwf1.
  assert (Hi : (i < length (runlist_nextWriteTime rl))%nat)
    by (by eapply lookup_lt_Some).
  destruct (window_due terminating baseTime windowEnd) eqn:Hdue.
  - destruct Hdue1 as (Hrl1 & Hnf & Hzero & _).
    eexists st1, _, (nextTimeBoundary baseTime (Window w)).
    split; [done|]. split; [done|]. split; [done|]. split; [exact Hrl1|].
    simpl. split_and!; try done.
    + by rewrite length_insert.
    + by apply list_lookup_insert_eq.
    + intros j Hne. by rewrite list_lookup_insert_ne.
    + intros b j.
      destruct (decide (j = i ∧ b ∈ (range_order nat (runlist_path rl)).*2))
        as [[-> Hin]|Hno].
      * apply range_order_snd_elem in Hin as [p Hp].
        right. split_and!; [by eapply Hzero|done|by exists p|done].
      * left. apply Hframe1. intros [-> Hp]. apply Hno. split; [done|].
        by apply range_order_snd_elem.
  - destruct Hdue1 as (Hb & Hh & _ & Hnf).
    exists st1, rl, windowEnd. rewrite Hb, Hh. split_and!; try done.
    intros b j. by left.
Qed.

(** The loop over a list [ws] of distinct window indices of the run list
    [rl] of [expr]: where its rows come from, which buckets it empties, and
    what it makes of [nextFlush]. *)
Lemma flush_windows_exact terminating baseTime sm expr (ws : list nat) :
  ∀ st rl st',
  wf (sm_during sm st) →
  fl_byExpr st !! expr = Some rl →
  bw_batch (fl_bw st) = [] →
  NoDup ws →
  (∀ i, i ∈ ws → (i < length (runlist_nextWriteTime rl))%nat) →
  foldlM (flush_window terminating baseTime (sm_rollup sm) expr) st ws = Some st' →
  (∀ tr, tr ∈ all_rows (fl_bw st') →
     tr ∈ all_rows (fl_bw st) ∨
     ∃ i windowEnd w p a c v,
       i ∈ ws ∧ runlist_nextWriteTime rl !! i = Some windowEnd ∧
       window_due terminating baseTime windowEnd = true ∧
       rollup_Windows (sm_rollup sm) expr !! i = Some w ∧
       runlist_path rl !! p = Some a ∧
       bucket (fl_heap st) a i = Some (c, v) ∧ 0 < c ∧
       tr = (Table w, (p, window_statTime terminating baseTime windowEnd, v))) ∧
  (∀ b j, bucket (fl_heap st') b j = bucket (fl_heap st) b j ∨
     bucket (fl_heap st') b j = Some (0, 0%float) ∧ j ∈ ws ∧
     ∃ p windowEnd, runlist_path rl !! p = Some b ∧
       runlist_nextWriteTime rl !! j = Some windowEnd ∧
       window_due terminating baseTime windowEnd = true) ∧
  fl_nextFlush st' ≤ fl_nextFlush st ∧
  (∀ rl' i t, fl_byExpr st' !! expr = Some rl' → i ∈ ws →
     runlist_nextWriteTime rl' !! i = Some t → fl_nextFlush st' ≤ t) ∧
  (fl_nextFlush st' = fl_nextFlush st ∨
   ∃ rl' i, fl_byExpr st' !! expr = Some rl' ∧ i ∈ ws ∧
     runlist_nextWriteTime rl' !! i = Some (fl_nextFlush st')).
Proof.
  induction ws as [|i0 ws IH]; intros st rl st' Hwf Hrl Hbatch Hnd Hlt Hrun.
  - simpl in Hrun. injection Hrun as <-. split_and!.
    + intros tr Htr. by left.
    + intros b j. by left.
    + done.
    + intros rl' i t _ Hin. by apply elem_of_nil in Hin.
    + by left.
  - apply NoDup_cons in Hnd as [Hnin Hnd].
    destruct (lookup_lt_is_Some_2 (runlist_nextWriteTime rl) i0) as [we0 Hwe0].
    { apply Hlt. by left. }
    destruct (flush_window_step terminating baseTime sm st expr rl i0 we0
                Hwf Hrl Hwe0 Hbatch)
      as (st1 & rl1 & x & Hrun1 & Hwf1 & Hbatch1 & Hrl1 & Hpath1 & Hlen1 & Hx
          & Hnwt1 & Hothers1 & Hnf1 & Hb1).
    simpl in Hrun. rewrite Hrun1 in Hrun.
    assert (Hlt1 : ∀ i, i ∈ ws → (i < length (runlist_nextWriteTime rl1))%nat).
    { intros i Hin. rewrite Hlen1. apply Hlt. by right. }
    destruct (IH st1 rl1 st' Hwf1 Hrl1 Hbatch1 Hnd Hlt1 Hrun)
      as (Horig & Hb & Hle & Hmin & Hatt).
    (* the closing time of the first window is not touched again *)
    assert (Hkeep : ∀ rl', fl_byExpr st' !! expr = Some rl' →
                      runlist_nextWriteTime rl' !! i0 = Some x).
    { intros rl' Hrl'.
      destruct (flush_windows_spec terminating baseTime sm expr ws st1 rl1
                  Hwf1 Hrl1 Hbatch1 Hnd Hlt1)
        as (st2 & rl2 & Hrun2 & _ & _ & _ & _ & _ & _ & _ & Hrl2 & _ & Hnwt2 & _).
      assert (st2 = st') as -> by congruence.
      assert (rl2 = rl') as -> by congruence.
      destruct (Hnwt2 i0 x Hx) as (w & _ & Hres).
      by rewrite decide_False in Hres. }
    split_and!.
    + intros tr Htr.
      destruct (Horig tr Htr)
        as [Htr1|(i & windowEnd & w & p & a & c & v & Hin & Hwe & Hdue & Hw & Hp
                  & Hbk & Hc & ->)].
      * destruct (flush_window_origin _ _ _ _ _ _ _ Hrun1 tr Htr1)
          as [?|(rl0 & windowEnd & w & p & a & c & v & Hrl0 & Hwe & Hdue & Hw & Hp
                 & Hbk & Hc & ->)]; [by left|].
        assert (rl0 = rl) as -> by congruence.
        right. exists i0, windowEnd, w, p, a, c, v. split_and!; try done. by left.
      * right. exists i, windowEnd, w, p, a, c, v.
        assert (i ≠ i0) as Hne by (by intros ->).
        rewrite (Hnwt1 i Hne) in Hwe. rewrite Hpath1 in Hp.
        split_and!; try done; [by right|].
        destruct (Hb1 a i) as [Heq|(Hz & _)]; [by rewrite <- Heq|].
        rewrite Hz in Hbk. injection Hbk as <- <-. lia.
    + intros b j. destruct (Hb b j) as [Heq|(Hz & Hin & p & windowEnd & Hp & Hwe & Hdue)].
      * rewrite Heq.
        destruct (Hb1 b j) as [?|(Hz & -> & [p Hp] & Hdue)]; [by left|].
        right. split_and!; [done|by left|]. by exists p, we0.
      * right. split_and!; [done|by right|].
        assert (j ≠ i0) as Hne by (by intros ->).
        exists p, windowEnd. rewrite <- Hpath1, <- (Hnwt1 j Hne). done.
    + rewrite Hnf1 in Hle. lia.
    + intros rl' i t Hrl' [->|Hin]%elem_of_cons Ht.
      * rewrite (Hkeep rl' Hrl') in Ht. injection Ht as <-.
        rewrite Hnf1 in Hle. lia.
      * by apply (Hmin rl' i t).
    + destruct Hatt as [Heq|(rl' & i & Hrl' & Hin & Ht)].
      * rewrite Heq, Hnf1.
        destruct (Z.min_spec (fl_nextFlush st) x) as [[_ ->]|[_ Hm]]; [by left|].
        right.
        destruct (flush_windows_spec terminating baseTime sm expr ws st1 rl1
                    Hwf1 Hrl1 Hbatch1 Hnd Hlt1)
          as (st2 & rl2 & Hrun2 & _ & _ & _ & _ & _ & _ & _ & Hrl2 & _).
        assert (st2 = st') as -> by congruence.
        exists rl2, i0. split; [done|]. split; [by left|].
        rewrite Hm. by apply Hkeep.
      * right. exists rl', i. split; [done|]. split; [by right|done].
Qed.

(** The same for the loop over a list [ers] of run lists with distinct
    expressions, each the current run list of its expression. *)
Lemma flush_exprs_exact terminating baseTime sm (ers : list (string * runlist)) :
  ∀ st st',
  wf (sm_during sm st) →
  bw_batch (fl_bw st) = [] →
  NoDup ers.*1 →
  (∀ e rl, (e, rl) ∈ ers → fl_byExpr st !! e = Some rl) →
  foldlM (flush_expr terminating baseTime (sm_rollup sm)) st ers = Some st' →
  (∀ tr, tr ∈ all_rows (fl_bw st') →
     tr ∈ all_rows (fl_bw st) ∨
     ∃ e rl i windowEnd w p a c v,
       (e, rl) ∈ ers ∧ runlist_nextWriteTime rl !! i = Some windowEnd ∧
       window_due terminating baseTime windowEnd = true ∧
       rollup_Windows (sm_rollup sm) e !! i = Some w ∧
       runlist_path rl !! p = Some a ∧
       bucket (fl_heap st) a i = Some (c, v) ∧ 0 < c ∧
       tr = (Table w, (p, window_statTime terminating baseTime windowEnd, v))) ∧
  (∀ b j, bucket (fl_heap st') b j = bucket (fl_heap st) b j ∨
     bucket (fl_heap st') b j = Some (0, 0%float) ∧
     ∃ e rl p windowEnd, (e, rl) ∈ ers ∧ runlist_path rl !! p = Some b ∧
       runlist_nextWriteTime rl !! j = Some windowEnd ∧
       window_due terminating baseTime windowEnd = true) ∧
  fl_nextFlush st' ≤ fl_nextFlush st ∧
  (∀ e rl rl' i t, (e, rl) ∈ ers → fl_byExpr st' !! e = Some rl' →
     runlist_nextWriteTime rl' !! i = Some t → fl_nextFlush st' ≤ t) ∧
  (fl_nextFlush st' = fl_nextFlush st ∨
   ∃ e rl rl' i, (e, rl) ∈ ers ∧ fl_byExpr st' !! e = Some rl' ∧
     runlist_nextWriteTime rl' !! i = Some (fl_nextFlush st')).
Proof.
  induction ers as [|[e0 rl0] ers IH]; intros st st' Hwf Hbatch Hnd Hcur Hrun.
  - simpl in Hrun. injection Hrun as <-. split_and!.
    + intros tr Htr. by left.
    + intros b j. by left.
    + done.
    + intros e rl rl' i t Hin. by apply elem_of_nil in Hin.
    + by left.
  - rewrite fmap_cons in Hnd. simpl in Hnd. apply NoDup_cons in Hnd as [Hnin Hnd].
    assert (Hrl0 : fl_byExpr st !! e0 = Some rl0) by (apply Hcur; by left).
    assert (Hlt0 : ∀ i, i ∈ seq 0 (length (runlist_nextWriteTime rl0)) →
                     (i < length (runlist_nextWriteTime rl0))%nat).
    { intros i Hin%elem_of_seq. lia. }
    destruct (flush_windows_spec terminating baseTime sm e0
                (seq 0 (length (runlist_nextWriteTime rl0))) st rl0
                Hwf Hrl0 Hbatch (NoDup_seq _ _) Hlt0)
      as (st1 & rl1 & Hrun1 & Hev1 & Hbatch1 & _ & _ & Hclears1 & _ & Hothers1
          & Hrl1 & Hpath1 & Hnwt1 & _).
    pose proof (wf_during_evolves sm st st1 Hwf Hev1) as Hwf1.
    destruct (flush_windows_exact terminating baseTime sm e0
                (seq 0 (length (runlist_nextWriteTime rl0))) st rl0 st1
                Hwf Hrl0 Hbatch (NoDup_seq _ _) Hlt0 Hrun1)
      as (Horig1 & Hb1 & Hle1 & Hmin1 & Hatt1).
    simpl in Hrun. unfold flush_expr at 1 in Hrun. simpl in Hrun.
    rewrite Hrun1 in Hrun.
    assert (Hne0 : ∀ e rl, (e, rl) ∈ ers → e ≠ e0).
    { intros e rl Hin ->. apply Hnin. apply list_elem_of_fmap. by exists (e0, rl). }
    assert (Hcur1 : ∀ e rl, (e, rl) ∈ ers → fl_byExpr st1 !! e = Some rl).
    { intros e rl Hin. rewrite Hothers1 by (by eapply Hne0). apply Hcur. by right. }
    destruct (IH st1 st' Hwf1 Hbatch1 Hnd Hcur1 Hrun)
      as (Horig & Hb & Hle & Hmin & Hatt).
    (* the run list of the first expression is not touched again *)
    assert (Hkeep : fl_byExpr st' !! e0 = Some rl1).
    { destruct (flush_exprs_spec terminating baseTime sm ers st1
                  Hwf1 Hbatch1 Hnd Hcur1)
        as (st2 & Hrun2 & _ & _ & _ & _ & _ & _ & Hothers2 & _).
      assert (st2 = st') as -> by congruence.
      by rewrite Hothers2. }
    assert (Hlen1 : length (runlist_nextWriteTime rl1)
                    = length (runlist_nextWriteTime rl0)).
    { destruct Hev1 as [Hev1 _]. specialize (Hev1 e0). rewrite Hrl0, Hrl1 in Hev1.
      by inversion Hev1 as [? ? [_ Hl]|]. }
    split_and!.
    + intros tr Htr.
      destruct (Horig tr Htr)
        as [Htr1|(e & rl & i & windowEnd & w & p & a & c & v & Hin & Hwe & Hdue
                  & Hw & Hp & Hbk & Hc & ->)].
      * destruct (Horig1 tr Htr1)
          as [?|(i & windowEnd & w & p & a & c & v & Hin & Hwe & Hdue & Hw & Hp
                 & Hbk & Hc & ->)]; [by left|].
        right. exists e0, rl0, i, windowEnd, w, p, a, c, v.
        split_and!; try done. by left.
      * right. exists e, rl, i, windowEnd, w, p, a, c, v.
        split_and!; try done; [by right|].
        destruct (Hclears1 a i) as [Heq|Hz]; [by rewrite <- Heq|].
        rewrite Hz in Hbk. injection Hbk as <- <-. lia.
    + intros b j.
      destruct (Hb b j) as [Heq|(Hz & e & rl & p & windowEnd & Hin & Hp & Hwe & Hdue)].
      * rewrite Heq.
        destruct (Hb1 b j) as [?|(Hz & _ & p & windowEnd & Hp & Hwe & Hdue)];
          [by left|].
        right. split; [done|]. exists e0, rl0, p, windowEnd.
        split_and!; try done. by left.
      * right. split; [done|]. exists e, rl, p, windowEnd.
        split_and!; try done. by right.
    + lia.
    + intros e rl rl' i t [[= -> ->]|Hin]%elem_of_cons Hrl' Ht.
      * assert (rl' = rl1) as -> by congruence.
        assert (fl_nextFlush st1 ≤ t); [|lia].
        apply (Hmin1 rl1 i t); [done| |done].
        apply elem_of_seq. apply lookup_lt_Some in Ht. lia.
      * by apply (Hmin e rl rl' i t).
    + destruct Hatt as [Heq|(e & rl & rl' & i & Hin & Hrl' & Ht)].
      * rewrite Heq. destruct Hatt1 as [?|(rl' & i & Hrl' & Hin & Ht)]; [by left|].
        right. assert (rl' = rl1) as -> by congruence.
        exists e0, rl0, rl1, i. split_and!; [by left|done|done].
      * right. exists e, rl, rl', i. split_and!; [by right|done|done].
Qed.

(** The walk of [flush] over the expressions, on well-formed rollup data:
    the rows, the buckets and [nextFlush] in terms of the data at the
    start. *)
Lemma flush_walk_exact terminating baseTime sm st :
  wf sm → flush_walk terminating baseTime sm = Some st →
  (∀ tr, tr ∈ all_rows (fl_bw st) →
     ∃ e rl i windowEnd w p a c v,
       sm_byExpr sm !! e = Some rl ∧
       runlist_nextWriteTime rl !! i = Some windowEnd ∧
       window_due terminating baseTime windowEnd = true ∧
       rollup_Windows (sm_rollup sm) e !! i = Some w ∧
       runlist_path rl !! p = Some a ∧
       bucket (sm_heap sm) a i = Some (c, v) ∧ 0 < c ∧
       tr = (Table w, (p, window_statTime terminating baseTime windowEnd, v))) ∧
  (∀ b j, bucket (fl_heap st) b j = bucket (sm_heap sm) b j ∨
     bucket (fl_heap st) b j = Some (0, 0%float) ∧
     due_bucket terminating baseTime sm b j) ∧
  fl_nextFlush st ≤ time.Add baseTime time.Minute ∧
  (∀ e rl' i t, fl_byExpr st !! e = Some rl' →
     runlist_nextWriteTime rl' !! i = Some t → fl_nextFlush st ≤ t) ∧
  (fl_nextFlush st = time.Add baseTime time.Minute ∨
   ∃ e rl' i, fl_byExpr st !! e = Some rl' ∧
     runlist_nextWriteTime rl' !! i = Some (fl_nextFlush st)).
Proof.
  intros Hwf Hrun.
  assert (Hcur : ∀ e rl, (e, rl) ∈ range_order runlist (sm_byExpr sm) →
                   fl_byExpr (flush_init baseTime sm) !! e = Some rl).
  { intros e rl Hin. simpl. by apply range_order_elem. }
  destruct (flush_exprs_exact terminating baseTime sm
              (range_order runlist (sm_byExpr sm)) (flush_init baseTime sm) st
              (wf_flush_init baseTime sm Hwf) eq_refl
              (range_order_NoDup_fst _) Hcur Hrun)
    as (Horig & Hb & Hle & Hmin & Hatt).
  destruct (flush_walk_spec terminating baseTime sm Hwf)
    as (st0 & Hrun0 & _ & _ & _ & _ & _ & Hnone & _).
  assert (st0 = st) as -> by congruence.
  split_and!.
  - intros tr Htr.
    destruct (Horig tr Htr)
      as [Hin|(e & rl & i & windowEnd & w & p & a & c & v & Hin & Hrest)].
    + unfold all_rows, written_rows in Hin. simpl in Hin.
      by apply elem_of_nil in Hin.
    + exists e, rl, i, windowEnd, w, p, a, c, v. split; [|exact Hrest].
      by apply range_order_elem.
  - intros b j.
    destruct (Hb b j) as [?|(Hz & e & rl & p & windowEnd & Hin & Hp & Hwe & Hdue)];
      [by left|].
    right. split; [done|]. exists e, rl, p, windowEnd. split_and!; try done.
    by apply range_order_elem.
  - exact Hle.
  - intros e rl' i t Hrl' Ht.
    destruct (sm_byExpr sm !! e) as [rl|] eqn:Hrl;
      [|rewrite (Hnone e Hrl) in Hrl'; done].
    apply (Hmin e rl rl' i t); [|done..]. by apply range_order_elem.
  - destruct Hatt as [?|(e & rl & rl' & i & _ & Hrl' & Ht)]; [by left|].
    right. by exists e, rl', i.
Qed.


(** X12. [flush] empties exactly the buckets of the windows it finds due:
    such a bucket of a path of a run list ends with count 0 and value 0,
    and every other bucket of every path is as it was. *)
Theorem flush_clears_exactly terminating baseTime timerReady sm :
  wf sm →
  ∃ res,
    flush terminating baseTime timerReady sm = Some res ∧
    ∀ expr rl p a i windowEnd,
      sm_byExpr sm !! expr = Some rl → runlist_path rl !! p = Some a →
      runlist_nextWriteTime rl !! i = Some windowEnd →
      bucket (sm_heap (fr_sm res)) a i
      = if window_due terminating baseTime windowEnd then Some (0, 0%float)
        else bucket (sm_heap sm) a i.
Proof.
  intros Hwf.
  destruct (flush_walk_spec terminating baseTime sm Hwf)
    as (st & Hrun & _ & _ & _ & _ & _ & _ & _ & Hdue).
  destruct (flush_walk_exact terminating baseTime sm st Hwf Hrun) as (_ & Hb & _).
  unfold flush. rewrite Hrun. simpl. eexists. split; [done|]. simpl.
  intros expr rl p a i windowEnd Hrl Hp Hwe.
  destruct (window_due terminating baseTime windowEnd) eqn:Hd.
  - destruct Hwf as (_ & [_ Hnwt] & _).
    destruct (lookup_lt_is_Some_2 (rollup_Windows (sm_rollup sm) expr) i)
      as [w Hw].
    { rewrite <- (Hnwt expr rl Hrl). by eapply lookup_lt_Some. }
    by destruct (Hdue expr rl i windowEnd w p a Hrl Hwe Hw Hd Hp).
  - destruct (Hb a i) as [?|(_ & e' & rl' & p' & we' & Hrl' & Hp' & Hwe' & Hd')];
      [done|].
    destruct (wf_owner sm e' rl' p' expr rl p a Hwf Hrl' Hp' Hrl Hp) as [-> ->].
    assert (rl' = rl) as -> by congruence.
    assert (we' = windowEnd) as -> by congruence.
    congruence.
Qed.

(** X13. The time that [flush] computes for the next flush is the earliest
    closing time that the run lists hold when it returns, and one minute
    after [baseTime] when that is earlier or there is no window at all. *)
Theorem flush_next_is_earliest terminating baseTime timerReady sm :
  wf sm →
  ∃ res,
    flush terminating baseTime timerReady sm = Some res ∧
    fr_nextFlush res ≤ time.Add baseTime time.Minute ∧
    (∀ expr rl' i t,
       sm_byExpr (fr_sm res) !! expr = Some rl' →
       runlist_nextWriteTime rl' !! i = Some t → fr_nextFlush res ≤ t) ∧
    (fr_nextFlush res = time.Add baseTime time.Minute ∨
     ∃ expr rl' i,
       sm_byExpr (fr_sm res) !! expr = Some rl' ∧
       runlist_nextWriteTime rl' !! i = Some (fr_nextFlush res)).
Proof.
  intros Hwf.
  destruct (flush_walk_spec terminating baseTime sm Hwf) as (st & Hrun & _).
  destruct (flush_walk_exact terminating baseTime sm st Hwf Hrun)
    as (_ & _ & Hle & Hmin & Hatt).
  unfold flush. rewrite Hrun. simpl. eexists. split; [done|]. simpl.
  by split_and!.
Qed.

(** X14. With windows of positive width, the delay that a flush which is
    not terminating submits to the timer is the time from [baseTime] to
    the earliest closing time, between zero and one minute: the sanity
    check of line 383 never replaces it, and the subtraction does not
    saturate. *)
Theorem flush_delay_bounds baseTime timerReady sm :
  wf sm → windows_positive sm →
  ∃ res,
    flush false baseTime timerReady sm = Some res ∧
    fr_timer res
    = (if timerReady then Delivered else Dropped) (fr_nextFlush res - baseTime) ∧
    0 ≤ fr_nextFlush res - baseTime ≤ time.Minute.
Proof.
  intros Hwf Hpos.
  destruct (flush_closing_times false baseTime timerReady sm Hwf Hpos)
    as (res & Hfl & Htimes).
  destruct (flush_walk_spec false baseTime sm Hwf) as (st & Hrun & _).
  destruct (flush_walk_exact false baseTime sm st Hwf Hrun)
    as (_ & _ & Hle & _ & Hatt).
  unfold flush in Hfl. rewrite Hrun in Hfl. simpl in Hfl. injection Hfl as <-.
  simpl in Htimes.
  assert (Hbounds : 0 ≤ fl_nextFlush st - baseTime ≤ time.Minute).
  { unfold time.Add in Hle, Hatt. split; [|lia].
    destruct Hatt as [->|(e & rl' & i & Hrl' & Ht)].
    - unfold time.Minute, time.Second. lia.
    - destruct (Htimes e rl' i _ Hrl' Ht) as [? _]. lia. }
  unfold flush. rewrite Hrun. simpl. eexists. split; [done|]. simpl.
  split; [|done].
  assert (flush_delay (fl_nextFlush st) baseTime = fl_nextFlush st - baseTime)
    as ->; [|by destruct timerReady].
  unfold flush_delay, time.Sub, time.Nanoseconds, time.minDuration,
    time.maxDuration.
  unfold time.Minute, time.Second in Hbounds.
  repeat case_match; lia.
Qed.

(** X15. A flush never adds or drops a path: the global map is as it was,
    every run list holds the same paths with the same pointers and has as
    many closing times as before, no run list appears or disappears, and
    the rollup definitions are untouched.  The paths only go away with a
    reset. *)
Theorem flush_keeps_paths terminating baseTime timerReady sm res :
  flush terminating baseTime timerReady sm = Some res →
  sm_rollupPriority (fr_sm res) = sm_rollupPriority sm ∧
  sm_rollup (fr_sm res) = sm_rollup sm ∧
  sm_byPath (fr_sm res) = sm_byPath sm ∧
  length (sm_heap (fr_sm res)) = length (sm_heap sm) ∧
  ∀ expr,
    match sm_byExpr sm !! expr, sm_byExpr (fr_sm res) !! expr with
    | Some rl, Some rl' =>
        runlist_path rl' = runlist_path rl ∧
        length (runlist_nextWriteTime rl') = length (runlist_nextWriteTime rl)
    | None, None => True
    | _, _ => False
    end.
Proof.
  intros Hfl.
  destruct (flush_keeps terminating baseTime timerReady sm res Hfl)
    as (Hbp & Hrl & Hlen).
  unfold flush in Hfl.
  destruct (flush_walk terminating baseTime sm) as [st|]; simpl in Hfl; [|done].
  injection Hfl as <-. simpl in Hbp, Hrl, Hlen |- *.
  split_and!; try done.
  intros expr. specialize (Hrl expr).
  by inversion Hrl as [rl rl' [? ?]|].
Qed.

(** X16. A flush that follows a terminating flush, with no sample in
    between, writes nothing, whatever its time and mode: the terminating
    flush has emptied every bucket. *)
Theorem flush_after_terminating_writes_nothing
  baseTime timerReady terminating' baseTime' timerReady' sm :
  wf sm →
  ∃ res res',
    flush true baseTime timerReady sm = Some res ∧
    flush terminating' baseTime' timerReady' (fr_sm res) = Some res' ∧
    all_rows (fr_bw res') = [].
Proof.
  intros Hwf.
  destruct (flush_walk_spec true baseTime sm Hwf)
    as (st & Hrun & Hev & _ & _ & _ & _ & Hnone & Hnwt & Hdue).
  pose proof (wf_during baseTime sm st Hwf Hev) as Hwf1.
  destruct (flush_walk_spec terminating' baseTime' (sm_during sm st) Hwf1)
    as (st' & Hrun' & _).
  destruct (flush_walk_exact terminating' baseTime' (sm_during sm st) st'
              Hwf1 Hrun') as (Horig & _).
  unfold flush. rewrite Hrun. simpl.
  eexists _, _. split; [reflexivity|]. simpl.
  change (flush_walk terminating' baseTime'
            {| sm_rollupPriority := sm_rollupPriority sm;
               sm_rollup := sm_rollup sm; sm_byPath := sm_byPath sm;
               sm_byExpr := fl_byExpr st; sm_heap := fl_heap st |})
    with (flush_walk terminating' baseTime' (sm_during sm st)).
  rewrite Hrun'. simpl. split; [reflexivity|]. simpl.
  apply elem_of_nil_inv. intros tr Htr.
  destruct (Horig tr Htr)
    as (e & rl' & i & windowEnd' & w & p & a & c & v & Hrl' & Hwe' & _ & Hw & Hp
        & Hbk & Hc & _).
  simpl in Hrl', Hbk, Hw.
  destruct (sm_byExpr sm !! e) as [rl|] eqn:Hrl;
    [|rewrite (Hnone e Hrl) in Hrl'; done].
  destruct (Hnwt e rl Hrl) as (rl1 & Hrl1 & Hpath & _).
  assert (rl1 = rl') as -> by congruence.
  assert (length (runlist_nextWriteTime rl') = length (runlist_nextWriteTime rl))
    as Hlen.
  { destruct Hev as [Hev _]. specialize (Hev e). simpl in Hev.
    rewrite Hrl, Hrl' in Hev. by inversion Hev as [? ? [_ Hl]|]. }
  destruct (lookup_lt_is_Some_2 (runlist_nextWriteTime rl) i) as [windowEnd Hwe].
  { rewrite <- Hlen. by eapply lookup_lt_Some. }
  rewrite Hpath in Hp.
  destruct (Hdue e rl i windowEnd w p a Hrl Hwe Hw
              (window_due_terminating _ _) Hp) as [Hz _].
  rewrite Hz in Hbk. injection Hbk as <- <-. lia.
Qed.

(** *** More on the read worker *)

(** The loop over the paths from any state of its variables: one statement
    per path, in order, each bound to the request's times; the stats read
    are appended to the one list; a path that is not in the list keeps its
    entry in the series. *)
Lemma queryGET_paths_spec sm timeDelta q (paths : list string) :
  ∀ st st',
  foldlM (queryGET_path sm timeDelta q) st paths = Some st' →
  ∃ news,
    qs_selects st' = qs_selects st ++ news ∧
    sel_path <$> news = paths ∧
    Forall (λ s, sel_from s = time.Unix (mq_From q) 0 ∧
                 sel_to s = time.Unix (mq_To q) 0) news ∧
    qs_statList st' = qs_statList st ++ concat (dbClient_Query <$> news) ∧
    (∀ p, p ∉ paths → qs_series st' !! p = qs_series st !! p) ∧
    (∀ p, p ∈ paths → is_Some (qs_series st' !! p)).
Proof.
  induction paths as [|p0 paths IH]; intros st st' Hrun; simpl in Hrun.
  - injection Hrun as <-. exists []. rewrite !app_nil_r. split_and!; try done.
    intros p Hin. by apply elem_of_nil in Hin.
  - destruct (queryGET_path sm timeDelta q st p0) as [st1|] eqn:Hstep; [|done].
    unfold queryGET_path in Hstep.
    destruct (getExpression sm p0) as [expr|]; simpl in Hstep; [|done].
    injection Hstep as <-.
    destruct (IH _ _ Hrun) as (news & Hsel & Hpaths & Hbounds & Hstat & Hkeep & Hdom).
    simpl in Hsel, Hstat, Hkeep.
    eexists (_ :: news). split_and!.
    + rewrite Hsel. rewrite <- app_assoc. reflexivity.
    + rewrite fmap_cons, Hpaths. done.
    + by constructor.
    + rewrite Hstat. simpl. by rewrite <- !app_assoc.
    + intros p [Hne Hnin]%not_elem_of_cons. rewrite (Hkeep p Hnin).
      by rewrite lookup_insert_ne.
    + intros p Hin. destruct (decide (p ∈ paths)) as [?|Hnin]; [by apply Hdom|].
      apply elem_of_cons in Hin as [->|?]; [|done].
      rewrite (Hkeep p0 Hnin). rewrite lookup_insert_eq. by eexists.
Qed.

(** X17. The series that [queryGET] returns for a path holds the stats of
    every [SELECT] issued up to and including the one for the last
    occurrence of that path in the request, in the order of the request:
    [statList] is never emptied between paths.  Only a path that comes
    first in the request, and not again, gets its own stats alone. *)
Theorem queryGET_series_cumulative sm now q st pre p post :
  mq_Query q = pre ++ p :: post → p ∉ post →
  queryGET_loop sm now q = Some st →
  sel_path <$> qs_selects st = mq_Query q ∧
  qs_series st !! p
  = Some (concat (dbClient_Query <$> take (S (length pre)) (qs_selects st))).
Proof.
  intros Hq Hnin Hloop. unfold queryGET_loop in Hloop. rewrite Hq in Hloop |- *.
  rewrite foldlM_app in Hloop.
  destruct (foldlM _ querying_init pre) as [st1|] eqn:Hpre; simpl in Hloop; [|done].
  destruct (queryGET_path sm _ q st1 p) as [st2|] eqn:Hstep; [|done].
  destruct (queryGET_paths_spec _ _ _ _ _ _ Hpre)
    as (news1 & Hsel1 & Hpaths1 & _ & Hstat1 & _).
  destruct (queryGET_paths_spec _ _ _ _ _ _ Hloop)
    as (news3 & Hsel3 & Hpaths3 & _ & _ & Hkeep3 & _).
  simpl in Hsel1, Hstat1.
  unfold queryGET_path in Hstep.
  destruct (getExpression sm p) as [expr|]; simpl in Hstep; [|done].
  injection Hstep as <-. simpl in Hsel3, Hkeep3.
  rewrite (Hkeep3 p Hnin), lookup_insert_eq.
  rewrite Hsel3, Hsel1, Hstat1. split.
  - rewrite !fmap_app. simpl. rewrite Hpaths1, Hpaths3.
    by rewrite <- app_assoc.
  - f_equal. rewrite <- app_assoc.
    assert (length news1 = length pre) as Hlen.
    { by rewrite <- Hpaths1, length_fmap. }
    rewrite take_app_ge by lia. rewrite Hlen.
    replace (S (length pre) - length pre)%nat with 1%nat by lia. simpl.
    rewrite take_0, fmap_app, concat_app. simpl. by rewrite app_nil_r.
Qed.

(** X18. The response of [queryGET] echoes the request's [from] and [to],
    and its series has an entry for exactly the paths of the request; each
    path, in the order of the request, had one [SELECT], bound to the
    path and to [time.Unix(q.From, 0)] and [time.Unix(q.To, 0)]: the
    request's two times as whole seconds of the epoch, for each of the two
    that [time.Unix] does not wrap. *)
Theorem queryGET_response_shape sm now q st :
  queryGET_loop sm now q = Some st →
  mr_From (queryGET_response q st) = mq_From q ∧
  mr_To (queryGET_response q st) = mq_To q ∧
  (∀ p, is_Some (mr_Series (queryGET_response q st) !! p) ↔ p ∈ mq_Query q) ∧
  sel_path <$> qs_selects st = mq_Query q ∧
  Forall (λ s, sel_from s = time.Unix (mq_From q) 0 ∧
               sel_to s = time.Unix (mq_To q) 0 ∧
               (- 2 ^ 63 ≤ mq_From q + time.unixToInternal < 2 ^ 63 →
                sel_from s = mq_From q * time.Second) ∧
               (- 2 ^ 63 ≤ mq_To q + time.unixToInternal < 2 ^ 63 →
                sel_to s = mq_To q * time.Second)) (qs_selects st).
Proof.
  intros Hloop. unfold queryGET_loop in Hloop.
  destruct (queryGET_paths_spec _ _ _ _ _ _ Hloop)
    as (news & Hsel & Hpaths & Hbounds & _ & Hkeep & Hdom).
  simpl in Hsel, Hkeep. rewrite Hsel. split_and!; try done.
  - intros p. simpl. split; [|apply Hdom].
    intros Hp. destruct (decide (p ∈ mq_Query q)) as [?|Hnin]; [done|].
    rewrite (Hkeep p Hnin), lookup_empty in Hp. by destruct Hp.
  - eapply Forall_impl; [exact Hbounds|]. intros s [-> ->].
    split_and!; [done|done|apply Unix_seconds..].
Qed.

(** X19. When the request reaches back beyond every retention, so that no
    window of any of its paths passes the test of line 440, [table] and
    [step] keep their zero values: every [SELECT] names the table with
    the empty name, and the response has step 0. *)
Theorem queryGET_no_window sm now q :
  (∀ p, p ∈ mq_Query q →
     ∃ expr, getExpression sm p = Some expr ∧
       first_window (time.Sub now (time.Unix (mq_From q) 0))
         (rollup_Windows G_Rollup expr) = None) →
  ∃ st,
    queryGET_loop sm now q = Some st ∧
    Forall (λ s, sel_stmt s = select_stmt "") (qs_selects st) ∧
    mr_Step (queryGET_response q st) = 0.
Proof.
  intros Hno. unfold queryGET_loop.
  cut (∀ paths st0,
         (∀ p, p ∈ paths → p ∈ mq_Query q) →
         qs_table st0 = "" → qs_step st0 = 0 →
         Forall (λ s, sel_stmt s = select_stmt "") (qs_selects st0) →
         ∃ st, foldlM (queryGET_path sm (time.Sub now (time.Unix (mq_From q) 0)) q)
                 st0 paths = Some st ∧
               Forall (λ s, sel_stmt s = select_stmt "") (qs_selects st) ∧
               qs_step st = 0).
  { intros Hall. by apply (Hall (mq_Query q) querying_init). }
  induction paths as [|p0 paths IH]; intros st0 Hsub Htab Hstep Hsel.
  - exists st0. by split_and!.
  - destruct (Hno p0) as (expr & Hexpr & Hnone); [apply Hsub; by left|].
    destruct (queryGET_keeps_previous_window sm _ q st0 p0 expr Hexpr Hnone)
      as (st1 & Hst1 & Htab1 & Hstep1).
    simpl. rewrite Hst1.
    apply IH; [intros p Hin; apply Hsub; by right|congruence..|].
    unfold queryGET_path in Hst1. rewrite Hexpr in Hst1. simpl in Hst1.
    injection Hst1 as <-. simpl. apply Forall_app. split; [done|].
    constructor; [|constructor]. simpl.
    rewrite (choose_window_none _ _ _ Hnone). simpl. by rewrite Htab.
Qed.

(** *** More on the resolver: splitting and joining *)

Lemma string_app_cons c (s t : string) : String c s +:+ t = String c (s +:+ t).
Proof. done. Qed.

Lemma string_app_nil_r (s : string) : s +:+ "" = s.
Proof.
  induction s as [|c s IH]; [done|]. by rewrite string_app_cons, IH.
Qed.

Lemma string_app_assoc (a b c : string) : (a +:+ b) +:+ c = a +:+ (b +:+ c).
Proof.
  induction a as [|x a IH]; [done|]. by rewrite !string_app_cons, IH.
Qed.

Lemma rev_app_app (a b c : string) :
  String.rev_app a (b +:+ c) = String.rev_app a b +:+ c.
Proof.
  revert b. induction a as [|x a IH]; intros b; simpl; [done|].
  by rewrite <- IH.
Qed.

Lemma rev_app_rev (a b : string) : String.rev_app a b = String.rev a +:+ b.
Proof. unfold String.rev. by rewrite <- rev_app_app. Qed.

Lemma rev_cons x (cur : string) :
  String.rev (String x cur) = String.rev cur +:+ String x "".
Proof. unfold String.rev at 1. simpl. apply rev_app_rev. Qed.

Lemma rev_cons_app x (cur a : string) :
  String.rev (String x cur) +:+ a = String.rev cur +:+ String x a.
Proof. by rewrite rev_cons, string_app_assoc. Qed.

Lemma count_byte_app c (a b : string) :
  count_byte c (a +:+ b) = (count_byte c a + count_byte c b)%nat.
Proof.
  induction a as [|x a IH]; [done|]. rewrite string_app_cons. simpl.
  rewrite IH. lia.
Qed.

(** A string without the separator is one piece. *)
Lemma Split_go_last sep (a : string) :
  ∀ cur, count_byte sep a = 0%nat →
  gostrings.Split_go sep cur a = [String.rev cur +:+ a].
Proof.
  induction a as [|x a IH]; intros cur Hno; simpl.
  - by rewrite string_app_nil_r.
  - simpl in Hno. destruct (Ascii.eqb x sep); [lia|].
    rewrite IH by done. by rewrite rev_cons_app.
Qed.

(** The first piece ends at the first separator. *)
Lemma Split_go_piece sep (a : string) :
  ∀ cur b, count_byte sep a = 0%nat →
  gostrings.Split_go sep cur (a +:+ String sep b)
  = (String.rev cur +:+ a) :: gostrings.Split_go sep "" b.
Proof.
  induction a as [|x a IH]; intros cur b Hno.
  - change ("" +:+ String sep b) with (String sep b). simpl.
    rewrite Ascii.eqb_refl. by rewrite string_app_nil_r.
  - rewrite string_app_cons. simpl. simpl in Hno.
    destruct (Ascii.eqb x sep); [lia|].
    rewrite IH by done. by rewrite rev_cons_app.
Qed.

Lemma Split_single s sep :
  count_byte sep s = 0%nat → gostrings.Split s sep = [s].
Proof. intros Hno. unfold gostrings.Split. by rewrite Split_go_last. Qed.

Lemma Split_piece a b sep :
  count_byte sep a = 0%nat →
  gostrings.Split (a +:+ String sep b) sep = a :: gostrings.Split b sep.
Proof. intros Hno. unfold gostrings.Split. by rewrite Split_go_piece. Qed.

(** [strings.Split] returns one piece more than there are separators. *)
Lemma Split_go_length sep (s : string) :
  ∀ cur, length (gostrings.Split_go sep cur s) = S (count_byte sep s).
Proof.
  induction s as [|x s IH]; intros cur; simpl; [done|].
  destruct (Ascii.eqb x sep); simpl; by rewrite IH.
Qed.

Lemma Split_length s sep :
  length (gostrings.Split s sep) = S (count_byte sep s).
Proof. apply Split_go_length. Qed.

(** Joining the pieces between the stars with [.*]. *)
Lemma Join_Split_go_star (q : string) :
  ∀ cur,
  gostrings.Join (gostrings.Split_go "*" cur q) ".*"
  = String.rev cur +:+ star_to_dotstar q.
Proof.
  induction q as [|x q IH]; intros cur; simpl.
  - by rewrite string_app_nil_r.
  - destruct (Ascii.eqb x "*") eqn:Hx.
    + destruct (Split_go_cons "*" "" q) as (y & l & Hy).
      specialize (IH ""). rewrite Hy in IH |- *.
      change (gostrings.Join (String.rev cur :: y :: l) ".*")
        with (String.rev cur +:+ ".*" +:+ gostrings.Join (y :: l) ".*").
      by rewrite IH.
    + rewrite IH. by rewrite rev_cons_app.
Qed.

Lemma Join_Split_star (q : string) :
  gostrings.Join (gostrings.Split q "*") ".*" = star_to_dotstar q.
Proof. apply Join_Split_go_star. Qed.

(** *** More on the resolver: the members of the index *)

Lemma decode_member_None l member :
  decode_member l member = None ↔ (count_byte ":" member < 2)%nat.
Proof.
  unfold decode_member.
  pose proof (Split_length member ":") as Hlen.
  destruct (gostrings.Split member ":" !! 2%nat) as [leaf|] eqn:H2; simpl.
  - apply lookup_lt_Some in H2.
    destruct (gostrings.Split member ":" !! 1%nat) as [p|] eqn:H1; simpl.
    + split; [done|lia].
    + apply lookup_ge_None in H1. lia.
  - apply lookup_ge_None in H2. split; [lia|done].
Qed.

(** A panic of [processQueryResults] comes from a member with fewer than
    two colons. *)
Lemma processQueryResults_None_member results l :
  processQueryResults results l = None →
  ∃ member, member ∈ results ∧ (count_byte ":" member < 2)%nat.
Proof.
  unfold processQueryResults. intros Hp.
  destruct (mapM (decode_member l) results) as [rs|] eqn:Hm; simpl in Hp; [done|].
  apply mapM_None in Hm. apply Exists_exists in Hm as (member & Hin & Hd).
  exists member. split; [done|]. by apply decode_member_None in Hd.
Qed.

(** X20. [processQueryResults] panics exactly when one of the members has
    fewer than two colons: it indexes the third piece of each member
    without a check of the number of pieces. *)
Theorem processQueryResults_panics_iff results l :
  processQueryResults results l = None ↔
  ∃ member, member ∈ results ∧ (count_byte ":" member < 2)%nat.
Proof.
  unfold processQueryResults.
  destruct (mapM (decode_member l) results) as [rs|] eqn:Hm; simpl.
  - split; [done|]. intros (member & Hin & Hc).
    assert (mapM (decode_member l) results = None); [|congruence].
    apply mapM_None. apply Exists_exists. exists member. split; [done|].
    by apply decode_member_None.
  - split; [intros _|done]. apply mapM_None in Hm.
    apply Exists_exists in Hm as (member & Hin & Hd).
    exists member. split; [done|]. by apply decode_member_None in Hd.
Qed.

(** X21. A member [<depth>:<path>:<leaf>] of the index is answered with its
    path field, with the node count of the query as depth (the member's
    own depth field is not read), with the empty tenant, and as a leaf
    exactly when the leaf field is one of the six spellings of true that
    [strconv.ParseBool] accepts. *)
Theorem decode_member_fields l depth path leaf :
  count_byte ":" depth = 0%nat → count_byte ":" path = 0%nat →
  count_byte ":" leaf = 0%nat →
  decode_member l (depth +:+ ":" +:+ path +:+ ":" +:+ leaf)
  = Some {| gopher.Path := path; gopher.Depth := l; gopher.Tenant := "";
            gopher.Leaf := bool_decide (leaf ∈ ["1"; "t"; "T"; "TRUE"; "true"; "True"]) |}.
Proof.
  intros Hd Hp Hl. unfold decode_member.
  change (depth +:+ ":" +:+ path +:+ ":" +:+ leaf)
    with (depth +:+ String ":" (path +:+ String ":" leaf)).
  rewrite (Split_piece depth _ ":" Hd), (Split_piece path _ ":" Hp),
    (Split_single leaf ":" Hl).
  simpl. do 2 f_equal. unfold gostrings.ParseBool.
  destruct (String.eqb leaf "1") eqn:H1;
    [apply String.eqb_eq in H1; by subst leaf|].
  destruct (String.eqb leaf "t") eqn:H2;
    [apply String.eqb_eq in H2; by subst leaf|].
  destruct (String.eqb leaf "T") eqn:H3;
    [apply String.eqb_eq in H3; by subst leaf|].
  destruct (String.eqb leaf "TRUE") eqn:H4;
    [apply String.eqb_eq in H4; by subst leaf|].
  destruct (String.eqb leaf "true") eqn:H5;
    [apply String.eqb_eq in H5; by subst leaf|].
  destruct (String.eqb leaf "True") eqn:H6;
    [apply String.eqb_eq in H6; by subst leaf|].
  apply String.eqb_neq in H1, H2, H3, H4, H5, H6.
  symmetry. apply bool_decide_eq_false. intros Hin.
  repeat (apply elem_of_cons in Hin as [?|Hin]; [done|]).
  by apply elem_of_nil in Hin.
Qed.

(** X22. With an index whose members all have at least two colons, a
    resolve never panics, whatever the query: the three resolvers and the
    decoding of their results return. *)
Theorem query_returns statQuery :
  (∀ key lo hi offset count,
     Forall (λ member, (2 ≤ count_byte ":" member)%nat)
            (ZRangeByLex key lo hi offset count).1) →
  is_Some (query statQuery).
Proof.
  intros Hidx.
  assert (Hproc : ∀ results l,
            Forall (λ member, (2 ≤ count_byte ":" member)%nat) results →
            is_Some (processQueryResults results l)).
  { intros results l Hall.
    destruct (processQueryResults results l) eqn:Hp; [by eexists|].
    apply processQueryResults_None_member in Hp as (member & Hin & Hc).
    rewrite Forall_forall in Hall. specialize (Hall member Hin). lia. }
  assert (Hscan : ∀ t, ∃ r, scan ("[" +:+ t) = Some r ∧
            ∀ resp, r = Some resp →
              Forall (λ member, (2 ≤ count_byte ":" member)%nat) resp).
  { intros t. unfold scan. change ("[" +:+ t) with (String "["%char t).
    destruct (getMax_bracket t) as [hi ->]. simpl.
    case_decide.
    - exists None. split; [done|]. by intros resp.
    - eexists. split; [done|]. intros resp [= <-]. apply Hidx. }
  assert (Hno : ∀ q l, is_Some (noWild q l)).
  { intros q l. unfold noWild.
    change (gostrings.Join ["["; ToBigEndianString l; ":"; q; ":"] "")
      with ("[" +:+ (ToBigEndianString l +:+ ":" +:+ q +:+ ":")).
    destruct (Hscan (ToBigEndianString l +:+ ":" +:+ q +:+ ":"))
      as (r & -> & Hr). simpl.
    destruct r as [resp|]; [|by eexists]. by apply Hproc, Hr. }
  assert (Hsimple : ∀ q l, is_Some (simpleWild q l)).
  { intros q l. unfold simpleWild.
    change (gostrings.Join ["["; ToBigEndianString l; ":"; q] "")
      with ("[" +:+ (ToBigEndianString l +:+ ":" +:+ q)).
    destruct (Hscan (ToBigEndianString l +:+ ":" +:+ q)) as (r & -> & Hr). simpl.
    destruct r as [resp|]; [|by eexists]. by apply Hproc, Hr. }
  assert (Hcomplex : ∀ first rest l, is_Some (complexWild (first :: rest) l)).
  { intros first rest l. unfold complexWild. cbn -[scan gostrings.Join].
    change (gostrings.Join ["["; ToBigEndianString l; ":"; first] "")
      with ("[" +:+ (ToBigEndianString l +:+ ":" +:+ first)).
    destruct (Hscan (ToBigEndianString l +:+ ":" +:+ first)) as (r & -> & Hr).
    simpl. destruct r as [resp|]; [|by eexists].
    destruct (regexp_Compile _) as [regex|]; [|by eexists].
    apply Hproc. apply Forall_forall. intros member Hin.
    apply list_elem_of_filter in Hin as [_ Hin].
    specialize (Hr resp eq_refl). rewrite Forall_forall in Hr. by apply Hr. }
  unfold query. destruct (Split_cons statQuery "*") as (first & rest & ->).
  repeat case_decide; simpl; auto.
Qed.

(** *** More on the resolver: the three kinds of query *)

(** X23. How [query] tells the three kinds of query apart, and the depth it
    asks for.  A query without a star is an exact lookup; one star, at the
    end, is a prefix lookup of what precedes the star; anything else -- two
    stars or more, or one star that is not at the end -- is a filtered
    lookup.  The depth is in each case the number of dots of the query
    plus one. *)
Theorem query_dispatch :
  (∀ q, count_byte "*" q = 0%nat →
     query q = noWild q (Z.of_nat (S (count_byte "." q)))) ∧
  (∀ p, count_byte "*" p = 0%nat →
     query (p +:+ "*") = simpleWild p (Z.of_nat (S (count_byte "." p)))) ∧
  (∀ q, (2 ≤ count_byte "*" q)%nat →
     query q
     = complexWild (gostrings.Split q "*") (Z.of_nat (S (count_byte "." q)))) ∧
  (∀ a b, count_byte "*" a = 0%nat → count_byte "*" b = 0%nat → b ≠ "" →
     query (a +:+ "*" +:+ b)
     = complexWild [a; b] (Z.of_nat (S (count_byte "." (a +:+ "*" +:+ b))))).
Proof.
  split_and!.
  - intros q Hno. unfold query. cbv zeta. rewrite !Split_length, Hno.
    by rewrite decide_True.
  - intros p Hno.
    assert (Hs : gostrings.Split (p +:+ "*") "*" = [p; ""]).
    { change (p +:+ "*") with (p +:+ String "*" "").
      by rewrite (Split_piece p "" "*" Hno). }
    assert (Hd : length (gostrings.Split (p +:+ "*") ".") = S (count_byte "." p)).
    { rewrite Split_length, count_byte_app. simpl. lia. }
    unfold query. cbv zeta. rewrite Hs, Hd. simpl length.
    rewrite decide_False by done. by rewrite decide_True.
  - intros q Hmany. unfold query. cbv zeta. rewrite !Split_length.
    rewrite decide_False by lia. rewrite decide_False; [done|]. intros [? _]. lia.
  - intros a b Ha Hb Hne.
    assert (Hs : gostrings.Split (a +:+ "*" +:+ b) "*" = [a; b]).
    { change (a +:+ "*" +:+ b) with (a +:+ String "*" b).
      by rewrite (Split_piece a b "*" Ha), (Split_single b "*" Hb). }
    unfold query. cbv zeta. rewrite Hs, Split_length. simpl length.
    rewrite decide_False by done. rewrite decide_False; [done|].
    intros [_ [= ->]]. done.
Qed.

(** X24. The filter of a multi-wildcard query: the members of the scan of
    the text before the first star are matched against the regular
    expression that is the query with each star replaced by [.*], nothing
    else being escaped or anchored; a query whose expression does not
    compile is answered with the nil byte slice. *)
Theorem complexWild_pattern q l resp :
  scan (gostrings.Join
          ["["; ToBigEndianString l; ":";
           default "" (head (gostrings.Split q "*"))] "")
  = Some (Some resp) →
  complexWild (gostrings.Split q "*") l
  = match regexp_Compile (star_to_dotstar q) with
    | None => Some ""
    | Some regex => processQueryResults (filter (λ m, regex m = true) resp) l
    end.
Proof.
  intros Hscan. pose proof (Join_Split_star q) as HJ.
  destruct (Split_cons q "*") as (first & rest & Heq).
  rewrite Heq in Hscan, HJ |- *.
  change (default "" (head (first :: rest))) with first in Hscan.
  unfold complexWild. change ((first :: rest) !! 0%nat) with (Some first).
  cbn [mbind option_bind]. rewrite Hscan. cbn [mbind option_bind].
  by rewrite HJ.
Qed.

(** *** More on the resolver: the upper bound of a scan *)

Lemma ascii_compare_refl c : Ascii.compare c c = Eq.
Proof. unfold Ascii.compare. apply N.compare_refl. Qed.

Lemma string_compare_app_l (p x y : string) :
  String.compare (p +:+ x) (p +:+ y) = String.compare x y.
Proof.
  induction p as [|c p IH]; [done|]. rewrite !string_app_cons. simpl.
  by rewrite ascii_compare_refl.
Qed.

(** A string that is not empty is its last byte after the rest. *)
Lemma last_byte_split (s : string) :
  s ≠ "" →
  ∃ pre c, s = pre +:+ String c "" ∧
           String.substring 0 (String.length s - 1) s = pre ∧
           last_byte s = String c "".
Proof.
  unfold last_byte.
  induction s as [|x s IH]; intros Hne; [done|].
  destruct s as [|y s'].
  - by exists "", x.
  - destruct IH as (pre & c & Heq & Hpre & Hlast); [done|].
    exists (String x pre), c.
    remember (String.length (String y s') - 1)%nat as n eqn:Hn.
    replace (String.length (String x (String y s')) - 1)%nat with (S n)
      by (subst n; simpl; lia).
    change (String.substring 0 (S n) (String x (String y s')))
      with (String x (String.substring 0 n (String y s'))).
    change (String.substring (S n) 1 (String x (String y s')))
      with (String.substring n 1 (String y s')).
    rewrite Hpre, Hlast, string_app_cons, <- Heq. done.
Qed.

(** X25. The upper bound that [getMax] gives to a scan.  It is above the
    lower bound.  When the lower bound ends with a dot or a colon, every
    string that extends the lower bound is below the upper bound.
    Otherwise the upper bound is the lower bound followed by the four
    bytes backslash, x, f, f of the raw literal, so that an extension of
    the lower bound is below the upper bound exactly when what it adds is
    below these four bytes: what continues the lower bound with a byte
    above the backslash, a lowercase letter for one, is above the upper
    bound. *)
Theorem getMax_bounds s :
  s ≠ "" →
  ∃ m, getMax s = Some m ∧
       String.compare s m = Lt ∧
       ∀ x, String.compare (s +:+ x) m
            = if decide (last_byte s = "." ∨ last_byte s = ":") then Lt
              else String.compare x "\xff".
Proof.
  intros Hne. destruct (last_byte_split s Hne) as (pre & c & Heq & Hpre & Hlast).
  unfold getMax. rewrite decide_False by done.
  assert (Hext : ∀ m,
            (∀ x, String.compare (s +:+ x) m
                  = if decide (last_byte s = "." ∨ last_byte s = ":") then Lt
                    else String.compare x "\xff") →
            String.compare s m = Lt).
  { intros m Hm. specialize (Hm ""). rewrite string_app_nil_r in Hm.
    rewrite Hm. by destruct (decide _). }
  destruct (decide (last_byte s = "." ∨ last_byte s = ":")) as [Hdot|Hnodot].
  - eexists. split; [reflexivity|].
    assert (Hall : ∀ x, String.compare (s +:+ x)
                     (gostrings.Join
                        [String.substring 0 (String.length s - 1) s; "\";
                         last_byte s; "\xff"] "") = Lt).
    { intros x. rewrite Hpre, Hlast.
      change (gostrings.Join [pre; "\"; String c ""; "\xff"] "")
        with (pre +:+ String "\" (String c "\xff")).
      rewrite Heq at 1. rewrite string_app_assoc, string_compare_app_l.
      change (String c "" +:+ x) with (String c x).
      rewrite Hlast in Hdot. by destruct Hdot as [[= ->]|[= ->]]. }
    split; [|exact Hall].
    specialize (Hall ""). by rewrite string_app_nil_r in Hall.
  - eexists. split; [reflexivity|].
    assert (Hall : ∀ x, String.compare (s +:+ x) (gostrings.Join [s; "\xff"] "")
                        = String.compare x "\xff").
    { intros x. change (gostrings.Join [s; "\xff"] "") with (s +:+ "\xff").
      apply string_compare_app_l. }
    split; [|exact Hall].
    specialize (Hall ""). by rewrite string_app_nil_r in Hall.
Qed.

(** *** The closing times after a flush *)

(** X26. After [flush], with windows of positive width, no closing time is
    before [baseTime], and each one is later than [baseTime] when
    terminating.  A closing time that equals [baseTime] is that of a window
    which closed exactly at [baseTime]: the test of line 326 is strict, so
    the flush left that window as it was. *)
Theorem flush_closing_times_not_past terminating baseTime timerReady sm :
  wf sm → windows_positive sm →
  ∃ res,
    flush terminating baseTime timerReady sm = Some res ∧
    ∀ expr rl' i t,
      sm_byExpr (fr_sm res) !! expr = Some rl' →
      runlist_nextWriteTime rl' !! i = Some t →
      baseTime ≤ t ∧
      (terminating = true → baseTime < t) ∧
      (t = baseTime →
         ∃ rl, sm_byExpr sm !! expr = Some rl ∧
               runlist_nextWriteTime rl !! i = Some baseTime).
Proof. apply flush_closing_times. Qed.

End Cassabon.

(** ** The properties on the concrete inputs *)

Lemma map_order_perm (A : Type) (m : gmap string A) :
  map_order A m ≡ₚ map_to_list m.
Proof. done. Qed.

Lemma cfg_ok : config_ok catchall cfg.
Proof.
  split; [done|]. intros e He. simpl in He.
  apply elem_of_cons in He as [->|He].
  { exists foo_def. split; [by vm_compute|]. intros _. by eexists. }
  apply elem_of_cons in He as [->|He].
  { exists default_def. split; [by vm_compute|]. intros _. by eexists. }
  by apply elem_of_nil in He.
Qed.

Lemma sm_start_wf : wf catchall sm_start.
Proof. apply wf_resetRollupData, cfg_ok. Qed.

(** [sm_1] and [sm_3] are what [accumulate] makes of the samples. *)
Lemma sm_1_accumulated :
  accumulate catchall None sm_start (sample "foo.x" 5)
  = Some (sm_1, [sample "foo.x" 5]).
Proof. vm_compute. reflexivity. Qed.

Lemma sm_3_accumulated :
  run_ops catchall None map_order "metrics" 100 sm_start
    [op_accumulate (sample "foo.x" 5); op_accumulate (sample "bar.x" 5);
     op_accumulate (sample "foo.x" 3)]
  = Some (sm_3, [sample "foo.x" 5; sample "bar.x" 5]).
Proof. vm_compute. reflexivity. Qed.

Lemma sm_3_wf : wf catchall sm_3.
Proof.
  destruct (index_write_once catchall None map_order map_order_perm "metrics" 100
              [op_accumulate (sample "foo.x" 5); op_accumulate (sample "bar.x" 5);
               op_accumulate (sample "foo.x" 3)] sm_start sm_start_wf)
    as (sm' & sent & Hrun & Hwf & _).
  rewrite sm_3_accumulated in Hrun. by injection Hrun as <- <-.
Qed.

(** *** The accumulator *)

Lemma accumulate_folds_sample_witness :
  wf catchall sm_3 ∧
  ∃ sm' a r', accumulate catchall None sm_3 (sample "bar.x" 1.5) = Some (sm', [])
              ∧ sm_byPath sm' !! "bar.x" = Some a
              ∧ sm_heap sm' !! a = Some r'
              ∧ rollup_value r' = [6.5%float; 6.5%float]
              ∧ rollup_count r' = [2; 2].
Proof.
  split; [exact sm_3_wf|].
  destruct (accumulate_folds_sample catchall None sm_3 (sample "bar.x" 1.5) sm_3_wf)
    as (sm' & sent & a & r & d & r' & Hacc & Ha & _ & _ & Hr' & _).
  exists sm', a, r'.
  assert (Heval : ∃ sm1, accumulate catchall None sm_3 (sample "bar.x" 1.5)
                         = Some (sm1, []))
    by (eexists; vm_compute; reflexivity).
  destruct Heval as [sm1 Heval].
  assert (sm' = sm1 ∧ sent = []) as [-> ->] by (split; congruence).
  split; [exact Heval|]. split; [exact Ha|]. split; [exact Hr'|].
  vm_compute in Heval. injection Heval as <-.
  assert (a = 1%nat) as -> by (vm_compute in Ha; congruence).
  vm_compute in Hr'. injection Hr' as <-. split; reflexivity.
Defined.

Lemma accumulate_index_write_witness :
  wf catchall sm_start ∧
  ∃ sm', accumulate catchall None sm_start (sample "foo.x" 5)
         = Some (sm', [sample "foo.x" 5]) ∧
         ∃ sm'', accumulate catchall None sm' (sample "foo.x" 3) = Some (sm'', []).
Proof.
  split; [exact sm_start_wf|].
  destruct (accumulate_index_write catchall None sm_start (sample "foo.x" 5)
              sm_start_wf) as (sm' & sent & Hacc & Hnew & _ & Hin & _ & Hwf').
  exists sm'. rewrite (Hnew eq_refl) in Hacc. split; [exact Hacc|].
  destruct (accumulate_index_write catchall None sm' (sample "foo.x" 3) Hwf')
    as (sm'' & sent' & Hacc' & _ & Hknown & _).
  exists sm''. rewrite (Hknown Hin) in Hacc'. exact Hacc'.
Defined.

(** Scenario 5 of the specification, expression priority: [foo.x] keeps
    the maximum of 5 and 3 under the first rule, [bar.x] the sum under the
    catchall; the two paths are announced once each. *)
Example expression_priority :
  (snd <$> run_ops catchall None map_order "metrics" 100 sm_start
             [op_accumulate (sample "foo.x" 5); op_accumulate (sample "bar.x" 5);
              op_accumulate (sample "foo.x" 3)])
  = Some [sample "foo.x" 5; sample "bar.x" 5] ∧
  bucket (sm_heap sm_3) 0 0 = Some (2, 5%float) ∧
  bucket (sm_heap sm_3) 1 0 = Some (1, 5%float).
Proof. split; [by rewrite sm_3_accumulated|]. split; vm_compute; reflexivity. Qed.

(** *** The flusher *)

(** C1.  The manager is reset at time 0, so that the 10 s windows close at
    10 s; [flush(false)] is then called when the clock reads exactly 10 s.
    The window is not processed, because its closing time is not before
    [baseTime], and its closing time stays where it is: equal to [baseTime],
    not later.  The delay submitted to the timer is zero. *)
Theorem flush_on_boundary_not_in_future :
  ∃ res rl t,
    flush map_order "metrics" 100 false (10 * time.Second) true sm_start = Some res ∧
    sm_byExpr (fr_sm res) !! "default" = Some rl ∧
    runlist_nextWriteTime rl !! 0%nat = Some t ∧
    t = 10 * time.Second ∧
    ¬ (10 * time.Second < t) ∧
    fr_timer res = Delivered 0.
Proof.
  eexists _, _, _. split; [vm_compute; reflexivity|].
  split; [vm_compute; reflexivity|]. split; [vm_compute; reflexivity|].
  split; [reflexivity|]. split; [|reflexivity]. vm_compute. congruence.
Qed.

Lemma flush_terminating_drains_witness :
  wf catchall sm_3 ∧
  ∃ res,
    flush map_order "metrics" 100 true (3 * time.Second) true sm_3 = Some res ∧
    written_rows (fr_bw res)
    = [ ("rollup_10_60", ("foo.x", 3 * time.Second, 5%float));
        ("rollup_10_60", ("bar.x", 3 * time.Second, 5%float));
        ("rollup_60_3600", ("bar.x", 3 * time.Second, 5%float)) ] ∧
    sm_heap (fr_sm res)
    = [ {| rollup_expr := "^foo\."; rollup_count := [0]; rollup_value := [0%float] |};
        {| rollup_expr := "default"; rollup_count := [0; 0];
           rollup_value := [0%float; 0%float] |} ].
Proof.
  split; [exact sm_3_wf|].
  destruct (flush_terminating_drains catchall map_order map_order_perm
              "metrics" 100 (3 * time.Second) true sm_3 sm_3_wf)
    as (res & Hres & _).
  exists res. split; [exact Hres|].
  vm_compute in Hres. injection Hres as <-. split; vm_compute; reflexivity.
Defined.

(** Scenario 2 of the specification, on [bar.x]: a flush at 11 s closes
    the 10 s window but not the 60 s window; the 10 s table gets the sum and
    bucket 0 is reset, bucket 1 still holds the sum and its count. *)
Example flush_closes_one_window :
  ∃ res,
    flush map_order "metrics" 100 false (11 * time.Second) true sm_3 = Some res ∧
    written_rows (fr_bw res)
    = [ ("rollup_10_60", ("foo.x", 10 * time.Second, 5%float));
        ("rollup_10_60", ("bar.x", 10 * time.Second, 5%float)) ] ∧
    bucket (sm_heap (fr_sm res)) 1 0 = Some (0, 0%float) ∧
    bucket (sm_heap (fr_sm res)) 1 1 = Some (1, 5%float) ∧
    fr_timer res = Delivered (9 * time.Second).
Proof.
  eexists. split; [vm_compute; reflexivity|].
  repeat split; vm_compute; reflexivity.
Qed.

(** C9 fails as stated: the reset is at time 0, the 10 s windows close at
    10 s, and [flush(false)] runs half a millisecond before that.  The delay
    submitted is the half millisecond, where the specification's
    [max(nextFlush - baseTime, 1 ms)] is one millisecond. *)
Lemma flush_short_delay_counterexample :
  ∃ res,
    flush map_order "metrics" 100 false (10 * time.Second - 500000) true sm_start
    = Some res ∧
    fr_nextFlush res = 10 * time.Second ∧
    fr_timer res = Delivered 500000 ∧
    spec_delay (fr_nextFlush res) (10 * time.Second - 500000) = time.Millisecond ∧
    fr_timer res
    ≠ Delivered (spec_delay (fr_nextFlush res) (10 * time.Second - 500000)) ∧
    500000 < time.Millisecond.
Proof.
  eexists. split; [vm_compute; reflexivity|].
  split; [vm_compute; reflexivity|]. split; [vm_compute; reflexivity|].
  split; [vm_compute; reflexivity|]. split; [vm_compute; congruence|].
  vm_compute. reflexivity.
Qed.

Lemma flush_submits_delay_witness :
  wf catchall sm_3 ∧
  ∃ res, flush map_order "metrics" 100 false (4 * time.Second) false sm_3 = Some res
         ∧ fr_timer res = Dropped (6 * time.Second).
Proof.
  split; [exact sm_3_wf|].
  destruct (flush_submits_delay catchall map_order map_order_perm
              "metrics" 100 (4 * time.Second) false sm_3 sm_3_wf)
    as (res & res' & Hres & _ & Htimer & _).
  exists res. split; [exact Hres|]. rewrite Htimer.
  vm_compute in Hres. injection Hres as <-. vm_compute. reflexivity.
Defined.

(** *** The two views *)

Lemma two_level_invariant_witness :
  reachable catchall None map_order "metrics" 100 cfg sm_1 ∧
  two_level sm_1 ∧ pointers_valid sm_1.
Proof.
  assert (Hreach : reachable catchall None map_order "metrics" 100 cfg sm_1).
  { apply (reach_step _ _ _ _ _ _ sm_start); [apply reach_start|].
    exact (step_accumulate _ _ _ _ _ _ (sample "foo.x" 5) _ _ sm_1_accumulated). }
  split; [exact Hreach|].
  exact (two_level_invariant catchall None map_order "metrics" 100 cfg sm_1 Hreach).
Defined.

(** *** The read worker *)

(** C2 fails as stated: the request is made 60 s after [from], and the
    first window of the path's expression has a retention of exactly 60 s.
    The specification selects that window; the code passes it over, reads the
    table of the second window and answers with the second window's step. *)
Lemma queryGET_retention_boundary_counterexample :
  getExpression catchall cfg "bar.x" = Some "default" ∧
  spec_window (time.Sub (60 * time.Second) (time.Unix 0 0))
    (rollup_Windows rollup_defs "default") = Some w10s ∧
  ∃ st,
    queryGET_loop catchall "metrics" rollup_defs stats_db cfg (60 * time.Second)
      (get_query 0 60 ["bar.x"]) = Some st ∧
    sel_stmt <$> qs_selects st = [select_stmt "metrics" (Table w60s)] ∧
    select_stmt "metrics" (Table w60s) ≠ select_stmt "metrics" (Table w10s) ∧
    mr_Step (queryGET_response (get_query 0 60 ["bar.x"]) st) = 60 ∧
    window_step w10s = 10.
Proof.
  split; [vm_compute; reflexivity|]. split; [vm_compute; reflexivity|].
  eexists. split; [vm_compute; reflexivity|].
  split; [vm_compute; reflexivity|]. split; [vm_compute; congruence|].
  split; vm_compute; reflexivity.
Qed.

Lemma queryGET_selects_first_window_witness :
  ∃ st',
    queryGET_path catchall "metrics" rollup_defs stats_db cfg
      (time.Sub (59 * time.Second) (time.Unix 0 0)) (get_query 0 59 ["a"; "bar.x"])
      {| qs_table := "rollup_10_60"; qs_step := 10; qs_statList := [1%float];
         qs_series := {["a" := [1%float]]};
         qs_selects := [{| sel_stmt := select_stmt "metrics" "rollup_10_60";
                           sel_path := "a"; sel_from := 0;
                           sel_to := 59 * time.Second |}] |}
      "bar.x" = Some st' ∧
    qs_table st' = "rollup_10_60" ∧ qs_step st' = 10.
Proof.
  destruct (queryGET_selects_first_window catchall "metrics" rollup_defs stats_db
              cfg (59 * time.Second) (get_query 0 59 ["a"; "bar.x"])
              ["a"] "bar.x" []
              {| qs_table := "rollup_10_60"; qs_step := 10; qs_statList := [1%float];
                 qs_series := {["a" := [1%float]]};
                 qs_selects := [{| sel_stmt := select_stmt "metrics" "rollup_10_60";
                                   sel_path := "a"; sel_from := 0;
                                   sel_to := 59 * time.Second |}] |}
              "default" w10s)
    as (st' & Hstep & Htable & Hsecs & _).
  - reflexivity.
  - vm_compute. reflexivity.
  - vm_compute. reflexivity.
  - vm_compute. reflexivity.
  - exists st'. split; [exact Hstep|]. split; [exact Htable|].
    rewrite Hsecs. vm_compute. reflexivity.
Defined.

(** A request whose [from] is the largest [int64]: [time.Unix] wraps it
    into the far past, [timeDelta] is the largest [Duration], no window is
    selected, the [SELECT] names the table with the empty name and the step
    of the response is 0. *)
Example queryGET_wrapped_from :
  time.Sub (60 * time.Second) (time.Unix (2 ^ 63 - 1) 0) = time.maxDuration ∧
  first_window (time.Sub (60 * time.Second) (time.Unix (2 ^ 63 - 1) 0))
    (rollup_Windows rollup_defs "default") = None ∧
  ∃ st,
    queryGET_loop catchall "metrics" rollup_defs stats_db cfg (60 * time.Second)
      (get_query (2 ^ 63 - 1) 60 ["bar.x"]) = Some st ∧
    sel_stmt <$> qs_selects st = [select_stmt "metrics" ""] ∧
    mr_Step (queryGET_response (get_query (2 ^ 63 - 1) 60 ["bar.x"]) st) = 0.
Proof.
  split; [vm_compute; reflexivity|]. split; [vm_compute; reflexivity|].
  eexists. split; [vm_compute; reflexivity|].
  split; vm_compute; reflexivity.
Qed.

(** C3.  A request for the two paths [a] and [b]: the [SELECT] of [b]
    returns the single stat 2, and the series entry of [b] holds 1 and 2,
    the first being the stat of [a]. *)
Theorem queryGET_series_mixes_paths :
  ∃ st s1 s2,
    queryGET_loop catchall "metrics" rollup_defs stats_db cfg (30 * time.Second)
      (get_query 0 30 ["a"; "b"]) = Some st ∧
    qs_selects st = [s1; s2] ∧
    sel_path s1 = "a" ∧ stats_db s1 = [1%float] ∧
    sel_path s2 = "b" ∧ stats_db s2 = [2%float] ∧
    qs_series st !! "a" = Some [1%float] ∧
    qs_series st !! "b" = Some [1%float; 2%float] ∧
    qs_series st !! "b" ≠ Some (stats_db s2).
Proof.
  eexists _, _, _. split; [vm_compute; reflexivity|].
  split; [vm_compute; reflexivity|].
  repeat (split; [vm_compute; reflexivity|]).
  vm_compute. congruence.
Qed.



(** *** The resolver *)

(** C4 fails as stated: with the index down, the resolver answers zero
    bytes, which is neither the serialization [null] of the nil list nor the
    serialization of the empty list. *)
Lemma query_index_down_counterexample :
  query "paths" depth_string index_down no_regexp json_paths "a.b.c.d" = Some "" ∧
  json_paths [] = "null" ∧
  query "paths" depth_string index_down no_regexp json_paths "a.b.c.d"
  ≠ Some (json_paths []) ∧
  query "paths" depth_string index_down no_regexp json_paths "a.b.c.d"
  ≠ Some "[]".
Proof.
  split; [vm_compute; reflexivity|]. split; [reflexivity|].
  split; vm_compute; congruence.
Qed.

(** On the index that is up and holds three members, the lookup of the
    exact query [x.y] finds no member, while that of the prefix query
    [a.b.c.d.*] finds two; with the index down, the lookup of a
    multi-wildcard query returns an error. *)
Lemma query_lookup_failed_witness :
  lookup_of_failed "paths" index_up (query_queryString depth_string "x.y") ∧
  ¬ lookup_of_failed "paths" index_up
      (query_queryString depth_string "a.b.c.d.*") ∧
  query "paths" depth_string index_up no_regexp json_paths "x.y" = Some "" ∧
  lookup_of_failed "paths" index_down
    (query_queryString depth_string "a.*.c.*.e") ∧
  query "paths" depth_string index_down no_regexp json_paths "a.*.c.*.e"
  = Some "".
Proof.
  assert (Hup : lookup_of_failed "paths" index_up
                  (query_queryString depth_string "x.y")).
  { eexists. split; [vm_compute; reflexivity|]. right. vm_compute. reflexivity. }
  assert (Hdown : lookup_of_failed "paths" index_down
                    (query_queryString depth_string "a.*.c.*.e")).
  { eexists. split; [vm_compute; reflexivity|]. left. vm_compute. congruence. }
  split; [exact Hup|]. split.
  - intros (queryStringMax & Hmax & [Herr|Hnone]).
    + vm_compute in Herr. apply Herr. reflexivity.
    + vm_compute in Hnone. congruence.
  - split; [|split; [exact Hdown|]].
    + exact (proj1 (query_lookup_failed "paths" depth_string index_up no_regexp
                      json_paths "x.y" Hup)).
    + exact (proj1 (query_lookup_failed "paths" depth_string index_down
                      no_regexp json_paths "a.*.c.*.e" Hdown)).
Defined.

(** Scenario 3 of the specification: with the index up, a prefix lookup
    answers the two serialized entries at depth 5. *)
Example query_prefix_lookup :
  query "paths" depth_string index_up no_regexp json_paths "a.b.c.d.*"
  = Some (json_paths
            [ {| gopher.Path := "a.b.c.d.e"; gopher.Depth := 5;
                 gopher.Tenant := ""; gopher.Leaf := true |};
              {| gopher.Path := "a.b.c.d.f"; gopher.Depth := 5;
                 gopher.Tenant := ""; gopher.Leaf := true |} ]).
Proof. vm_compute. reflexivity. Qed.

(** ** The listener, the schema and the command line *)

(** X27. [MetricHandler] panics, on an index out of range, exactly when a
    line was read that is not empty and has fewer than two fields, or has
    two fields of which the second is a number: a line of blanks alone, or
    a path with a value and no timestamp, brings the handler down.  A line
    with two fields whose second is not a number is given up without a
    panic. *)
Theorem MetricHandler_panics_iff Fields ParseFloat line err :
  listener.MetricHandler Fields ParseFloat line err = None ↔
  err = false ∧ line ≠ "" ∧
  ((length (Fields line) < 2)%nat ∨
   length (Fields line) = 2%nat ∧
   ∃ field1, Fields line !! 1%nat = Some field1 ∧ (ParseFloat field1).2 = false).
Proof.
  unfold listener.MetricHandler. destruct err; simpl.
  { split; [done|]. by intros [? _]. }
  destruct (decide (line = "")) as [->|Hne].
  { split; [done|]. by intros (_ & ? & _). }
  destruct (Fields line) as [|statPath [|field1 [|field2 rest]]]; simpl.
  - split; [intros _|done]. split_and!; [done..|]. left. lia.
  - split; [intros _|done]. split_and!; [done..|]. left. lia.
  - destruct (ParseFloat field1) as [val [|]] eqn:Hp; simpl.
    + split; [done|]. intros (_ & _ & [?|[_ (f & [= <-] & Hf)]]); [lia|].
      rewrite Hp in Hf. done.
    + split; [intros _|done]. split_and!; [done..|]. right. split; [done|].
      exists field1. by rewrite Hp.
  - destruct (ParseFloat field1) as [val [|]]; simpl.
    + split; [done|]. intros (_ & _ & [?|[? _]]); lia.
    + destruct (ParseFloat field2) as [ts [|]]; simpl;
        (split; [done|]; intros (_ & _ & [?|[? _]]); lia).
Qed.

(** X28. [MetricHandler] gets to queue a metric exactly when the line has
    at least three fields of which the second and the third are numbers:
    the metric is made of the first three fields.  A line with more than
    three fields is printed as a bad metric and queued all the same, from
    its first three fields. *)
Theorem MetricHandler_queues Fields ParseFloat line err bad parsedMetric :
  listener.MetricHandler Fields ParseFloat line err
  = Some (listener.WouldQueue bad parsedMetric) ↔
  err = false ∧ line ≠ "" ∧
  ∃ statPath field1 field2,
    Fields line !! 0%nat = Some statPath ∧
    Fields line !! 1%nat = Some field1 ∧
    Fields line !! 2%nat = Some field2 ∧
    (ParseFloat field1).2 = false ∧ (ParseFloat field2).2 = false ∧
    parsedMetric = {| Path := statPath; Value := (ParseFloat field1).1;
                      Timestamp := (ParseFloat field2).1 |} ∧
    bad = bool_decide (length (Fields line) ≠ 3%nat).
Proof.
  unfold listener.MetricHandler. destruct err; simpl.
  { split; [done|]. by intros [? _]. }
  destruct (decide (line = "")) as [->|Hne].
  { split; [done|]. by intros (_ & ? & _). }
  destruct (Fields line) as [|statPath [|field1 [|field2 rest]]]; simpl.
  - split; [done|]. by intros (_ & _ & ? & ? & ? & ? & _).
  - split; [done|]. by intros (_ & _ & ? & ? & ? & _ & ? & _).
  - destruct (ParseFloat field1) as [val [|]]; simpl;
      (split; [done|]; by intros (_ & _ & ? & ? & ? & _ & _ & ? & _)).
  - destruct (ParseFloat field1) as [val [|]] eqn:Hp1; simpl.
    + split; [done|].
      intros (_ & _ & p & f1 & f2 & _ & [= <-] & _ & Hf1 & _).
      rewrite Hp1 in Hf1. done.
    + destruct (ParseFloat field2) as [ts [|]] eqn:Hp2; simpl.
      * split; [done|].
        intros (_ & _ & p & f1 & f2 & _ & _ & [= <-] & _ & Hf2 & _).
        rewrite Hp2 in Hf2. done.
      * split.
        -- intros [= <- <-]. split_and!; [done..|].
           exists statPath, field1, field2. rewrite Hp1, Hp2. by split_and!.
        -- intros (_ & _ & p & f1 & f2 & [= <-] & [= <-] & [= <-] & _ & _ & -> & ->).
           by rewrite Hp1, Hp2.
Qed.

(** X29. The time to live that [populateSchema] gives a new table is 1.1
    times the number between the first and the second underscore of the
    table's name, or after its only underscore, with the fraction cut off:
    for a name [<window>_<retention>] it is computed from the retention.
    For a name without an underscore [populateSchema] panics. *)
Theorem populateSchema_ttl_of_name ParseFloat :
  (∀ table,
     populateSchema_ttl ParseFloat table = None ↔ count_byte "_" table = 0%nat) ∧
  (∀ a b, count_byte "_" a = 0%nat → count_byte "_" b = 0%nat →
     populateSchema_ttl ParseFloat (a +:+ "_" +:+ b)
     = Some (gonum.int_of_float64
               (PrimFloat.mul (ParseFloat b).1 0x1.199999999999ap+0%float)) ∧
     ∀ rest,
       populateSchema_ttl ParseFloat (a +:+ "_" +:+ b +:+ "_" +:+ rest)
       = Some (gonum.int_of_float64
                 (PrimFloat.mul (ParseFloat b).1 0x1.199999999999ap+0%float))).
Proof.
  split.
  - intros table. unfold populateSchema_ttl.
    pose proof (Split_length table "_") as Hlen.
    destruct (gostrings.Split table "_" !! 1%nat) as [ttl|] eqn:Httl; simpl.
    + apply lookup_lt_Some in Httl. split; [done|lia].
    + apply lookup_ge_None in Httl. split; [lia|done].
  - intros a b Ha Hb. unfold populateSchema_ttl. split.
    + change (a +:+ "_" +:+ b) with (a +:+ String "_" b).
      by rewrite (Split_piece a b "_" Ha), (Split_single b "_" Hb).
    + intros rest.
      change (a +:+ "_" +:+ b +:+ "_" +:+ rest)
        with (a +:+ String "_" (b +:+ String "_" rest)).
      by rewrite (Split_piece a _ "_" Ha), (Split_piece b rest "_" Hb).
Qed.

(** The reloads of a configuration file that was named: each value is the
    first one that is not empty. *)
Lemma reloads_first_nonempty confFile (reloads : list main.CassabonConfig) :
  confFile ≠ "" →
  ∀ g,
  foldl (λ g cnf', main.load confFile cnf' g) g reloads
  = {| main.Logdir :=
         main.first_nonempty (main.Logdir g :: (main.cnf_Logdir <$> reloads));
       main.Loglevel :=
         main.first_nonempty (main.Loglevel g :: (main.cnf_Loglevel <$> reloads));
       main.StatsdHost :=
         main.first_nonempty
           (main.StatsdHost g :: (main.cnf_StatsdHost <$> reloads));
       main.StatsdPort := main.StatsdPort g |}.
Proof.
  intros Hconf. induction reloads as [|cnf reloads IH]; intros g.
  - destruct g as [ld ll sh sp]. simpl. f_equal; by case_decide.
  - simpl foldl. rewrite IH. unfold main.load. rewrite decide_True by done.
    rewrite !fmap_cons. simpl. f_equal; by repeat case_decide.
Qed.

(** X30. The log directory, the log level and the statsd host that the
    program runs with are, each one, the first value that is not empty in
    the sequence: command line (for the log level, [debug] when the option
    is absent), configuration file at the startup, configuration file at
    each SIGHUP in turn.  So a value that is set is never replaced by a
    reload, and the log level of the file is read only when the command
    line gives the empty level.  Without a configuration file the values
    are those of the command line; the statsd port is never read from the
    file. *)
Theorem configured_first_nonempty o cnf reloads :
  (default "" (main.opt_conf o) = "" →
   main.configured o cnf reloads = (main.parse_flags o).2) ∧
  (default "" (main.opt_conf o) ≠ "" →
   main.configured o cnf reloads
   = {| main.Logdir :=
          main.first_nonempty
            (default "" (main.opt_logdir o) :: main.cnf_Logdir cnf
               :: (main.cnf_Logdir <$> reloads));
        main.Loglevel :=
          main.first_nonempty
            (default "debug" (main.opt_loglevel o) :: main.cnf_Loglevel cnf
               :: (main.cnf_Loglevel <$> reloads));
        main.StatsdHost :=
          main.first_nonempty
            (default "" (main.opt_statsdhost o) :: main.cnf_StatsdHost cnf
               :: (main.cnf_StatsdHost <$> reloads));
        main.StatsdPort := default 8125 (main.opt_statsdport o) |}).
Proof.
  unfold main.configured. simpl. split.
  - intros Hno. unfold main.load. rewrite decide_False by (by intros ?).
    induction reloads as [|cnf' reloads IH]; [done|]. simpl.
    by rewrite decide_False by (by intros ?).
  - intros Hconf. rewrite (reloads_first_nonempty _ _ Hconf).
    unfold main.load. rewrite decide_True by done. simpl.
    f_equal; by repeat case_decide.
Qed.

(** ** The further properties on the concrete inputs *)

Lemma sm_3_windows_positive : windows_positive sm_3.
Proof.
  intros expr d w Hd Hw. simpl in Hd. unfold rollup_defs in Hd.
  apply lookup_insert_Some in Hd as [[_ <-]|[_ Hd]].
  - apply list_elem_of_singleton in Hw as ->. done.
  - apply lookup_insert_Some in Hd as [[_ <-]|[_ Hd]]; [|done].
    apply elem_of_cons in Hw as [->|Hw]; [done|].
    apply list_elem_of_singleton in Hw as ->. done.
Qed.

Lemma sm_1_reachable : reachable catchall None map_order "metrics" 100 cfg sm_1.
Proof.
  apply (reach_step _ _ _ _ _ _ sm_start); [apply reach_start|].
  exact (step_accumulate _ _ _ _ _ _ (sample "foo.x" 5) _ _ sm_1_accumulated).
Qed.

(** *** The expression of a path *)

Lemma getExpression_first_match_witness :
  getExpression catchall cfg "foo.x" = Some "^foo\.".
Proof.
  apply (getExpression_first_match catchall cfg "foo.x" [] "^foo\." ["default"]
           (String.prefix "foo.")).
  - reflexivity.
  - intros e' Hin. by apply elem_of_nil in Hin.
  - done.
  - vm_compute. reflexivity.
  - vm_compute. reflexivity.
Defined.

(** With the catchall first in the list, a path that matches nothing is
    filed under the last expression, which is not the catchall. *)
Lemma getExpression_no_match_witness :
  getExpression catchall cfg_catchall_first "bar.x" = Some "^foo\.".
Proof.
  apply (getExpression_no_match catchall cfg_catchall_first "bar.x").
  intros e Hin Hne. simpl in Hin.
  apply elem_of_cons in Hin as [->|Hin]; [done|].
  apply list_elem_of_singleton in Hin as ->.
  exists (String.prefix "foo."). split; vm_compute; reflexivity.
Defined.

(** *** Samples and buckets *)

Lemma accumulate_samples_fold_witness :
  wf catchall sm_3 ∧
  ∃ sm' sent,
    run_ops catchall None map_order "metrics" 100 sm_3
      (op_accumulate <$> [sample "bar.x" 1; sample "foo.x" 9; sample "bar.x" 2])
    = Some (sm', sent) ∧
    bucket (sm_heap sm') 1 0 = Some (3, 8%float).
Proof.
  split; [exact sm_3_wf|].
  destruct (accumulate_samples_fold catchall None map_order "metrics" 100
              [sample "bar.x" 1; sample "foo.x" 9; sample "bar.x" 2]
              sm_3 "bar.x" 1%nat rollup_bar_3 default_def 0%nat (1, 5%float)
              sm_3_wf)
    as (sm' & sent & Hrun & _ & Hb & _); [vm_compute; reflexivity..|].
  exists sm', sent. split; [exact Hrun|]. rewrite Hb. vm_compute. reflexivity.
Defined.

Lemma accumulate_other_paths_witness :
  wf catchall sm_3 ∧
  ∃ sm' sent,
    accumulate catchall None sm_3 (sample "bar.x" 1.5) = Some (sm', sent) ∧
    sm_byPath sm' !! "foo.x" = Some 0%nat ∧
    sm_heap sm' !! 0%nat = sm_heap sm_3 !! 0%nat.
Proof.
  split; [exact sm_3_wf|].
  assert (Heval : ∃ res, accumulate catchall None sm_3 (sample "bar.x" 1.5)
                         = Some res) by (eexists; vm_compute; reflexivity).
  destruct Heval as [[sm' sent] Heval]. exists sm', sent. split; [exact Heval|].
  destruct (accumulate_other_paths catchall None sm_3 (sample "bar.x" 1.5)
              sm' sent sm_3_wf Heval) as (_ & _ & Hothers & _).
  apply (Hothers "foo.x" 0%nat); [done|vm_compute; reflexivity].
Defined.

Lemma reachable_paths_classified_witness :
  config_ok catchall cfg ∧
  reachable catchall None map_order "metrics" 100 cfg sm_1 ∧
  ∃ r rl,
    sm_heap sm_1 !! 0%nat = Some r ∧
    getExpression catchall sm_1 "foo.x" = Some (rollup_expr r) ∧
    sm_byExpr sm_1 !! rollup_expr r = Some rl ∧
    runlist_path rl !! "foo.x" = Some 0%nat.
Proof.
  split; [exact cfg_ok|]. split; [exact sm_1_reachable|].
  destruct (reachable_paths_classified catchall None map_order map_order_perm
              "metrics" 100 cfg sm_1 "foo.x" 0%nat cfg_ok sm_1_reachable)
    as (r & expr & rl & d & Hr & <- & Hexpr & Hrl & Hp & _);
    [vm_compute; reflexivity|].
  by exists r, rl.
Defined.

(** *** Resets, and runs of the event loop *)

(** The path [foo.x], known in [sm_3], is announced again after a reset. *)
Lemma reset_reannounces_witness :
  config_ok catchall sm_3 ∧
  is_Some (sm_byPath sm_3 !! "foo.x") ∧
  ∃ sm',
    accumulate catchall None (resetRollupData (70 * time.Second) sm_3)
      (sample "foo.x" 7)
    = Some (sm', [sample "foo.x" 7]) ∧
    bucket (sm_heap sm') 2 0 = Some (1, 7%float).
Proof.
  split; [exact (proj1 sm_3_wf)|]. split; [by eexists|].
  destruct (reset_reannounces catchall None (70 * time.Second) sm_3
              (sample "foo.x" 7) (proj1 sm_3_wf))
    as (sm' & expr & d & Hacc & Hexpr & Hd & _ & Hb).
  exists sm'. split; [exact Hacc|].
  vm_compute in Hexpr. injection Hexpr as <-.
  vm_compute in Hd. injection Hd as <-.
  etrans; [exact (Hb 0%nat ltac:(simpl; lia))|]. vm_compute. reflexivity.
Defined.

Lemma peer_change_flushes_and_forgets_witness :
  wf catchall sm_3 ∧
  ∃ sm' bw,
    peer_change map_order "metrics" 100 (3 * time.Second) true (4 * time.Second) sm_3
    = Some (sm', bw) ∧
    ("rollup_60_3600", ("bar.x", 3 * time.Second, 5%float)) ∈ written_rows bw ∧
    sm_byPath sm' = ∅ ∧
    ∃ sm'', accumulate catchall None sm' (sample "bar.x" 1)
            = Some (sm'', [sample "bar.x" 1]).
Proof.
  split; [exact sm_3_wf|].
  destruct (peer_change_flushes_and_forgets catchall None map_order map_order_perm
              "metrics" 100 (3 * time.Second) true (4 * time.Second) sm_3 sm_3_wf)
    as (sm' & bw & Hpc & Hrows & _ & Hempty & _ & Hnew).
  exists sm', bw. split; [exact Hpc|]. split; [|split; [exact Hempty|apply Hnew]].
  destruct (Hrows "default" rl_default_3 "bar.x" 1%nat 1%nat 1 5%float)
    as (w & Hw & Hin); [vm_compute; reflexivity..|done|].
  vm_compute in Hw. injection Hw as <-. exact Hin.
Defined.

Lemma run_never_panics_witness :
  config_ok catchall cfg ∧
  reachable catchall None map_order "metrics" 100 cfg sm_1 ∧
  is_Some (accumulate catchall None sm_1 (sample "bar.x" 2)) ∧
  is_Some (flush map_order "metrics" 100 false (11 * time.Second) true sm_1).
Proof.
  split; [exact cfg_ok|]. split; [exact sm_1_reachable|].
  destruct (run_never_panics catchall None map_order map_order_perm "metrics" 100
              rollup_defs stats_db json_brief cfg sm_1 cfg_ok sm_1_reachable)
    as (Hacc & Hfl & _).
  split; [apply Hacc|apply Hfl].
Defined.

Lemma index_store_once_witness :
  wf catchall sm_start ∧
  ∃ sm' sent,
    run_ops catchall None map_order "metrics" 100 sm_start
      [op_accumulate (sample "foo.x" 5); op_flush false (11 * time.Second) true;
       op_accumulate (sample "foo.x" 3)]
    = Some (sm', sent) ∧
    NoDup (Path <$> sent) ∧ "foo.x" ∈ Path <$> sent.
Proof.
  split; [exact sm_start_wf|].
  destruct (index_store_once catchall None map_order map_order_perm "metrics" 100
              [op_accumulate (sample "foo.x" 5);
               op_flush false (11 * time.Second) true;
               op_accumulate (sample "foo.x" 3)] sm_start sm_start_wf)
    as (sm' & sent & Hrun & Hnd & Hiff).
  exists sm', sent. split; [exact Hrun|]. split; [exact Hnd|].
  apply Hiff. split; [vm_compute; reflexivity|].
  exists (sample "foo.x" 5). split; [by left|done].
Defined.

(** *** The flusher *)


Lemma flush_clears_exactly_witness :
  wf catchall sm_3 ∧
  ∃ res,
    flush map_order "metrics" 100 false (11 * time.Second) true sm_3 = Some res ∧
    bucket (sm_heap (fr_sm res)) 1 0 = Some (0, 0%float) ∧
    bucket (sm_heap (fr_sm res)) 1 1 = Some (1, 5%float).
Proof.
  split; [exact sm_3_wf|].
  destruct (flush_clears_exactly catchall map_order map_order_perm "metrics" 100
              false (11 * time.Second) true sm_3 sm_3_wf)
    as (res & Hres & Hb).
  exists res. split; [exact Hres|]. split.
  - rewrite (Hb "default" rl_default_3 "bar.x" 1%nat 0%nat (10 * time.Second));
      vm_compute; reflexivity.
  - rewrite (Hb "default" rl_default_3 "bar.x" 1%nat 1%nat (60 * time.Second));
      vm_compute; reflexivity.
Defined.

Lemma flush_next_is_earliest_witness :
  wf catchall sm_3 ∧
  ∃ res,
    flush map_order "metrics" 100 false (11 * time.Second) true sm_3 = Some res ∧
    fr_nextFlush res ≤ 71 * time.Second.
Proof.
  split; [exact sm_3_wf|].
  destruct (flush_next_is_earliest catchall map_order map_order_perm "metrics" 100
              false (11 * time.Second) true sm_3 sm_3_wf)
    as (res & Hres & Hle & _).
  exists res. split; [exact Hres|]. exact Hle.
Defined.

Lemma flush_delay_bounds_witness :
  wf catchall sm_3 ∧ windows_positive sm_3 ∧
  ∃ res,
    flush map_order "metrics" 100 false (11 * time.Second) true sm_3 = Some res ∧
    fr_timer res = Delivered (fr_nextFlush res - 11 * time.Second) ∧
    0 ≤ fr_nextFlush res - 11 * time.Second ≤ time.Minute.
Proof.
  split; [exact sm_3_wf|]. split; [exact sm_3_windows_positive|].
  exact (flush_delay_bounds catchall map_order map_order_perm "metrics" 100
           (11 * time.Second) true sm_3 sm_3_wf sm_3_windows_positive).
Defined.

Lemma flush_keeps_paths_witness :
  ∃ res,
    flush map_order "metrics" 100 true (3 * time.Second) true sm_3 = Some res ∧
    sm_byPath (fr_sm res) = sm_byPath sm_3 ∧
    length (sm_heap (fr_sm res)) = 2%nat.
Proof.
  assert (Heval : ∃ res, flush map_order "metrics" 100 true (3 * time.Second) true
                           sm_3 = Some res) by (eexists; vm_compute; reflexivity).
  destruct Heval as [res Heval]. exists res. split; [exact Heval|].
  destruct (flush_keeps_paths map_order "metrics" 100 true (3 * time.Second) true
              sm_3 res Heval) as (_ & _ & Hbp & Hlen & _).
  split; [exact Hbp|exact Hlen].
Defined.

Lemma flush_after_terminating_writes_nothing_witness :
  wf catchall sm_3 ∧
  ∃ res res',
    flush map_order "metrics" 100 true (3 * time.Second) true sm_3 = Some res ∧
    flush map_order "metrics" 100 false (71 * time.Second) true (fr_sm res)
    = Some res' ∧
    all_rows (fr_bw res') = [].
Proof.
  split; [exact sm_3_wf|].
  exact (flush_after_terminating_writes_nothing catchall map_order map_order_perm
           "metrics" 100 (3 * time.Second) true false (71 * time.Second) true
           sm_3 sm_3_wf).
Defined.

Lemma flush_closing_times_not_past_witness :
  wf catchall sm_3 ∧ windows_positive sm_3 ∧
  ∃ res,
    flush map_order "metrics" 100 true (3 * time.Second) true sm_3 = Some res ∧
    ∀ expr rl' i t,
      sm_byExpr (fr_sm res) !! expr = Some rl' →
      runlist_nextWriteTime rl' !! i = Some t → 3 * time.Second < t.
Proof.
  split; [exact sm_3_wf|]. split; [exact sm_3_windows_positive|].
  destruct (flush_closing_times_not_past catchall map_order map_order_perm
              "metrics" 100 true (3 * time.Second) true sm_3 sm_3_wf
              sm_3_windows_positive) as (res & Hres & Htimes).
  exists res. split; [exact Hres|]. intros expr rl' i t Hrl' Ht.
  destruct (Htimes expr rl' i t Hrl' Ht) as (_ & Hlt & _). by apply Hlt.
Defined.

(** *** The read worker *)

Lemma queryGET_series_cumulative_witness :
  ∃ st,
    queryGET_loop catchall "metrics" rollup_defs stats_db cfg (30 * time.Second)
      (get_query 0 30 ["a"; "b"]) = Some st ∧
    qs_series st !! "b" = Some [1%float; 2%float].
Proof.
  assert (Heval : ∃ st, queryGET_loop catchall "metrics" rollup_defs stats_db cfg
                          (30 * time.Second) (get_query 0 30 ["a"; "b"]) = Some st)
    by (eexists; vm_compute; reflexivity).
  destruct Heval as [st Heval]. exists st. split; [exact Heval|].
  destruct (queryGET_series_cumulative catchall "metrics" rollup_defs stats_db cfg
              (30 * time.Second) (get_query 0 30 ["a"; "b"]) st ["a"] "b" [])
    as [_ ->]; [reflexivity|by intros ?%elem_of_nil|exact Heval|].
  vm_compute in Heval. injection Heval as <-. vm_compute. reflexivity.
Defined.

Lemma queryGET_response_shape_witness :
  ∃ st,
    queryGET_loop catchall "metrics" rollup_defs stats_db cfg (30 * time.Second)
      (get_query 0 30 ["a"; "b"]) = Some st ∧
    mr_To (queryGET_response (get_query 0 30 ["a"; "b"]) st) = 30 ∧
    sel_path <$> qs_selects st = ["a"; "b"].
Proof.
  assert (Heval : ∃ st, queryGET_loop catchall "metrics" rollup_defs stats_db cfg
                          (30 * time.Second) (get_query 0 30 ["a"; "b"]) = Some st)
    by (eexists; vm_compute; reflexivity).
  destruct Heval as [st Heval]. exists st. split; [exact Heval|].
  destruct (queryGET_response_shape catchall "metrics" rollup_defs stats_db cfg
              (30 * time.Second) (get_query 0 30 ["a"; "b"]) st Heval)
    as (_ & Hto & _ & Hsel & _).
  split; [exact Hto|exact Hsel].
Defined.

(** Two hours after [from], beyond the longest retention of one hour. *)
Lemma queryGET_no_window_witness :
  ∃ st,
    queryGET_loop catchall "metrics" rollup_defs stats_db cfg (7200 * time.Second)
      (get_query 0 7200 ["bar.x"]) = Some st ∧
    sel_stmt <$> qs_selects st
    = ["SELECT stat FROM metrics. WHERE path = ? AND time >= ? AND time <= ?"] ∧
    mr_Step (queryGET_response (get_query 0 7200 ["bar.x"]) st) = 0.
Proof.
  destruct (queryGET_no_window catchall "metrics" rollup_defs stats_db cfg
              (7200 * time.Second) (get_query 0 7200 ["bar.x"]))
    as (st & Hloop & _ & Hstep).
  - intros p Hin. simpl in Hin. apply list_elem_of_singleton in Hin as ->.
    exists "default". split; vm_compute; reflexivity.
  - exists st. split; [exact Hloop|]. split; [|exact Hstep].
    vm_compute in Hloop. injection Hloop as <-. vm_compute. reflexivity.
Defined.

(** *** The resolver *)

Lemma decode_member_fields_witness :
  decode_member 5 "5:a.b.c.d.e:true"
  = Some {| gopher.Path := "a.b.c.d.e"; gopher.Depth := 5;
            gopher.Tenant := ""; gopher.Leaf := true |}.
Proof.
  exact (decode_member_fields 5 "5" "a.b.c.d.e" "true" eq_refl eq_refl eq_refl).
Defined.

Lemma query_returns_witness :
  (∀ key lo hi offset count,
     Forall (λ member, (2 ≤ count_byte ":" member)%nat)
            (index_up key lo hi offset count).1) ∧
  is_Some (query "paths" depth_string index_up regexp_example json_paths
             "a.*.c.*.e").
Proof.
  assert (Hidx : ∀ key lo hi offset count,
            Forall (λ member, (2 ≤ count_byte ":" member)%nat)
                   (index_up key lo hi offset count).1).
  { intros key lo hi offset count. apply Forall_forall. intros member Hin.
    unfold index_up in Hin. simpl in Hin.
    apply list_elem_of_filter in Hin as [_ Hin]. unfold index_members in Hin.
    repeat (apply elem_of_cons in Hin as [->|Hin]; [vm_compute; lia|]).
    by apply elem_of_nil in Hin. }
  split; [exact Hidx|].
  exact (query_returns "paths" depth_string index_up regexp_example json_paths
           "a.*.c.*.e" Hidx).
Defined.

Lemma query_dispatch_witness :
  query "paths" depth_string index_up regexp_example json_paths "a.b.c.d.*"
  = simpleWild "paths" depth_string index_up json_paths "a.b.c.d." 5.
Proof.
  exact (proj1 (proj2 (query_dispatch "paths" depth_string index_up regexp_example
                         json_paths)) "a.b.c.d." eq_refl).
Defined.

(** The query [a.*.c.*.e] at depth 5 also answers the path [a.b.c.d.f]. *)
Lemma complexWild_pattern_witness :
  star_to_dotstar "a.*.c.*.e" = "a..*.c..*.e" ∧
  complexWild "paths" depth_string index_up regexp_example json_paths
    (gostrings.Split "a.*.c.*.e" "*") 5
  = Some (json_paths
            [ {| gopher.Path := "a.b.c.d.e"; gopher.Depth := 5;
                 gopher.Tenant := ""; gopher.Leaf := true |};
              {| gopher.Path := "a.b.c.d.f"; gopher.Depth := 5;
                 gopher.Tenant := ""; gopher.Leaf := true |} ]).
Proof.
  split; [reflexivity|].
  rewrite (complexWild_pattern "paths" depth_string index_up regexp_example
             json_paths "a.*.c.*.e" 5 ["5:a.b.c.d.e:true"; "5:a.b.c.d.f:true"]).
  - vm_compute. reflexivity.
  - vm_compute. reflexivity.
Defined.

(** The upper bound of the scan for the prefix [foo.ba] at depth 2, and a
    member that continues the prefix with a lowercase letter. *)
Lemma getMax_bounds_witness :
  getMax "[2:foo.ba" = Some "[2:foo.ba\xff" ∧
  String.compare ("[2:foo.ba" +:+ "r:true") "[2:foo.ba\xff" = Gt.
Proof.
  destruct (getMax_bounds "[2:foo.ba") as (m & Hm & _ & Hx); [done|].
  assert (m = "[2:foo.ba\xff") as ->.
  { vm_compute in Hm. by injection Hm as <-. }
  split; [exact Hm|]. rewrite (Hx "r:true"). vm_compute. reflexivity.
Defined.

(** *** The schema and the command line *)

Lemma populateSchema_ttl_of_name_witness :
  populateSchema_ttl (λ s, if String.eqb s "3600" then (3600%float, false)
                           else (0%float, true)) "60_3600"
  = Some 3960.
Proof.
  etrans;
    [exact (proj1 (proj2 (populateSchema_ttl_of_name
                            (λ s, if String.eqb s "3600" then (3600%float, false)
                                  else (0%float, true)))
                    "60" "3600" eq_refl eq_refl))|].
  vm_compute. reflexivity.
Defined.

(** The log level of the file is not read when the option is absent; the
    log directory comes from the file at the startup and a reload does not
    replace it. *)
Lemma configured_first_nonempty_witness :
  main.configured
    {| main.opt_conf := Some "cassabon.yaml"; main.opt_logdir := None;
       main.opt_loglevel := None; main.opt_statsdhost := None;
       main.opt_statsdport := None |}
    {| main.cnf_Logdir := "/var/log/a"; main.cnf_Loglevel := "warn";
       main.cnf_StatsdHost := "" |}
    [ {| main.cnf_Logdir := "/var/log/b"; main.cnf_Loglevel := "error";
         main.cnf_StatsdHost := "stats" |} ]
  = {| main.Logdir := "/var/log/a"; main.Loglevel := "debug";
       main.StatsdHost := "stats"; main.StatsdPort := 8125 |}.
Proof.
  rewrite (proj2 (configured_first_nonempty _ _ _)) by done.
  vm_compute. reflexivity.
Defined.
